(** * A GAIL agent and its action distributions

    A shallow embedding of [src/algorithms/gail_agent.py] and
    [src/rolf/networks/distributions.py], and the properties of the
    advantage estimator, the imitation reward, the training round and the
    distribution library that the specification states.

    Conventions of the embedding.
    - A Python float, and every element of a numpy array or of a torch tensor,
      is a real number: rounding and overflow of float32/float64 are not
      modelled, so the properties hold of the code up to rounding and for
      runs without overflow.  A constant that the code fixes in float32 is
      the float32 it is ([torch.float32_eps], [torch.float32_below_one]).
      Where numpy itself leaves the finite numbers (a division by a zero
      standard deviation) the result is an [np.npfloat], which has a value
      for the infinities and [nan].
    - A tensor or array is the list of its elements.  One-dimensional
      broadcasting is written out where the code relies on it.
    - A Python exception is an explicit error result.
    - The collaborators that are imported from outside the two files (the
      observation normaliser, the networks, the optimisers, the replay buffer,
      the expert data loader, [BaseAgent]) are the fields of the class
      [gail_agent.Collaborators]; nothing is assumed about them. *)

From Stdlib Require Import Reals Lra Lia ZArith.
From stdpp Require Import base option list strings gmap.

Open Scope R_scope.

(** Comparisons of real numbers, as the host language decides them. *)
#[global] Instance Req_decision : RelDecision (@eq R) := Req_dec_T.
#[global] Instance Rlt_decision : RelDecision Rlt := Rlt_dec.
#[global] Instance Rle_decision : RelDecision Rle := Rle_dec.

(** ** numpy *)

Module np.

Abbreviation ndarray := (list R).

(** An element of a float array that need not be finite: [nonfinite] stands
    for an infinity or [nan]. *)
Inductive npfloat :=
| finite (x : R)
| nonfinite.

(** [np.empty((T,), "float32")]: an array of [T] elements of unspecified
    content; every element is overwritten before it is read. *)
Definition empty (T : nat) : ndarray := replicate T 0.

Definition sum (a : ndarray) : R := foldr Rplus 0 a.

(** [a.mean()] of a non-empty array. *)
Definition mean (a : ndarray) : R := sum a / INR (length a).

(** [a.std()] of a non-empty array: the population standard deviation
    (numpy's default, [ddof=0]). *)
Definition std (a : ndarray) : R :=
  sqrt (mean (map (λ x, (x - mean a) * (x - mean a)) a)).

(** Floating-point division of two finite numbers: [x / 0] is an infinity,
    or [nan] when [x] is zero too (numpy warns and carries on). *)
Definition divide (x y : R) : npfloat :=
  if decide (y = 0) then nonfinite else finite (x / y).

(** Addition of a finite number. *)
Definition add (x : npfloat) (y : R) : npfloat :=
  match x with
  | finite x => finite (x + y)
  | nonfinite => nonfinite
  end.

(** [(a - a.mean()) / a.std()].  For the empty array the mean and the standard
    deviation are [nan] and the result is the empty array. *)
Definition standardize (a : ndarray) : list npfloat :=
  match a with
  | [] => []
  | _ => map (λ x, divide (x - mean a) (std a)) a
  end.

(** An array with two different elements. *)
Definition not_constant (a : ndarray) : Prop := ∃ x y, x ∈ a ∧ y ∈ a ∧ x ≠ y.

(** The finite elements of an array, when all of them are. *)
Fixpoint finite_values (a : list npfloat) : option ndarray :=
  match a with
  | [] => Some []
  | finite x :: a' => (x ::.) <$> finite_values a'
  | _ :: _ => None
  end.

End np.

(** ** torch *)

Module torch.

Abbreviation Tensor := (list R).

Definition sigmoid (x : R) : R := 1 / (1 + exp (- x)).

(** [torch.clamp(x, lo, hi)] on one element. *)
Definition clamp (lo hi x : R) : R := Rmin (Rmax x lo) hi.

(** [t.mean()] of a non-empty tensor. *)
Definition mean (t : Tensor) : R := np.sum t / INR (length t).

(** [t.min()]: an error on the empty tensor. *)
Definition min (t : Tensor) : option R :=
  match t with
  | [] => None
  | x :: t' => Some (foldr Rmin x t')
  end.

(** [t.item()]: the element of a tensor that has exactly one. *)
Definition item (t : Tensor) : option R :=
  match t with
  | [x] => Some x
  | _ => None
  end.

(** Broadcasting of two one-dimensional tensors: equal sizes, or one of them
    of size one, which is repeated. *)
Definition broadcast_tensors (a b : Tensor) : option (Tensor * Tensor) :=
  if decide (length a = length b) then Some (a, b)
  else match a, b with
       | [x], _ => Some (replicate (length b) x, b)
       | _, [y] => Some (a, replicate (length a) y)
       | _, _ => None
       end.

(** An elementwise binary operation, with broadcasting. *)
Definition binary (f : R → R → R) (a b : Tensor) : option Tensor :=
  '(a', b') ← broadcast_tensors a b; Some (zip_with f a' b').

(** [torch.stack(ts, -1)] of one-dimensional tensors: row [i] of the result
    holds element [i] of each tensor.  The list must be non-empty and the
    tensors of one size. *)
Definition stack (ts : list Tensor) : option (list (list R)) :=
  match ts with
  | [] => None
  | t :: _ =>
      if forallb (λ t', bool_decide (length t' = length t)) ts
      then Some (imap (λ i _, omap (λ t', t' !! i) ts) t)
      else None
  end.

(** [m.sum(-1, keepdim=True)]: the sum of each row. *)
Definition sum_last (m : list (list R)) : Tensor := map np.sum m.

(** [torch.atanh] on one element, for [-1 < y < 1]. *)
Definition atanh (y : R) : R := 1 / 2 * ln ((1 + y) / (1 - y)).

(** [torch.finfo(torch.float32).eps], and the greatest float32 below 1,
    [1 - 2^-24]: the float32 nearest to the literal [0.99999997], so what
    that literal is in an operation on a float32 tensor. *)
Definition float32_eps : R := / 2 ^ 23.
Definition float32_below_one : R := 1 - / 2 ^ 24.

(** [t.argmax()]: the index of the first greatest element; an error on the
    empty tensor.  [argmax_from] carries the best index and value so far. *)
Fixpoint argmax_from (best_i : nat) (best : R) (i : nat) (t : Tensor) : nat :=
  match t with
  | [] => best_i
  | x :: t' =>
      if decide (best < x) then argmax_from i x (S i) t'
      else argmax_from best_i best (S i) t'
  end.

Definition argmax (t : Tensor) : option nat :=
  match t with
  | [] => None
  | x :: t' => Some (argmax_from 0 x 1 t')
  end.

(** [torch.nn.functional.softplus] on one element, with its defaults
    ([beta = 1], [threshold = 20]): linear above the threshold. *)
Definition softplus (x : R) : R :=
  if decide (20 < x) then x else ln (1 + exp x).

(** [_sum_rightmost(t, n)] of a one-dimensional tensor: the tensor for
    [n = 0], else the sum of its elements, a tensor of no dimension that is
    written as a tensor of one element. *)
Definition sum_rightmost (t : Tensor) (n : nat) : Tensor :=
  match n with
  | O => t
  | S _ => [np.sum t]
  end.

End torch.

(** ** Python values: exceptions, ordered dictionaries, [sum] *)

Module py.

Inductive Exception :=
| AssertionError
| IndexError
| KeyError
| RuntimeError
| StopIteration
| ValueError
| ZeroDivisionError.

(** The outcome of a call: a value, or the exception it raised. *)
Inductive Result (A : Type) :=
| Ok (a : A)
| Raise (e : Exception).
Arguments Ok {A} a.
Arguments Raise {A} e.

#[global] Instance Result_ret : MRet Result := λ A a, Ok a.
#[global] Instance Result_bind : MBind Result := λ A B f m,
  match m with
  | Ok a => f a
  | Raise e => Raise e
  end.
#[global] Instance Result_fmap : FMap Result := λ A B f m,
  match m with
  | Ok a => Ok (f a)
  | Raise e => Raise e
  end.

(** An optional value, with the exception its absence raises. *)
Definition or_raise {A} (e : Exception) (o : option A) : Result A :=
  match o with
  | Some a => Ok a
  | None => Raise e
  end.

(** Every call of the list, in order, up to the first that raises. *)
Fixpoint sequence {A} (ms : list (Result A)) : Result (list A) :=
  match ms with
  | [] => Ok []
  | m :: ms' => a ← m; (a ::.) <$> sequence ms'
  end.

(** [collections.OrderedDict]: the items in insertion order, one per key. *)
Abbreviation OrderedDict V := (list (string * V)).

Fixpoint setitem {V} (d : OrderedDict V) (k : string) (v : V) : OrderedDict V :=
  match d with
  | [] => [(k, v)]
  | (k', v') :: d' =>
      if decide (k' = k) then (k, v) :: d' else (k', v') :: setitem d' k v
  end.

(** [OrderedDict(items)]. *)
Definition from_items {V} (items : list (string * V)) : OrderedDict V :=
  foldl (λ d kv, setitem d kv.1 kv.2) [] items.

Definition values {V} (d : OrderedDict V) : list V := d.*2.

(** The invariant of an ordered dictionary: no key twice. *)
Definition is_dict {V} (d : OrderedDict V) : Prop := NoDup d.*1.

(** The value of [sum(ts)] over tensors: the integer [0] for none, else a
    tensor, [0 + t1 + t2 + ...] from the left. *)
Inductive Number :=
| number (c : R)
| tensor (t : torch.Tensor).

Definition add (acc : Number) (t : torch.Tensor) : Result Number :=
  match acc with
  | number c => Ok (tensor (map (Rplus c) t))
  | tensor a => tensor <$> or_raise RuntimeError (torch.binary Rplus a t)
  end.

Fixpoint sum_from (acc : Number) (ts : list torch.Tensor) : Result Number :=
  match ts with
  | [] => Ok acc
  | t :: ts' => acc' ← add acc t; sum_from acc' ts'
  end.

Definition sum (ts : list torch.Tensor) : Result Number := sum_from (number 0) ts.

(** The outcome of code that looks attributes up on objects of several
    classes, or dispatches on their classes: the exceptions above and the two
    such code raises besides. *)
Inductive Error :=
| AttributeError
| NotImplementedError
| Builtin (e : Exception).

Inductive Outcome (A : Type) :=
| Returned (a : A)
| Raised (e : Error).
Arguments Returned {A} a.
Arguments Raised {A} e.

#[global] Instance Outcome_ret : MRet Outcome := λ A a, Returned a.
#[global] Instance Outcome_bind : MBind Outcome := λ A B f m,
  match m with
  | Returned a => f a
  | Raised e => Raised e
  end.

Definition outcome {A} (m : Result A) : Outcome A :=
  match m with
  | Ok a => Returned a
  | Raise e => Raised (Builtin e)
  end.

End py.

(** ** torch.distributions: the base classes the library extends *)

Module torch_distributions.
Import py.

Module Normal.
Record t := { loc : torch.Tensor; scale : torch.Tensor }.

(** [Normal(loc, scale)]: the arguments are broadcast against each other and
    validated ([scale] positive). *)
Definition __init__ (loc scale : torch.Tensor) : Result t :=
  '(l, s) ← or_raise RuntimeError (torch.broadcast_tensors loc scale);
  if forallb (λ x, bool_decide (0 < x)) s
  then Ok {| loc := l; scale := s |}
  else Raise ValueError.

Definition mean (self : t) : torch.Tensor := loc self.

(** [log_prob(value)]: every value is in the support. *)
Definition log_prob (self : t) (value : torch.Tensor) : option torch.Tensor :=
  let var := map (λ s, s ^ 2) (scale self) in
  let log_scale := map ln (scale self) in
  d ← torch.binary Rminus value (loc self);
  q ← torch.binary Rdiv (map (λ x, - x ^ 2) d) (map (Rmult 2) var);
  r ← torch.binary Rminus q log_scale;
  Some (map (λ x, x - ln (sqrt (2 * PI))) r).
End Normal.

Module Independent.
Record t (D : Type) := { base_dist : D; reinterpreted_batch_ndims : nat }.
Arguments base_dist {D} _.
Arguments reinterpreted_batch_ndims {D} _.

(** [Independent(base, n)] over a base distribution with a one-dimensional
    batch shape: [n] may not exceed the number of batch dimensions. *)
Definition __init__ {D} (base_distribution : D) (n : nat) : Result (t D) :=
  if decide (n ≤ 1)%nat
  then Ok {| base_dist := base_distribution; reinterpreted_batch_ndims := n |}
  else Raise ValueError.
End Independent.

Module Categorical.
(** The logits are stored normalised: [logits - logsumexp(logits)]. *)
Record t := { logits : torch.Tensor }.

Definition logsumexp (x : torch.Tensor) : R := ln (np.sum (map exp x)).

Definition __init__ (logits : torch.Tensor) : t :=
  {| logits := map (λ x, x - logsumexp logits) logits |}.

(** [probs]: the softmax of the logits. *)
Definition probs (self : t) : torch.Tensor :=
  map (λ x, exp x / np.sum (map exp (logits self))) (logits self).

(** [entropy()]: minus the sum of [logits * probs] over the categories. *)
Definition entropy (self : t) : R :=
  - np.sum (zip_with Rmult (logits self) (probs self)).
End Categorical.

(** [torch.distributions.TanhTransform], on one element. *)
Module TanhTransform.
Definition log_abs_det_jacobian (x y : R) : R :=
  2 * (ln 2 - x - torch.softplus (-2 * x)).
End TanhTransform.

(** [torch.distributions.kl]: the divergence registered for two normal
    distributions. *)
Module kl.
Definition _kl_normal_normal (p q : Normal.t) : option torch.Tensor :=
  ratio ← torch.binary Rdiv (Normal.scale p) (Normal.scale q);
  let var_ratio := map (λ x, x ^ 2) ratio in
  d ← torch.binary Rminus (Normal.loc p) (Normal.loc q);
  dq ← torch.binary Rdiv d (Normal.scale q);
  let t1 := map (λ x, x ^ 2) dq in
  s ← torch.binary Rplus var_ratio t1;
  r ← torch.binary Rminus (map (λ x, x - 1) s) (map ln var_ratio);
  Some (map (Rmult 0.5) r).
End kl.

End torch_distributions.

(** ** rolf/networks/distributions.py *)

Module distributions.
Import py.

(** [class Categorical(torch.distributions.Categorical)] *)
Module Categorical.
Definition t := torch_distributions.Categorical.t.

Definition __init__ (logits : torch.Tensor) : t :=
  torch_distributions.Categorical.__init__ logits.

Definition entropy (self : t) : R :=
  torch_distributions.Categorical.entropy self * 10.

(** [self.probs.argmax(dim=-1, keepdim=True)]: the code of a category; none
    where the call raises. *)
Definition mode (self : t) : option nat :=
  torch.argmax (torch_distributions.Categorical.probs self).
End Categorical.

(** [class Identity] and [class TanhIdentity]: [detach()] keeps the value. *)
Module Identity.
Record t := { mean : torch.Tensor }.
Definition mode (self : t) : torch.Tensor := mean self.
Definition sample (self : t) : torch.Tensor := mean self.
Definition rsample (self : t) : torch.Tensor := mean self.
End Identity.

Module TanhIdentity.
Record t := { mean : torch.Tensor }.
Definition mode (self : t) : torch.Tensor := map tanh (mean self).
Definition sample (self : t) : torch.Tensor := map tanh (mean self).
Definition rsample (self : t) : torch.Tensor := map tanh (mean self).
End TanhIdentity.

(** [class TanhTransform(torch.distributions.TanhTransform)] *)
Module TanhTransform.
(** [_inverse], on one element.  [y.float()] makes [y] a float32 tensor, on
    which the bounds [0.99999997] of the clamp are the nearest float32,
    [1 - 2^-24]; the rounding of [y] itself is left out. *)
Definition _inverse (y : R) : R :=
  let y := torch.clamp (- torch.float32_below_one) torch.float32_below_one y in
  torch.atanh y.

Definition log_abs_det_jacobian :=
  torch_distributions.TanhTransform.log_abs_det_jacobian.
End TanhTransform.

(** [class Normal(torch.distributions.Independent)] *)
Module Normal.
Definition t := torch_distributions.Independent.t torch_distributions.Normal.t.

Definition __init__ (mean std : torch.Tensor) (event_dim : nat) : Result t :=
  base ← torch_distributions.Normal.__init__ mean std;
  torch_distributions.Independent.__init__ base event_dim.

Definition mean (self : t) : torch.Tensor :=
  torch_distributions.Normal.mean (torch_distributions.Independent.base_dist self).

Definition mode (self : t) : torch.Tensor := mean self.
End Normal.

(** [class TanhNormal_(TransformedDistribution)]: a normal base distribution
    under the tanh transform. *)
Module TanhNormal_.
Record t := { base_dist : torch_distributions.Normal.t }.

Definition __init__ (loc scale : torch.Tensor) : Result t :=
  base_dist ← torch_distributions.Normal.__init__ loc scale;
  Ok {| base_dist := base_dist |}.

Definition mean (self : t) : torch.Tensor :=
  map tanh (torch_distributions.Normal.mean (base_dist self)).

(** [log_prob(value)]: the value is clamped (at the literal bounds; at the
    float32 they are when the value is a float32 tensor, as [_inverse] does
    next in any case) and handed to [TransformedDistribution.log_prob], which
    validates it (its shape must broadcast against the parameters; a clamped
    value is in the support), takes it back through the transform
    ([transform.inv], that is [_inverse]) and subtracts the logarithm of the
    Jacobian from the log-probability of the base distribution. *)
Definition log_prob (self : t) (value : torch.Tensor) : Result torch.Tensor :=
  let value := map (torch.clamp (-0.99999997) 0.99999997) value in
  _ ← or_raise ValueError
        (torch.broadcast_tensors value
           (torch_distributions.Normal.loc (base_dist self)));
  let y := value in
  let x := map TanhTransform._inverse y in
  let log_prob :=
    zip_with (λ x y, 0 - TanhTransform.log_abs_det_jacobian x y) x y in
  base ← or_raise RuntimeError
           (torch_distributions.Normal.log_prob (base_dist self) x);
  or_raise RuntimeError (torch.binary Rplus log_prob base).
End TanhNormal_.

(** [class TanhNormal(torch.distributions.Independent)] *)
Module TanhNormal.
Definition t := torch_distributions.Independent.t TanhNormal_.t.

Definition __init__ (mean std : torch.Tensor) (event_dim : nat) : Result t :=
  base ← TanhNormal_.__init__ (map (torch.clamp (-9) 9) mean) std;
  torch_distributions.Independent.__init__ base event_dim.

(** [Independent.mean], inherited: the mean of the base distribution. *)
Definition mean (self : t) : torch.Tensor :=
  TanhNormal_.mean (torch_distributions.Independent.base_dist self).

Definition mode (self : t) : torch.Tensor := mean self.
End TanhNormal.

(** [class MixedDistribution(nn.Module)] *)
Module MixedDistribution.
Section methods.
Context {Value : Type}.

(** A sub-distribution, through the methods that are called on it. *)
Record Distribution := {
  dist_mode : Result Value;
  dist_log_prob : Value → Result torch.Tensor;
  dist_entropy : Result torch.Tensor;
}.

Record t := { base_dists : OrderedDict Distribution }.

Definition mode (self : t) : Result (OrderedDict Value) :=
  from_items <$>
    sequence (map (λ kd, v ← dist_mode kd.2; Ok (kd.1, v)) (base_dists self)).

Definition log_prob (self : t) (x : gmap string Value) : Result torch.Tensor :=
  items ← sequence
    (map (λ kd, v ← or_raise KeyError (x !! kd.1);
                lp ← dist_log_prob kd.2 v;
                Ok (kd.1, lp))
         (base_dists self));
  let log_prob := from_items items in
  stacked ← or_raise RuntimeError (torch.stack (values log_prob));
  Ok (torch.sum_last stacked).

Definition entropy (self : t) : Result Number :=
  es ← sequence (map dist_entropy (values (base_dists self)));
  py.sum es.

End methods.
Arguments Distribution : clear implicits.
Arguments t : clear implicits.
End MixedDistribution.

(** [class SampleDist(nn.Module)] *)
Module SampleDist.
Section methods.
(** One draw of the base distribution. *)
Context {Sample : Type}.

(** [base_dist.log_prob] acts on each of the stacked draws.  For a base
    distribution without batch dimensions it gives one number per draw, so
    a tensor of one dimension for the draws; for one with batch dimensions
    (written as one) it gives the log-probabilities of a draw over the
    batch, so a tensor of two dimensions or more. *)
Inductive LogProb :=
| unbatched (log_prob : Sample → R)
| batched (log_prob : Sample → torch.Tensor).

Record t := { base_dist_log_prob : LogProb }.

(** [mode()], given the draws [rsample((self._samples,))] returned: none
    where the call raises.  [log_prob.sum(dims)] sums over the dimensions
    after the first; when there is none, [dims] is the empty tuple, for which
    [sum] reduces over every dimension: the result has no dimension and its
    [argmax] is 0. *)
Definition mode (self : t) (samples : list Sample) : option Sample :=
  match base_dist_log_prob self with
  | unbatched log_prob =>
      let log_prob := map log_prob samples in
      let log_prob := np.sum log_prob in
      let i := 0%nat in
      samples !! i
  | batched log_prob =>
      let log_prob := map log_prob samples in
      let log_prob := map np.sum log_prob in
      i ← torch.argmax log_prob;
      samples !! i
  end.

End methods.
Arguments t : clear implicits.
End SampleDist.

(** ** [normal_kl]

    The function reads [mean], [event_shape] and [base_dist] off whatever
    object it is given, so the objects are modelled with their class: a
    [torch.distributions.Normal], a [TanhNormal_], or an [Independent] over
    one of these, which is what [Normal] and [TanhNormal] of this file are
    (neither overrides an attribute that is read here). *)
Inductive Object :=
| torch_Normal (d : torch_distributions.Normal.t)
| a_TanhNormal_ (d : TanhNormal_.t)
| Independent (base : Object) (reinterpreted_batch_ndims : nat).

Definition of_Normal (d : Normal.t) : Object :=
  Independent (torch_Normal (torch_distributions.Independent.base_dist d))
    (torch_distributions.Independent.reinterpreted_batch_ndims d).

Definition of_TanhNormal (d : TanhNormal.t) : Object :=
  Independent (a_TanhNormal_ (torch_distributions.Independent.base_dist d))
    (torch_distributions.Independent.reinterpreted_batch_ndims d).

(** [o.mean] *)
Fixpoint mean_of (o : Object) : torch.Tensor :=
  match o with
  | torch_Normal d => torch_distributions.Normal.mean d
  | a_TanhNormal_ d => TanhNormal_.mean d
  | Independent base _ => mean_of base
  end.

(** [len(o.event_shape)]; the parameters are one-dimensional tensors, which
    are the batch of a [torch.distributions.Normal]. *)
Fixpoint event_dims (o : Object) : nat :=
  match o with
  | torch_Normal _ | a_TanhNormal_ _ => 0
  | Independent base n => n + event_dims base
  end.

(** [o.base_dist]: an attribute of [Independent] and of a transformed
    distribution, not of [torch.distributions.Normal]. *)
Definition base_dist (o : Object) : Outcome Object :=
  match o with
  | torch_Normal _ => Raised AttributeError
  | a_TanhNormal_ d => Returned (torch_Normal (TanhNormal_.base_dist d))
  | Independent base _ => Returned base
  end.

(** [len(o.batch_shape)] *)
Fixpoint batch_dims (o : Object) : nat :=
  match o with
  | torch_Normal _ | a_TanhNormal_ _ => 1
  | Independent base n => batch_dims base - n
  end.

(** [torch.distributions.Independent(base, n)] *)
Definition new_Independent (base : Object) (n : nat) : Outcome Object :=
  if decide (n ≤ batch_dims base)%nat
  then Returned (Independent base n)
  else Raised (Builtin ValueError).

(** [torch.distributions.kl.kl_divergence(p, q)], for the classes that reach
    it from [normal_kl]: two normal distributions, or two [Independent]
    distributions over them. *)
Fixpoint kl_divergence (p q : Object) : Outcome torch.Tensor :=
  match p, q with
  | torch_Normal dp, torch_Normal dq =>
      outcome (or_raise RuntimeError
                 (torch_distributions.kl._kl_normal_normal dp dq))
  | Independent bp np, Independent bq nq =>
      if decide (np = nq) then
        result ← kl_divergence bp bq;
        Returned (torch.sum_rightmost result np)
      else Raised NotImplementedError
  | _, _ => Raised NotImplementedError
  end.

(** The argument [q]: [None], the string ["tanh"], or a distribution. *)
Inductive Target :=
| q_None
| q_tanh
| q_dist (q : Object).

Definition normal_kl (p : Object) (q : Target) : Outcome torch.Tensor :=
  q ← match q with
      | q_dist q => Returned q
      | _ =>
          let mean := map (λ _, 0) (mean_of p) in
          let std := map (λ _, 1) (mean_of p) in
          match q with
          | q_None =>
              outcome (of_Normal <$> Normal.__init__ mean std (event_dims p))
          | _ =>
              outcome
                (of_TanhNormal <$> TanhNormal.__init__ mean std (event_dims p))
          end
      end;
  pb ← base_dist p;
  pbb ← base_dist pb;
  p_base ← new_Independent pbb (event_dims p);
  qb ← base_dist q;
  qbb ← base_dist qb;
  q_base ← new_Independent qbb (event_dims q);
  kl_divergence p_base q_base.

End distributions.

(** ** algorithms/gail_agent.py *)

Module gail_agent.
Import py.

(** The configuration entries the agent reads. *)
Record Config := {
  gail_no_action : bool;
  gail_vanilla_reward : bool;
  rl_discount_factor : R;
  gae_lambda : R;
  batch_size : Z;
  ppo_epoch : Z;
  rollout_length : Z;
  discriminator_update_freq : Z;
  entropy_loss_coeff : R;
  ppo_clip : R;
  value_loss_coeff : R;
  gail_entropy_loss_coeff : R;
}.

Abbreviation InfoDict := (list (string * np.npfloat)).

(** A rollout, and a batch of transitions drawn from the buffer: the
    dictionary with the keys of the buffer. *)
Record Rollouts (Obs Acs : Type) := {
  ob : Obs;
  ac : Acs;
  ac_before_activation : Acs;
  done : list bool;
  rew : list R;
  ret : list R;
  adv : list np.npfloat;
}.
Arguments ob {Obs Acs} _.
Arguments ac {Obs Acs} _.
Arguments ac_before_activation {Obs Acs} _.
Arguments done {Obs Acs} _.
Arguments rew {Obs Acs} _.
Arguments ret {Obs Acs} _.
Arguments adv {Obs Acs} _.

(** What the agent imports.  A network is the value of its parameters; an
    optimiser carries its learning-rate schedule and the gradients of the
    last backward pass.  An optimisation step ([zero_grad], [backward] of a
    loss, [sync_grads], [step]) takes the loss as a function of the
    parameters it differentiates. *)
Class Collaborators := {
  Obs : Type;
  Acs : Type;
  ObNorm : Type;
  Actor : Type;
  Critic : Type;
  Discriminator : Type;
  Optimizer : Type;
  ReplayBuffer : Type;
  ExpertData : Type;
  DataLoader : Type;
  DataIter : Type;
  Info : Type;
  (* BaseAgent *)
  normalize : ObNorm → Obs → Obs;
  _copy_target_network : Actor → Actor → Actor;
  (* networks: [Actor.act(o, activations=a_z, return_log_prob=True)] gives
     the log-probability and the entropy *)
  act : Actor → Obs → Acs → torch.Tensor * torch.Tensor;
  critic_forward : Critic → Obs → torch.Tensor;
  discriminator_forward : Discriminator → Obs → option Acs → torch.Tensor;
  actor_info : Actor → InfoDict;
  (* optimisers and schedulers *)
  scheduler_step : Optimizer → Optimizer;
  actor_optim_step : Optimizer → (Actor → np.npfloat) → Actor → Actor * Optimizer;
  critic_optim_step : Optimizer → (Critic → R) → Critic → Critic * Optimizer;
  discriminator_optim_step :
    Optimizer → (Discriminator → R) → Discriminator → Discriminator * Optimizer;
  compute_gradient_norm_actor : Actor → Optimizer → R;
  compute_weight_norm_actor : Actor → R;
  compute_gradient_norm_critic : Critic → Optimizer → R;
  compute_weight_norm_critic : Critic → R;
  (* replay buffer *)
  buffer_sample : ReplayBuffer → Z → Result (Rollouts Obs Acs * ReplayBuffer);
  buffer_clear : ReplayBuffer → ReplayBuffer;
  (* expert data *)
  expert_ob : ExpertData → Obs;
  expert_ac : ExpertData → Acs;
  data_iter : DataLoader → DataIter * DataLoader;
  data_next : DataIter → option (ExpertData * DataIter);
  (* diagnostics *)
  Info_new : Info;
  Info_setitem : Info → string → np.npfloat → Info;
  Info_add : Info → InfoDict → Info;
  Info_get_dict : Info → InfoDict;
  mpi_average : InfoDict → InfoDict;
}.

Section agent.
Context `{Collaborators}.

Record GAILAgent := {
  _config : Config;
  _ob_norm : ObNorm;
  _actor : Actor;
  _old_actor : Actor;
  _critic : Critic;
  _discriminator : Discriminator;
  _actor_optim : Optimizer;
  _critic_optim : Optimizer;
  _discriminator_optim : Optimizer;
  _data_loader : DataLoader;
  _data_iter : DataIter;
  _buffer : ReplayBuffer;
}.

(** *** [predict_reward] *)

Definition eps : R := 1e-20.

(** The reward of one discriminator output [s = sigmoid(logit)]. *)
Definition reward_of (vanilla : bool) (s : R) : R :=
  if vanilla then - ln (1 - s + eps) else ln (s + eps) - ln (1 - s + eps).

Definition predict_reward (self : GAILAgent) (ob : Obs) (ac : option Acs)
  : Result R :=
  let ob := normalize (_ob_norm self) ob in
  let ac := if gail_no_action (_config self) then None else ac in
  let ret := discriminator_forward (_discriminator self) ob ac in
  let s := map torch.sigmoid ret in
  let reward := map (reward_of (gail_vanilla_reward (_config self))) s in
  or_raise ValueError (torch.item reward).

(** *** [_compute_gae] *)

Definition bool_to_R (b : bool) : R := if b then 1 else 0.

(** A [for] loop over the indices [ts], with the loop state [s]; it stops at
    the first exception. *)
Fixpoint for_in {S} (ts : list nat) (body : S → nat → Result S) (s : S)
  : Result S :=
  match ts with
  | [] => Ok s
  | t :: ts' => s' ← body s t; for_in ts' body s'
  end.

(** One iteration of the loop of [_compute_gae], on the state
    [(adv, lastgaelam)]. *)
Definition gae_step (cfg : Config) (done : list bool) (rew : list R)
    (vpred : torch.Tensor) (st : np.ndarray * R) (t : nat)
  : Result (np.ndarray * R) :=
  let '(adv, lastgaelam) := st in
  d ← or_raise IndexError (done !! t);
  let nonterminal := 1 - bool_to_R d in
  r ← or_raise IndexError (rew !! t);
  v1 ← or_raise IndexError (vpred !! (t + 1)%nat);
  v0 ← or_raise IndexError (vpred !! t);
  let delta := r + rl_discount_factor cfg * v1 * nonterminal - v0 in
  let a :=
    delta + rl_discount_factor cfg * gae_lambda cfg * nonterminal * lastgaelam in
  Ok (<[t := a]> adv, a).

(** The advantages before they are standardised: the array [adv] after the
    loop [for t in reversed(range(T))]. *)
Definition gae_advantages (cfg : Config) (done : list bool) (rew : list R)
    (vpred : torch.Tensor) : Result np.ndarray :=
  let T := length done in
  fst <$> for_in (reverse (seq 0 T)) (gae_step cfg done rew vpred)
                 (np.empty T, 0).

(** The arrays are arrays of real numbers: the inputs are finite and no
    operation overflows.  The two assertions that [adv] and [ret] are finite
    hold of every such array and leave no trace here; a run in which they
    fail is outside this model. *)
Definition _compute_gae (self : GAILAgent) (rollouts : Rollouts Obs Acs)
  : Result (Rollouts Obs Acs) :=
  let T := length (done rollouts) in
  let ob_ := normalize (_ob_norm self) (ob rollouts) in
  let vpred := critic_forward (_critic self) ob_ in
  if decide (length vpred = T + 1)%nat then
    adv_ ← gae_advantages (_config self) (done rollouts) (rew rollouts) vpred;
    let ret_ := zip_with Rplus adv_ (take (length vpred - 1) vpred) in
    Ok {| ob := ob rollouts;
          ac := ac rollouts;
          ac_before_activation := ac_before_activation rollouts;
          done := done rollouts;
          rew := rew rollouts;
          ret := ret_;
          adv := np.standardize adv_ |}
  else Raise AssertionError.

(** The discriminator output [predict_reward] works with: [ret]. *)
Definition logits_of (self : GAILAgent) (ob : Obs) (ac : option Acs)
  : torch.Tensor :=
  discriminator_forward (_discriminator self) (normalize (_ob_norm self) ob)
    (if gail_no_action (_config self) then None else ac).

(** The value predictions [_compute_gae] works with: [vpred]. *)
Definition vpred_of (self : GAILAgent) (rollouts : Rollouts Obs Acs)
  : torch.Tensor :=
  critic_forward (_critic self) (normalize (_ob_norm self) (ob rollouts)).

(** *** The training round: state and log *)

(** What a round leaves in the log: the sync of the old actor, the start of
    each update, each forward pass through the old actor with the parameters
    it had, and each halt in the debugger. *)
Inductive Event :=
| old_actor_synced
| policy_update_started
| old_actor_read (old_actor : Actor)
| discriminator_update_started
| set_trace_called.

Record World := { self : GAILAgent; events : list Event }.

(** A method of the agent: it reads and mutates the agent, and returns or
    raises; what it mutated before raising stays mutated. *)
Definition M (A : Type) : Type := World → Result A * World.

#[global] Instance M_ret : MRet M := λ A a w, (Ok a, w).
#[global] Instance M_bind : MBind M := λ A B f m w,
  match m w with
  | (Ok a, w') => f a w'
  | (Raise e, w') => (Raise e, w')
  end.

Definition get : M GAILAgent := λ w, (Ok (self w), w).
Definition modify (f : GAILAgent → GAILAgent) : M unit :=
  λ w, (Ok (), {| self := f (self w); events := events w |}).
Definition emit (e : Event) : M unit :=
  λ w, (Ok (), {| self := self w; events := events w ++ [e] |}).
Definition lift {A} (r : Result A) : M A := λ w, (r, w).

(** [for _ in range(n)], with the loop state [a]. *)
Fixpoint for_range {A} (n : nat) (body : A → M A) (a : A) : M A :=
  match n with
  | O => mret a
  | S n' => a' ← body a; for_range n' body a'
  end.

(** [a // b] *)
Definition floordiv (a b : Z) : Result Z :=
  if decide (b = 0%Z) then Raise ZeroDivisionError else Ok (a / b)%Z.

(** Assignments to the attributes of the agent. *)
Definition set_actor (x : Actor) (s : GAILAgent) : GAILAgent :=
  {| _config := _config s; _ob_norm := _ob_norm s; _actor := x;
     _old_actor := _old_actor s; _critic := _critic s;
     _discriminator := _discriminator s; _actor_optim := _actor_optim s;
     _critic_optim := _critic_optim s;
     _discriminator_optim := _discriminator_optim s;
     _data_loader := _data_loader s; _data_iter := _data_iter s;
     _buffer := _buffer s |}.
Definition set_old_actor (x : Actor) (s : GAILAgent) : GAILAgent :=
  {| _config := _config s; _ob_norm := _ob_norm s; _actor := _actor s;
     _old_actor := x; _critic := _critic s;
     _discriminator := _discriminator s; _actor_optim := _actor_optim s;
     _critic_optim := _critic_optim s;
     _discriminator_optim := _discriminator_optim s;
     _data_loader := _data_loader s; _data_iter := _data_iter s;
     _buffer := _buffer s |}.
Definition set_critic (x : Critic) (s : GAILAgent) : GAILAgent :=
  {| _config := _config s; _ob_norm := _ob_norm s; _actor := _actor s;
     _old_actor := _old_actor s; _critic := x;
     _discriminator := _discriminator s; _actor_optim := _actor_optim s;
     _critic_optim := _critic_optim s;
     _discriminator_optim := _discriminator_optim s;
     _data_loader := _data_loader s; _data_iter := _data_iter s;
     _buffer := _buffer s |}.
Definition set_discriminator (x : Discriminator) (s : GAILAgent) : GAILAgent :=
  {| _config := _config s; _ob_norm := _ob_norm s; _actor := _actor s;
     _old_actor := _old_actor s; _critic := _critic s;
     _discriminator := x; _actor_optim := _actor_optim s;
     _critic_optim := _critic_optim s;
     _discriminator_optim := _discriminator_optim s;
     _data_loader := _data_loader s; _data_iter := _data_iter s;
     _buffer := _buffer s |}.
Definition set_optims (a c d : Optimizer) (s : GAILAgent) : GAILAgent :=
  {| _config := _config s; _ob_norm := _ob_norm s; _actor := _actor s;
     _old_actor := _old_actor s; _critic := _critic s;
     _discriminator := _discriminator s; _actor_optim := a;
     _critic_optim := c; _discriminator_optim := d;
     _data_loader := _data_loader s; _data_iter := _data_iter s;
     _buffer := _buffer s |}.
Definition set_data (l : DataLoader) (i : DataIter) (b : ReplayBuffer)
    (s : GAILAgent) : GAILAgent :=
  {| _config := _config s; _ob_norm := _ob_norm s; _actor := _actor s;
     _old_actor := _old_actor s; _critic := _critic s;
     _discriminator := _discriminator s; _actor_optim := _actor_optim s;
     _critic_optim := _critic_optim s;
     _discriminator_optim := _discriminator_optim s;
     _data_loader := l; _data_iter := i; _buffer := b |}.

(** *** [_update_policy] *)

(** [t.reshape(bs, 1)] of a tensor with one element per transition. *)
Definition reshape {A} (bs : nat) (t : list A) : Result (list A) :=
  if decide (length t = bs) then Ok t else Raise RuntimeError.

(** The tensors of one batch have one row per transition; operations between
    them are elementwise. *)
Definition importance_ratio (log_pi old_log_pi : torch.Tensor) : torch.Tensor :=
  map exp (zip_with Rminus log_pi old_log_pi).

(** [-torch.min(surr1, surr2).mean()]: not finite when an advantage is not. *)
Definition surrogate_loss (cfg : Config) (ratio : torch.Tensor)
    (adv : list np.npfloat) : np.npfloat :=
  match np.finite_values adv with
  | Some adv =>
      let surr1 := zip_with Rmult ratio adv in
      let surr2 :=
        zip_with Rmult
          (map (torch.clamp (1.0 - ppo_clip cfg) (1.0 + ppo_clip cfg)) ratio)
          adv in
      np.finite (- torch.mean (zip_with Rmin surr1 surr2))
  | None => np.nonfinite
  end.

Definition entropy_loss_of (cfg : Config) (ent : torch.Tensor) : R :=
  entropy_loss_coeff cfg * torch.mean ent.

(** The loss the actor is updated on, from the output [(log_pi, ent)] of
    its forward pass. *)
Definition actor_loss_of (cfg : Config) (old_log_pi : torch.Tensor)
    (adv : list np.npfloat) (out : torch.Tensor * torch.Tensor) : np.npfloat :=
  np.add (surrogate_loss cfg (importance_ratio out.1 old_log_pi) adv)
         (entropy_loss_of cfg out.2).

Definition value_loss_of (cfg : Config) (ret value_pred : torch.Tensor) : R :=
  value_loss_coeff cfg
  * torch.mean (map (λ x, x ^ 2) (zip_with Rminus ret value_pred)).

Definition _update_policy (transitions : Rollouts Obs Acs) : M InfoDict :=
  emit policy_update_started;;
  s ← get;
  let cfg := _config s in
  let info := Info_new in
  (* pre-process observations *)
  let o := normalize (_ob_norm s) (ob transitions) in
  let bs := length (done transitions) in
  let a_z := ac_before_activation transitions in
  ret_ ← lift (reshape bs (ret transitions));
  adv_ ← lift (reshape bs (adv transitions));
  let '(log_pi, ent) := act (_actor s) o a_z in
  emit (old_actor_read (_old_actor s));;
  let old_log_pi := (act (_old_actor s) o a_z).1 in
  old_min ← lift (or_raise RuntimeError (torch.min old_log_pi));
  (if decide (old_min < -100) then emit set_trace_called else mret ());;
  (* the actor loss *)
  let entropy_loss := entropy_loss_of cfg ent in
  let ratio := importance_ratio log_pi old_log_pi in
  let actor_loss := surrogate_loss cfg ratio adv_ in
  (* the ratio is a tensor of real numbers, all finite: of the two halves of
     the guard only the one on the advantages can hold here; an overflow of
     the exponential, on which the other half holds, is outside this model *)
  (if np.finite_values adv_ is None then emit set_trace_called else mret ());;
  let info := Info_setitem info "entropy_loss" (np.finite entropy_loss) in
  let info := Info_setitem info "actor_loss" actor_loss in
  (* the q loss *)
  let value_pred := critic_forward (_critic s) o in
  let value_loss := value_loss_of cfg ret_ value_pred in
  let info := Info_setitem info "value_target" (np.finite (torch.mean ret_)) in
  let info :=
    Info_setitem info "value_predicted" (np.finite (torch.mean value_pred)) in
  let info := Info_setitem info "value_loss" (np.finite value_loss) in
  (* update the actor *)
  let '(actor', actor_optim') :=
    actor_optim_step (_actor_optim s)
      (λ θ, actor_loss_of cfg old_log_pi adv_ (act θ o a_z)) (_actor s) in
  modify (λ s, set_optims actor_optim' (_critic_optim s)
                 (_discriminator_optim s) (set_actor actor' s));;
  (* update the critic *)
  let '(critic', critic_optim') :=
    critic_optim_step (_critic_optim s)
      (λ φ, value_loss_of cfg ret_ (critic_forward φ o)) (_critic s) in
  modify (λ s, set_optims (_actor_optim s) critic_optim'
                 (_discriminator_optim s) (set_critic critic' s));;
  (* include info from policy *)
  let info := Info_add info (actor_info actor') in
  mret (mpi_average (Info_get_dict info)).

(** *** [_update_discriminator] *)

(** [nn.BCEWithLogitsLoss] on one element, and its mean over a tensor. *)
Definition bce_with_logits (x y : R) : R := (1 - y) * x + ln (1 + exp (- x)).

Definition BCEWithLogitsLoss (logits targets : torch.Tensor) : R :=
  torch.mean (zip_with bce_with_logits logits targets).

(** [torch.distributions.Bernoulli(logits)]: the tensor is passed by
    position, so it is the parameter [probs] of the distribution, and it is
    validated as such: every element must lie in [0, 1]. *)
Definition Bernoulli (probs : torch.Tensor) : Result torch.Tensor :=
  if forallb (λ p, bool_decide (0 <= p <= 1)) probs then Ok probs
  else Raise ValueError.

(** The logits the distribution derives from its probabilities
    ([probs_to_logits]): [log(ps) - log1p(-ps)] of the probability clamped to
    [eps, 1 - eps], with the [eps] of float32. *)
Definition probs_to_logits (p : R) : R :=
  let ps := torch.clamp torch.float32_eps (1 - torch.float32_eps) p in
  ln ps - ln (1 - ps).

(** [.entropy()] on one element: the binary cross-entropy of the derived
    logits with the probabilities. *)
Definition bernoulli_entropy (p : R) : R :=
  bce_with_logits (probs_to_logits p) p.

Record GailLosses := {
  p_loss : R; e_loss : R; entropy : R; entropy_loss : R; gail_loss : R;
}.

Definition gail_losses (cfg : Config) (p_logit e_logit : torch.Tensor)
  : GailLosses :=
  let p_loss := BCEWithLogitsLoss p_logit (replicate (length p_logit) 0) in
  let e_loss := BCEWithLogitsLoss e_logit (replicate (length e_logit) 1) in
  let logits := p_logit ++ e_logit in
  let entropy := torch.mean (map bernoulli_entropy logits) in
  let entropy_loss := - gail_entropy_loss_coeff cfg * entropy in
  {| p_loss := p_loss; e_loss := e_loss; entropy := entropy;
     entropy_loss := entropy_loss;
     gail_loss := p_loss + e_loss + entropy_loss |}.

Definition _update_discriminator (policy_data : Rollouts Obs Acs)
    (expert_data : ExpertData) : M InfoDict :=
  emit discriminator_update_started;;
  s ← get;
  let cfg := _config s in
  let info := Info_new in
  let p_o := normalize (_ob_norm s) (ob policy_data) in
  let p_ac := if gail_no_action cfg then None else Some (ac policy_data) in
  let e_o := normalize (_ob_norm s) (expert_ob expert_data) in
  let e_ac := if gail_no_action cfg then None else Some (expert_ac expert_data) in
  let p_logit := discriminator_forward (_discriminator s) p_o p_ac in
  let e_logit := discriminator_forward (_discriminator s) e_o e_ac in
  let p_output := map torch.sigmoid p_logit in
  let e_output := map torch.sigmoid e_logit in
  lift (Bernoulli (p_logit ++ e_logit));;
  let l := gail_losses cfg p_logit e_logit in
  (* update the discriminator *)
  let '(discriminator', optim') :=
    discriminator_optim_step (_discriminator_optim s)
      (λ d, gail_loss (gail_losses cfg (discriminator_forward d p_o p_ac)
                                       (discriminator_forward d e_o e_ac)))
      (_discriminator s) in
  modify (λ s, set_optims (_actor_optim s) (_critic_optim s) optim'
                 (set_discriminator discriminator' s));;
  let info :=
    Info_setitem info "gail_policy_output" (np.finite (torch.mean p_output)) in
  let info :=
    Info_setitem info "gail_expert_output" (np.finite (torch.mean e_output)) in
  let info := Info_setitem info "gail_entropy" (np.finite (entropy l)) in
  let info := Info_setitem info "gail_policy_loss" (np.finite (p_loss l)) in
  let info := Info_setitem info "gail_expert_loss" (np.finite (e_loss l)) in
  let info :=
    Info_setitem info "gail_entropy_loss" (np.finite (entropy_loss l)) in
  mret (mpi_average (Info_get_dict info)).

(** *** [train] *)

(** [self._buffer.sample(batch_size)] *)
Definition sample_buffer (batch_size : Z) : M (Rollouts Obs Acs) :=
  s ← get;
  '(data, buffer) ← lift (buffer_sample (_buffer s) batch_size);
  modify (λ s, set_data (_data_loader s) (_data_iter s) buffer s);;
  mret data.

(** The next expert batch; the loader is iterated anew when it is
    exhausted. *)
Definition next_expert_data : M ExpertData :=
  s ← get;
  match data_next (_data_iter s) with
  | Some (expert_data, it) =>
      modify (λ s, set_data (_data_loader s) it (_buffer s) s);;
      mret expert_data
  | None =>
      let '(it, loader) := data_iter (_data_loader s) in
      modify (λ s, set_data loader it (_buffer s) s);;
      match data_next it with
      | Some (expert_data, it') =>
          modify (λ s, set_data (_data_loader s) it' (_buffer s) s);;
          mret expert_data
      | None => lift (Raise StopIteration)
      end
  end.

Definition train : M InfoDict :=
  let train_info := Info_new in
  modify (λ s, set_optims (scheduler_step (_actor_optim s))
                 (scheduler_step (_critic_optim s))
                 (scheduler_step (_discriminator_optim s)) s);;
  emit old_actor_synced;;
  modify (λ s, set_old_actor (_copy_target_network (_old_actor s) (_actor s)) s);;
  s ← get;
  let cfg := _config s in
  let batch_size_ := batch_size cfg in
  num_batches ←
    lift (floordiv (ppo_epoch cfg * rollout_length cfg) (batch_size cfg));
  train_info ←
    for_range (Z.to_nat num_batches)
      (λ train_info,
         policy_data ← sample_buffer batch_size_;
         _train_info ← _update_policy policy_data;
         mret (Info_add train_info _train_info))
      train_info;
  num_batches ←
    lift (n ← floordiv (rollout_length cfg) (batch_size cfg);
          floordiv n (discriminator_update_freq cfg));
  train_info ←
    for_range (Z.to_nat num_batches)
      (λ train_info,
         policy_data ← sample_buffer batch_size_;
         expert_data ← next_expert_data;
         _train_info ← _update_discriminator policy_data expert_data;
         mret (Info_add train_info _train_info))
      train_info;
  modify (λ s, set_data (_data_loader s) (_data_iter s)
                 (buffer_clear (_buffer s)) s);;
  s ← get;
  let train_info :=
    Info_add train_info
      [("actor_grad_norm",
        np.finite (compute_gradient_norm_actor (_actor s) (_actor_optim s)));
       ("actor_weight_norm", np.finite (compute_weight_norm_actor (_actor s)));
       ("critic_grad_norm",
        np.finite (compute_gradient_norm_critic (_critic s) (_critic_optim s)));
       ("critic_weight_norm",
        np.finite (compute_weight_norm_critic (_critic s)))] in
  mret (Info_get_dict train_info).

(** *** The old actor within a round *)

(** An event that leaves the snapshot [θ] alone: no sync, and no read of an
    old actor other than [θ]. *)
Definition respects (θ : Actor) (e : Event) : Prop :=
  e ≠ old_actor_synced ∧ ∀ θ', e = old_actor_read θ' → θ' = θ.

(** From a world whose old actor is [θ], a run that keeps it: the old actor
    is still [θ] and the log grew by events that respect [θ]. *)
Definition kept (θ : Actor) (w w' : World) : Prop :=
  _old_actor (self w) = θ →
  _old_actor (self w') = θ ∧
  ∃ evs, events w' = events w ++ evs ∧ Forall (respects θ) evs.

Definition keeps (θ : Actor) {A} (m : M A) : Prop := ∀ w, kept θ w (m w).2.

End agent.
End gail_agent.

(** ** The specification's own definitions

    These follow the words of the specification, not the code; the theorems
    below compare the code with them. *)

Module spec.
Import gail_agent.

(** Section 4.3: the backward recursion
    [nonterminal = 1 - done[t]],
    [delta = reward[t] + γ * V[t+1] * nonterminal - V[t]],
    [advantage[t] = delta + γ * λ * nonterminal * lastgaelam],
    over the transitions from [t] on, where [lastgaelam] is the advantage of
    the next transition ([0] after the last one). *)
Fixpoint advantage (γ lam : R) (done : list bool) (reward V : list R) : list R :=
  match done, reward, V with
  | d :: done', r :: reward', v0 :: ((v1 :: _) as V') =>
      let rest := advantage γ lam done' reward' V' in
      let lastgaelam := hd 0 rest in
      let nonterminal := 1 - bool_to_R d in
      let delta := r + γ * v1 * nonterminal - v0 in
      (delta + γ * lam * nonterminal * lastgaelam) :: rest
  | _, _, _ => []
  end.

(** Section 8, first property, as it is stated: for a rollout with all
    rewards 0, all dones 0 and the constant value prediction [V], after
    [_compute_gae] the advantages of the rollout are all 0 and its returns all
    equal [V]. *)
Definition constant_value_property `{Collaborators} (self : GAILAgent)
    (rollouts : Rollouts Obs Acs) (V : R) : Prop :=
  let T := length (done rollouts) in
  Forall (λ r, r = 0) (rew rollouts) → length (rew rollouts) = T →
  Forall (λ d, d = false) (done rollouts) →
  vpred_of self rollouts = replicate (T + 1) V →
  ∃ rollouts',
    _compute_gae self rollouts = py.Ok rollouts' ∧
    Forall (λ a, a = np.finite 0) (adv rollouts') ∧
    Forall (λ x, x = V) (ret rollouts').

(** Section 8, reward sign, as it is stated: as the logit grows the vanilla
    reward approaches 0 from below, and as the logit decreases the reward
    falls without any bound but the one the [ε] term sets ([ln ε]). *)
Definition vanilla_reward_sign_property : Prop :=
  let reward x := reward_of true (torch.sigmoid x) in
  (∀ δ, 0 < δ → ∃ M, ∀ x, M < x → - δ < reward x < 0) ∧
  (∀ B, ln eps < B → ∃ M, ∀ x, x < M → reward x < B).

(** The sum over the keys, element by element, of tensors of [n] elements. *)
Definition sum_over_keys (n : nat) (ts : list torch.Tensor) : torch.Tensor :=
  foldr (zip_with Rplus) (replicate n 0) ts.

End spec.

(** ** A small agent

    Collaborators simple enough to run the agent by hand: an observation is
    a list of numbers, which the critic and the discriminator return as they
    are; an actor is one number, the log-probability it gives to every
    action; an optimisation step adds one to the actor. *)

Module example.
Import py gail_agent.

Definition toy : Collaborators := {|
  Obs := list R;
  Acs := unit;
  ObNorm := unit;
  Actor := R;
  Critic := unit;
  Discriminator := unit;
  Optimizer := unit;
  ReplayBuffer := list (Rollouts (list R) unit);
  ExpertData := list R;
  DataLoader := unit;
  DataIter := unit;
  Info := InfoDict;
  normalize _ o := o;
  _copy_target_network _ source := source;
  act θ o _ := (map (λ _, θ) o, map (λ _, 0) o);
  critic_forward _ o := o;
  discriminator_forward _ o _ := o;
  actor_info _ := [];
  scheduler_step o := o;
  actor_optim_step o _ θ := (θ + 1, o);
  critic_optim_step o _ c := (c, o);
  discriminator_optim_step o _ d := (d, o);
  compute_gradient_norm_actor _ _ := 0;
  compute_weight_norm_actor _ := 0;
  compute_gradient_norm_critic _ _ := 0;
  compute_weight_norm_critic _ := 0;
  buffer_sample b _ :=
    match b with
    | [] => Raise IndexError
    | data :: _ => Ok (data, b)
    end;
  buffer_clear _ := [];
  expert_ob e := e;
  expert_ac _ := ();
  data_iter l := ((), l);
  data_next _ := Some ([0], ());
  Info_new := [];
  Info_setitem i k v := i ++ [(k, v)];
  Info_add i d := i ++ d;
  Info_get_dict i := i;
  mpi_average d := d;
|}.
#[local] Existing Instance toy.

Definition toy_config (γ lam : R) (vanilla no_action : bool) : Config := {|
  gail_no_action := no_action;
  gail_vanilla_reward := vanilla;
  rl_discount_factor := γ;
  gae_lambda := lam;
  batch_size := 1;
  ppo_epoch := 2;
  rollout_length := 1;
  discriminator_update_freq := 1;
  entropy_loss_coeff := 0;
  ppo_clip := 0.2;
  value_loss_coeff := 1;
  gail_entropy_loss_coeff := 0;
|}.

Definition toy_rollouts (ob : list R) (done : list bool) (rew : list R)
  : Rollouts (list R) unit := {|
  gail_agent.ob := ob; ac := (); ac_before_activation := ();
  gail_agent.done := done; gail_agent.rew := rew; ret := []; adv := [];
|}.

Definition toy_agent (cfg : Config) (actor old_actor : R)
    (buffer : list (Rollouts (list R) unit)) : @GAILAgent toy := {|
  _config := cfg;
  _ob_norm := ();
  _actor := actor;
  _old_actor := old_actor;
  _critic := ();
  _discriminator := ();
  _actor_optim := ();
  _critic_optim := ();
  _discriminator_optim := ();
  _data_loader := ();
  _data_iter := ();
  _buffer := buffer;
|}.

(** A batch of one transition, and a world whose buffer holds it: the actor
    is 5, the old actor 0, the log empty. *)
Definition toy_transitions : Rollouts (list R) unit := {|
  gail_agent.ob := [1]; ac := (); ac_before_activation := ();
  gail_agent.done := [false]; gail_agent.rew := [0];
  ret := [1]; adv := [np.finite 1];
|}.

Definition toy_world : @World toy := {|
  self := toy_agent (toy_config 1 1 true false) 5 0 [toy_transitions];
  events := [];
|}.

(** A mixed distribution over the names [a] and [b], for batches of two
    samples, and a mapping with a value for each name. *)
Definition toy_mixed : distributions.MixedDistribution.t R := {|
  distributions.MixedDistribution.base_dists := [
    ("a", {| distributions.MixedDistribution.dist_mode := Ok 0;
             distributions.MixedDistribution.dist_log_prob v := Ok [v; v + 1];
             distributions.MixedDistribution.dist_entropy := Ok [1; 2] |});
    ("b", {| distributions.MixedDistribution.dist_mode := Ok 1;
             distributions.MixedDistribution.dist_log_prob v := Ok [2 * v; 0];
             distributions.MixedDistribution.dist_entropy := Ok [3; 4] |})
  ]
|}.

Definition toy_values : gmap string R := {[ "a" := 1; "b" := 2 ]}.

End example.

(** ** Reference quantities

    Textbook quantities the code is compared with in the further properties. *)

Module reference.

(** The discounted return of each step of a reward sequence that is cut off
    after its last step, where [bootstrap] stands for the value of what
    follows: [G[t] = r[t] + γ·G[t+1]], with [G[T] = bootstrap]. *)
Fixpoint discounted_returns (γ : R) (rew : list R) (bootstrap : R) : list R :=
  match rew with
  | [] => []
  | r :: rew' =>
      let rest := discounted_returns γ rew' bootstrap in
      (r + γ * hd bootstrap rest) :: rest
  end.

(** The logarithm of the density at [y], inside (-1, 1), of the tanh of a
    normal variable of mean [μ] and standard deviation [σ]: the normal
    log-density at [atanh y], less [ln (1 - y²)] for the change of variable. *)
Definition tanh_normal_log_density (μ σ y : R) : R :=
  - (torch.atanh y - μ) ^ 2 / (2 * σ ^ 2) - ln σ - ln (sqrt (2 * PI))
  - ln (1 - y ^ 2).

(** Index [i] holds a greatest element of [t], and no earlier element of [t]
    is as great. *)
Definition first_greatest (t : list R) (i : nat) : Prop :=
  ∃ m, t !! i = Some m
       ∧ (∀ j x, t !! j = Some x → x <= m)
       ∧ (∀ j x, (j < i)%nat → t !! j = Some x → x < m).

(** The Kullback-Leibler divergence of a normal distribution of mean [μ] and
    standard deviation [σ] from the standard normal distribution. *)
Definition unit_normal_kl (μ σ : R) : R :=
  1 / 2 * (σ ^ 2 + μ ^ 2 - 1 - ln (σ ^ 2)).

End reference.

(** ** Counting the updates in the log of a round *)

Module round_log.
Import gail_agent.
Section counting.
Context `{Collaborators}.

Definition is_policy_update (e : Event) : bool :=
  match e with
  | policy_update_started => true
  | _ => false
  end.

Definition is_discriminator_update (e : Event) : bool :=
  match e with
  | discriminator_update_started => true
  | _ => false
  end.

Fixpoint count (p : Event → bool) (evs : list Event) : nat :=
  match evs with
  | [] => 0
  | e :: evs' => (if p e then 1 else 0) + count p evs'
  end.

(** A run that leaves the configuration alone and adds [kp] policy updates
    and [kd] discriminator updates to the log. *)
Definition grows (kp kd : nat) (w w' : World) : Prop :=
  _config (self w') = _config (self w) ∧
  ∃ evs,
    events w' = events w ++ evs ∧
    count is_policy_update evs = kp ∧
    count is_discriminator_update evs = kd.

End counting.
End round_log.

(** ** algorithms/gail_agent.py: storing episodes and checkpoints *)

Module gail_agent_storage.
Import py gail_agent.

(** What [store_episode], [state_dict] and [load_state_dict] import besides
    the collaborators of the agent: the buffer's [store_episode], and the
    [state_dict] and [load_state_dict] of the networks, the optimisers and the
    observation normaliser.  Moving a network or an optimiser to a device
    ([_network_cuda], [optimizer_cuda]) does not change its value and leaves
    no trace here. *)
Class Storage `{Collaborators} := {
  StateDict : Type;
  buffer_store_episode :
    ReplayBuffer → Rollouts Obs Acs → Result ReplayBuffer;
  actor_state_dict : Actor → StateDict;
  critic_state_dict : Critic → StateDict;
  discriminator_state_dict : Discriminator → StateDict;
  optim_state_dict : Optimizer → StateDict;
  ob_norm_state_dict : ObNorm → StateDict;
  (* [module.load_state_dict(state, strict)] *)
  actor_load_state_dict : Actor → StateDict → bool → Result Actor;
  critic_load_state_dict : Critic → StateDict → Result Critic;
  discriminator_load_state_dict :
    Discriminator → StateDict → Result Discriminator;
  optim_load_state_dict : Optimizer → StateDict → Result Optimizer;
  ob_norm_load_state_dict : ObNorm → StateDict → Result ObNorm;
}.

Section storage.
Context `{Storage}.

Definition set_ob_norm (x : ObNorm) (s : GAILAgent) : GAILAgent :=
  {| _config := _config s; _ob_norm := x; _actor := _actor s;
     _old_actor := _old_actor s; _critic := _critic s;
     _discriminator := _discriminator s; _actor_optim := _actor_optim s;
     _critic_optim := _critic_optim s;
     _discriminator_optim := _discriminator_optim s;
     _data_loader := _data_loader s; _data_iter := _data_iter s;
     _buffer := _buffer s |}.

Definition store_episode (rollouts : Rollouts Obs Acs) : M unit :=
  s ← get;
  rollouts' ← lift (_compute_gae s rollouts);
  buffer ← lift (buffer_store_episode (_buffer s) rollouts');
  modify (λ s, set_data (_data_loader s) (_data_iter s) buffer s).

(** A checkpoint: a dictionary from names to states. *)
Definition state_dict (self : GAILAgent) : gmap string StateDict :=
  list_to_map [
    ("actor_state_dict", actor_state_dict (_actor self));
    ("critic_state_dict", critic_state_dict (_critic self));
    ("discriminator_state_dict",
     discriminator_state_dict (_discriminator self));
    ("actor_optim_state_dict", optim_state_dict (_actor_optim self));
    ("critic_optim_state_dict", optim_state_dict (_critic_optim self));
    ("discriminator_optim_state_dict",
     optim_state_dict (_discriminator_optim self));
    ("ob_norm_state_dict", ob_norm_state_dict (_ob_norm self))
  ].

(** [ckpt[key]] *)
Definition getitem (ckpt : gmap string StateDict) (key : string)
  : M StateDict :=
  lift (or_raise KeyError (ckpt !! key)).

Definition load_state_dict (ckpt : gmap string StateDict) : M unit :=
  if ckpt !! "critic_state_dict" is None then
    (* BC initialization *)
    state ← getitem ckpt "actor_state_dict";
    s ← get;
    actor ← lift (actor_load_state_dict (_actor s) state false);
    modify (set_actor actor);;
    state ← getitem ckpt "ob_norm_state_dict";
    s ← get;
    ob_norm ← lift (ob_norm_load_state_dict (_ob_norm s) state);
    modify (set_ob_norm ob_norm)
  else
    state ← getitem ckpt "actor_state_dict";
    s ← get;
    actor ← lift (actor_load_state_dict (_actor s) state true);
    modify (set_actor actor);;
    state ← getitem ckpt "critic_state_dict";
    s ← get;
    critic ← lift (critic_load_state_dict (_critic s) state);
    modify (set_critic critic);;
    state ← getitem ckpt "discriminator_state_dict";
    s ← get;
    discriminator ←
      lift (discriminator_load_state_dict (_discriminator s) state);
    modify (set_discriminator discriminator);;
    state ← getitem ckpt "ob_norm_state_dict";
    s ← get;
    ob_norm ← lift (ob_norm_load_state_dict (_ob_norm s) state);
    modify (set_ob_norm ob_norm);;
    state ← getitem ckpt "actor_optim_state_dict";
    s ← get;
    optim ← lift (optim_load_state_dict (_actor_optim s) state);
    modify (λ s, set_optims optim (_critic_optim s) (_discriminator_optim s) s);;
    state ← getitem ckpt "critic_optim_state_dict";
    s ← get;
    optim ← lift (optim_load_state_dict (_critic_optim s) state);
    modify (λ s, set_optims (_actor_optim s) optim (_discriminator_optim s) s);;
    state ← getitem ckpt "discriminator_optim_state_dict";
    s ← get;
    optim ← lift (optim_load_state_dict (_discriminator_optim s) state);
    modify (λ s, set_optims (_actor_optim s) (_critic_optim s) optim s).

End storage.
End gail_agent_storage.

(** The storage of the small agent: the state of an actor is its number,
    the other states carry nothing, and the buffer grows at its front. *)
Module example_storage.
Import py gail_agent gail_agent_storage.

Definition toy_storage : @Storage example.toy :=
  @Build_Storage example.toy
    (* StateDict *) R
    (* buffer_store_episode *)
    (λ (b : list (Rollouts (list R) unit)) rollouts, Ok (rollouts :: b))
    (* actor, critic, discriminator, optimiser, normaliser state_dict *)
    (λ a : R, a) (λ _, 0) (λ _, 0) (λ _, 0) (λ _, 0)
    (* actor_load_state_dict *)
    (λ _ state _, Ok state)
    (* critic, discriminator, optimiser, normaliser load_state_dict *)
    (λ _ _, Ok ()) (λ _ _, Ok ()) (λ _ _, Ok ()) (λ _ _, Ok ()).

End example_storage.

(** * Properties *)

(** ** Sums, means and standard deviations *)

Section np_facts.
Implicit Types a : np.ndarray.

Lemma np_sum_app a b : np.sum (a ++ b) = np.sum a + np.sum b.
Proof. induction a as [|x a IH]; simpl; [|rewrite IH]; lra. Qed.

Lemma np_sum_map_scale (c : R) a :
  np.sum (map (λ x, x * c) a) = np.sum a * c.
Proof. induction a as [|x a IH]; simpl; [|rewrite IH]; lra. Qed.

Lemma np_sum_map_shift (m : R) a :
  np.sum (map (λ x, x - m) a) = np.sum a - INR (length a) * m.
Proof.
  induction a as [|x a IH]; [simpl; lra|].
  change (np.sum (map (λ x, x - m) (x :: a)))
    with (x - m + np.sum (map (λ x, x - m) a)).
  change (np.sum (x :: a)) with (x + np.sum a).
  rewrite IH, length_cons, S_INR. lra.
Qed.

Lemma np_sum_nonneg a : Forall (λ x, 0 <= x) a → 0 <= np.sum a.
Proof. induction 1; simpl; lra. Qed.

Lemma np_sum_pos a x :
  Forall (λ x, 0 <= x) a → x ∈ a → 0 < x → 0 < np.sum a.
Proof.
  induction 1 as [|y a Hy Ha IH]; intros Hin Hx.
  - by apply elem_of_nil in Hin.
  - apply elem_of_cons in Hin as [->|Hin]; simpl.
    + pose proof (np_sum_nonneg a Ha). lra.
    + specialize (IH Hin Hx). lra.
Qed.

Lemma INR_length_pos {A} (l : list A) : l ≠ [] → 0 < INR (length l).
Proof. destruct l; [done|]. intros _. rewrite length_cons. apply lt_0_INR. lia. Qed.

End np_facts.

(** ** The advantage estimator *)

Section gae_facts.
Import gail_agent.
Variable cfg : Config.
Abbreviation γ := (rl_discount_factor cfg).
Abbreviation lam := (gae_lambda cfg).

Lemma advantage_cons d done r rew v0 v1 V :
  spec.advantage γ lam (d :: done) (r :: rew) (v0 :: v1 :: V) =
    (r + γ * v1 * (1 - bool_to_R d) - v0
     + γ * lam * (1 - bool_to_R d)
       * hd 0 (spec.advantage γ lam done rew (v1 :: V)))
    :: spec.advantage γ lam done rew (v1 :: V).
Proof. reflexivity. Qed.

Lemma advantage_length done rew V :
  (length done ≤ length rew)%nat → length V = S (length done) →
  length (spec.advantage γ lam done rew V) = length done.
Proof.
  revert rew V. induction done as [|d done IH]; intros rew V Hr HV; [done|].
  destruct rew as [|r rew]; [simpl in Hr; lia|].
  destruct V as [|v0 [|v1 V]]; [done| |].
  { simpl in HV. lia. }
  rewrite advantage_cons. simpl. f_equal. apply IH; simpl in *; lia.
Qed.

(** The recursion, read at one index. *)
Lemma advantage_lookup done rew V t d r v0 v1 :
  done !! t = Some d → rew !! t = Some r →
  V !! t = Some v0 → V !! S t = Some v1 →
  spec.advantage γ lam done rew V !! t =
    Some (r + γ * v1 * (1 - bool_to_R d) - v0
          + γ * lam * (1 - bool_to_R d)
            * default 0 (spec.advantage γ lam done rew V !! S t)).
Proof.
  revert done rew V.
  induction t as [|t IH]; intros done rew V Hd Hr Hv0 Hv1.
  - destruct done as [|d' done], rew as [|r' rew], V as [|v0' [|v1' V]];
      simplify_eq/=.
    do 3 f_equal. by destruct (spec.advantage _ _ _ _ _).
  - destruct done as [|d' done], rew as [|r' rew], V as [|v0' [|v1' V]];
      simplify_eq/=.
    by apply IH.
Qed.

(** The loop of [_compute_gae], once it has filled the indices from [k] on:
    running it over the remaining indices [k-1 .. 0] yields the recursion of
    the specification, whatever the array held below [k]. *)
Lemma gae_loop_from (done : list bool) (rew V : list R) k (pre : list R) :
  (k ≤ length done)%nat → (length done ≤ length rew)%nat →
  length V = S (length done) → length pre = k →
  let rest := spec.advantage γ lam (drop k done) (drop k rew) (drop k V) in
  for_in (reverse (seq 0 k)) (gae_step cfg done rew V) (pre ++ rest, hd 0 rest)
  = py.Ok (spec.advantage γ lam done rew V,
           hd 0 (spec.advantage γ lam done rew V)).
Proof.
  intros Hk Hr HV. revert pre.
  induction k as [|k IH]; intros pre Hpre rest.
  - destruct pre; [|done]. subst rest. by rewrite !drop_0.
  - rewrite seq_S, reverse_app. simpl.
    destruct (lookup_lt_is_Some_2 done k) as [d Hd]; [lia|].
    destruct (lookup_lt_is_Some_2 rew k) as [r Hrk]; [lia|].
    destruct (lookup_lt_is_Some_2 V k) as [v0 Hv0]; [lia|].
    destruct (lookup_lt_is_Some_2 V (S k)) as [v1 Hv1]; [lia|].
    replace (k + 1)%nat with (S k) by lia.
    rewrite Hd, Hrk, Hv1, Hv0. simpl.
    destruct (decide (pre = [])) as [->|Hne]; [done|].
    destruct (exists_last Hne) as (pre' & x & ->).
    rewrite length_app in Hpre. simpl in Hpre.
    rewrite <- (assoc_L (++)). simpl.
    rewrite insert_app_r_alt by lia.
    replace (k - length pre')%nat with 0%nat by lia. simpl.
    pose proof (IH ltac:(lia) pre' ltac:(lia)) as IH'. cbv zeta in IH'.
    subst rest.
    rewrite (drop_S done d k Hd), (drop_S rew r k Hrk), (drop_S V v0 k Hv0),
      (drop_S V v1 (S k) Hv1), advantage_cons in IH'.
    rewrite (drop_S V v1 (S k) Hv1). exact IH'.
Qed.

Lemma gae_advantages_spec (done : list bool) (rew V : list R) :
  (length done ≤ length rew)%nat → length V = S (length done) →
  gae_advantages cfg done rew V = py.Ok (spec.advantage γ lam done rew V).
Proof.
  intros Hr HV. unfold gae_advantages.
  pose proof (gae_loop_from done rew V (length done) (np.empty (length done)))
    as Hloop.
  cbv zeta in Hloop.
  rewrite drop_all in Hloop. simpl in Hloop. rewrite app_nil_r in Hloop.
  rewrite Hloop; [done|lia|done|done|].
  unfold np.empty. by rewrite length_replicate.
Qed.

End gae_facts.

(** ** Standardisation *)

Section standardize_facts.
Implicit Types a : np.ndarray.

Lemma np_mean_times_length a : a ≠ [] → INR (length a) * np.mean a = np.sum a.
Proof.
  intros Ha. pose proof (INR_length_pos a Ha). unfold np.mean. field. lra.
Qed.

Lemma variance_nonneg a m :
  0 <= np.sum (map (λ x, (x - m) * (x - m)) a).
Proof.
  apply np_sum_nonneg, Forall_forall. intros y Hy.
  apply list_elem_of_In, in_map_iff in Hy as (x & <- & _). apply Rle_0_sqr.
Qed.

Lemma variance_pos a : np.not_constant a →
  0 < np.mean (map (λ x, (x - np.mean a) * (x - np.mean a)) a).
Proof.
  intros (x & y & Hx & Hy & Hxy).
  assert (a ≠ []) as Ha by (intros ->; by apply elem_of_nil in Hx).
  pose proof (INR_length_pos a Ha) as Hn.
  set (m := np.mean a).
  assert (∃ z, z ∈ a ∧ z ≠ m) as (z & Hz & Hzm).
  { destruct (decide (x = m)) as [->|]; [exists y|exists x]; done. }
  unfold np.mean at 1. rewrite length_map.
  apply Rdiv_lt_0_compat; [|done].
  apply (np_sum_pos _ ((z - m) * (z - m))).
  - apply Forall_forall. intros w Hw.
    apply list_elem_of_In, in_map_iff in Hw as (v & <- & _). apply Rle_0_sqr.
  - apply list_elem_of_In, in_map_iff. exists z. split; [done|].
    by apply list_elem_of_In.
  - apply Rsqr_pos_lt. lra.
Qed.

Lemma std_pos a : np.not_constant a → 0 < np.std a.
Proof. intros Ha. apply sqrt_lt_R0, variance_pos, Ha. Qed.

(** A non-constant array is standardised without leaving the finite
    numbers, to mean 0 and standard deviation 1. *)
Lemma standardize_not_constant a :
  np.not_constant a →
  let a' := map (λ x, (x - np.mean a) / np.std a) a in
  np.standardize a = map np.finite a' ∧ np.mean a' = 0 ∧ np.std a' = 1.
Proof.
  intros Hnc a'.
  pose proof (std_pos a Hnc) as Hs.
  pose proof (variance_pos a Hnc) as Hv.
  assert (a ≠ []) as Ha.
  { destruct Hnc as (x & _ & Hx & _). intros ->. by apply elem_of_nil in Hx. }
  pose proof (INR_length_pos a Ha) as Hn.
  pose proof (np_mean_times_length a Ha) as Hm.
  assert (np.mean a' = 0) as Hmean.
  { unfold np.mean at 1, a'. rewrite length_map.
    rewrite <- (map_map (λ x, x - np.mean a) (λ y, y / np.std a)).
    unfold Rdiv at 2. rewrite np_sum_map_scale, np_sum_map_shift, Hm. field.
    split; lra. }
  split; [|split; [done|]].
  - unfold np.standardize. destruct a as [|x a]; [done|].
    unfold a'. rewrite map_map. apply map_ext. intros y.
    unfold np.divide. destruct (decide (np.std (x :: a) = 0)); [lra|done].
  - unfold np.std at 1. rewrite Hmean.
    replace (np.mean (map (λ x, (x - 0) * (x - 0)) a')) with 1;
      [apply sqrt_1|].
    unfold np.mean at 1. rewrite length_map. unfold a'.
    rewrite length_map, map_map.
    rewrite (map_ext _ (λ x, (x - np.mean a) * (x - np.mean a)
                             * / (np.std a * np.std a))).
    2:{ intros y. field. lra. }
    rewrite <- (map_map (λ x, (x - np.mean a) * (x - np.mean a))
                  (λ y, y * / (np.std a * np.std a))).
    rewrite np_sum_map_scale.
    unfold np.std. rewrite sqrt_sqrt by lra.
    unfold np.mean at 3 4. rewrite length_map.
    unfold np.mean at 1 in Hv. rewrite length_map in Hv.
    set (v := np.sum _) in *.
    assert (0 < v).
    { apply Rmult_lt_reg_r with (/ INR (length a));
        [by apply Rinv_0_lt_compat|]. rewrite Rmult_0_l. exact Hv. }
    field. split; lra.
Qed.

(** A constant array has standard deviation 0: standardising it divides by
    zero, and no element of the result is finite. *)
Lemma standardize_constant (c : R) (n : nat) :
  np.standardize (replicate n c) = replicate n np.nonfinite.
Proof.
  destruct n as [|n]; [done|].
  assert (∀ k, np.sum (replicate k c) = INR k * c) as Hsum.
  { induction k as [|k IH]; [simpl; lra|].
    rewrite S_INR. simpl. rewrite IH. lra. }
  assert (np.mean (replicate (S n) c) = c) as Hmean.
  { unfold np.mean. rewrite Hsum, length_replicate.
    pose proof (pos_INR n). rewrite S_INR. field. lra. }
  assert (np.std (replicate (S n) c) = 0) as Hstd.
  { unfold np.std. rewrite Hmean.
    rewrite <- (sqrt_0). f_equal. unfold np.mean. rewrite length_map.
    replace (np.sum _) with 0; [unfold Rdiv; lra|].
    generalize (S n). intros k. induction k as [|k IH]; [done|].
    simpl. rewrite <- IH. lra. }
  unfold np.standardize.
  change (match replicate (S n) c with [] => [] | _ => ?x end) with x.
  rewrite Hstd.
  transitivity (map (λ _ : R, np.nonfinite) (replicate (S n) c)).
  { apply map_ext. intros x. unfold np.divide. by destruct (decide (0 = 0)). }
  generalize (S n). intros k.
  induction k as [|k IH]; [done|]. simpl. by rewrite IH.
Qed.

End standardize_facts.

(** ** Claims about [_compute_gae] *)

Section compute_gae_claims.
Import py gail_agent.
Context `{Collaborators}.
Implicit Types (self : GAILAgent) (rollouts : Rollouts Obs Acs).

(** On a well-shaped rollout [_compute_gae] returns: the advantages are those
    of the specification's recursion, standardised, and the returns are the
    advantages plus the value predictions. *)
Lemma compute_gae_returns self rollouts :
  let cfg := _config self in
  let V := vpred_of self rollouts in
  let adv_ :=
    spec.advantage (rl_discount_factor cfg) (gae_lambda cfg)
      (done rollouts) (rew rollouts) V in
  (length (done rollouts) ≤ length (rew rollouts))%nat →
  length V = (length (done rollouts) + 1)%nat →
  gae_advantages cfg (done rollouts) (rew rollouts) V = Ok adv_ ∧
  ∃ rollouts',
    _compute_gae self rollouts = Ok rollouts' ∧
    adv rollouts' = np.standardize adv_ ∧
    ret rollouts' = zip_with Rplus adv_ (take (length (done rollouts)) V).
Proof.
  intros cfg V adv_ Hr HV.
  assert (gae_advantages cfg (done rollouts) (rew rollouts) V = Ok adv_) as Hg.
  { apply gae_advantages_spec; [done|lia]. }
  split; [done|].
  unfold _compute_gae. fold (vpred_of self rollouts). fold V. fold cfg.
  destruct (decide (length V = (length (done rollouts) + 1)%nat)); [|done].
  rewrite Hg. simpl. eexists. split; [done|]. simpl. split; [done|].
  do 2 f_equal. lia.
Qed.

(** C1.  For a rollout of length [T] with [T+1] value predictions [V],
    [_compute_gae] returns, and the advantage it computes before the
    normalisation follows the backward recursion: with
    [nonterminal = 1 - done[t]] and
    [delta = reward[t] + γ·V[t+1]·nonterminal - V[t]], the advantage at [t] is
    [delta + γ·λ·nonterminal·lastgaelam], where [lastgaelam] is the advantage
    at [t+1] (0 at the last step), and the return at [t] is the advantage plus
    [V[t]].  For [T = 1], reward [r], [done = 0] and [V = [v0, v1]] the
    advantage is [r + γ·v1 - v0]. *)
Theorem compute_gae_backward_recursion self rollouts :
  let cfg := _config self in
  let γ := rl_discount_factor cfg in
  let lam := gae_lambda cfg in
  let V := vpred_of self rollouts in
  let T := length (done rollouts) in
  (T ≤ length (rew rollouts))%nat →
  length V = (T + 1)%nat →
  ∃ adv_ rollouts',
    gae_advantages cfg (done rollouts) (rew rollouts) V = Ok adv_ ∧
    _compute_gae self rollouts = Ok rollouts' ∧
    adv rollouts' = np.standardize adv_ ∧
    length adv_ = T ∧ length (ret rollouts') = T ∧
    (∀ t d r v0 v1,
       done rollouts !! t = Some d → rew rollouts !! t = Some r →
       V !! t = Some v0 → V !! (t + 1)%nat = Some v1 →
       let nonterminal := 1 - bool_to_R d in
       let delta := r + γ * v1 * nonterminal - v0 in
       let lastgaelam := default 0 (adv_ !! (t + 1)%nat) in
       let advantage := delta + γ * lam * nonterminal * lastgaelam in
       adv_ !! t = Some advantage ∧
       ret rollouts' !! t = Some (advantage + v0)) ∧
    (∀ r v0 v1,
       done rollouts = [false] → rew rollouts = [r] → V = [v0; v1] →
       adv_ = [r + γ * v1 - v0]).
Proof.
  intros cfg γ lam V T Hr HV.
  destruct (compute_gae_returns self rollouts Hr HV)
    as (Hadv & rollouts' & Hrun & Hstd & Hret).
  fold cfg V γ lam in Hadv, Hstd, Hret.
  set (adv_ := spec.advantage γ lam (done rollouts) (rew rollouts) V) in *.
  assert (length adv_ = T) as Hlen.
  { apply advantage_length; [done|]. fold V T. lia. }
  exists adv_, rollouts'. do 4 (split; [done|]). split; [|split].
  - rewrite Hret, length_zip_with, length_take. fold T. lia.
  - intros t d r v0 v1 Hd Hrw Hv0 Hv1.
    replace (t + 1)%nat with (S t) in * by lia.
    pose proof (advantage_lookup cfg _ _ _ t d r v0 v1 Hd Hrw Hv0 Hv1) as Ha.
    fold γ lam adv_ in Ha. cbv zeta. split; [exact Ha|].
    rewrite Hret, lookup_zip_with, Ha. simpl.
    rewrite lookup_take_lt by (apply lookup_lt_Some in Hd; done).
    by rewrite Hv0.
  - intros r v0 v1 Hd Hrw HVeq. subst adv_. rewrite Hd, Hrw, HVeq.
    simpl. f_equal. lra.
Qed.

(** With rewards 0, no terminal step and the constant value prediction [V],
    every [delta] is [(γ - 1)·V]. *)
Lemma advantage_constant_value (cfg : Config) (V : R) done rew :
  (rl_discount_factor cfg - 1) * V = 0 →
  Forall (λ d, d = false) done → Forall (λ r, r = 0) rew →
  (length done ≤ length rew)%nat →
  spec.advantage (rl_discount_factor cfg) (gae_lambda cfg) done rew
    (replicate (length done + 1) V) = replicate (length done) 0.
Proof.
  intros HV Hd. revert rew.
  induction Hd as [|d done -> _ IH]; intros rew Hr Hlen; [done|].
  destruct Hr as [|r rew -> Hr]; [simpl in Hlen; lia|].
  simpl in Hlen. specialize (IH rew Hr ltac:(lia)).
  change (replicate (length (false :: done) + 1) V)
    with (V :: replicate (length done + 1) V).
  replace (length done + 1)%nat with (S (length done)) in * by lia.
  change (replicate (S (length done)) V)
    with (V :: replicate (length done) V) in *.
  rewrite advantage_cons, IH. simpl. f_equal.
  destruct done; simpl; nra.
Qed.

(** The run of [_compute_gae] on a rollout with rewards 0, no terminal step
    and a constant value prediction, when [(γ - 1)·V = 0]. *)
Lemma compute_gae_constant_value_run self rollouts (V : R) :
  let cfg := _config self in
  let T := length (done rollouts) in
  Forall (λ r, r = 0) (rew rollouts) → (T ≤ length (rew rollouts))%nat →
  Forall (λ d, d = false) (done rollouts) →
  vpred_of self rollouts = replicate (T + 1) V →
  rl_discount_factor cfg = 1 ∨ V = 0 →
  gae_advantages cfg (done rollouts) (rew rollouts) (vpred_of self rollouts)
    = Ok (replicate T 0) ∧
  ∃ rollouts',
    _compute_gae self rollouts = Ok rollouts' ∧
    adv rollouts' = np.standardize (replicate T 0) ∧
    ret rollouts' = replicate T V.
Proof.
  intros cfg T Hrew Hlen Hdone HV Hγ.
  destruct (compute_gae_returns self rollouts Hlen)
    as (Hadv & rollouts' & Hrun & Hstd & Hret).
  { by rewrite HV, length_replicate. }
  fold cfg T in Hadv, Hstd, Hret.
  rewrite HV in Hadv, Hstd, Hret |- *.
  assert (spec.advantage (rl_discount_factor cfg) (gae_lambda cfg)
            (done rollouts) (rew rollouts) (replicate (T + 1) V)
          = replicate T 0) as Hzero.
  { apply advantage_constant_value; [|done|done|done].
    destruct Hγ as [->| ->]; lra. }
  rewrite Hzero in Hadv, Hstd, Hret.
  split; [done|]. exists rollouts'. do 2 (split; [done|]).
  rewrite Hret, take_replicate.
  replace (T `min` (T + 1))%nat with T by lia.
  rewrite zip_with_replicate. f_equal. lra.
Qed.

(** C2, as amended.  For a rollout with all rewards 0, all dones 0 and the
    constant value prediction [V], and with a discount factor of 1 (or
    [V = 0]), [_compute_gae] returns, the advantages it computes before the
    normalisation are all 0 and the returns it stores all equal [V]. *)
Theorem compute_gae_constant_value self rollouts (V : R) :
  let cfg := _config self in
  let T := length (done rollouts) in
  Forall (λ r, r = 0) (rew rollouts) → (T ≤ length (rew rollouts))%nat →
  Forall (λ d, d = false) (done rollouts) →
  vpred_of self rollouts = replicate (T + 1) V →
  rl_discount_factor cfg = 1 ∨ V = 0 →
  ∃ adv_ rollouts',
    gae_advantages cfg (done rollouts) (rew rollouts) (vpred_of self rollouts)
      = Ok adv_ ∧
    _compute_gae self rollouts = Ok rollouts' ∧
    adv rollouts' = np.standardize adv_ ∧
    Forall (λ a, a = 0) adv_ ∧ length adv_ = T ∧
    Forall (λ x, x = V) (ret rollouts') ∧ length (ret rollouts') = T.
Proof.
  intros cfg T Hrew Hlen Hdone HV Hγ.
  destruct (compute_gae_constant_value_run self rollouts V Hrew Hlen Hdone HV Hγ)
    as (Hadv & rollouts' & Hrun & Hstd & Hret).
  exists (replicate T 0), rollouts'. do 3 (split; [done|]).
  rewrite Hret, !length_replicate.
  repeat split; try done; by apply Forall_replicate.
Qed.

(** The advantages stored in that case are not 0: the standard deviation of
    the constant array is 0, and the division leaves the finite numbers. *)
Remark compute_gae_constant_value_stored self rollouts (V : R) :
  let cfg := _config self in
  let T := length (done rollouts) in
  Forall (λ r, r = 0) (rew rollouts) → (T ≤ length (rew rollouts))%nat →
  Forall (λ d, d = false) (done rollouts) →
  vpred_of self rollouts = replicate (T + 1) V →
  rl_discount_factor cfg = 1 ∨ V = 0 →
  ∃ rollouts',
    _compute_gae self rollouts = Ok rollouts' ∧
    adv rollouts' = replicate T np.nonfinite.
Proof.
  intros cfg T Hrew Hlen Hdone HV Hγ.
  destruct (compute_gae_constant_value_run self rollouts V Hrew Hlen Hdone HV Hγ)
    as (_ & rollouts' & Hrun & Hstd & _).
  exists rollouts'. split; [done|]. by rewrite Hstd, standardize_constant.
Qed.

(** C5.  When the advantages computed before the normalisation are not all
    equal (they are finite: real numbers), [_compute_gae] stores finite
    advantages of mean 0 and standard deviation 1, and stores as returns the
    unnormalised advantages plus the value predictions. *)
Theorem compute_gae_standardizes self rollouts (adv_ : np.ndarray) :
  let cfg := _config self in
  let V := vpred_of self rollouts in
  let T := length (done rollouts) in
  (T ≤ length (rew rollouts))%nat →
  length V = (T + 1)%nat →
  gae_advantages cfg (done rollouts) (rew rollouts) V = Ok adv_ →
  np.not_constant adv_ →
  ∃ rollouts' (a' : np.ndarray),
    _compute_gae self rollouts = Ok rollouts' ∧
    adv rollouts' = map np.finite a' ∧
    length a' = T ∧
    np.mean a' = 0 ∧
    np.std a' = 1 ∧
    ret rollouts' = zip_with Rplus adv_ (take T V).
Proof.
  intros cfg V T Hlen HV Hadv Hnc.
  destruct (compute_gae_returns self rollouts Hlen HV)
    as (Hadv' & rollouts' & Hrun & Hstd & Hret).
  fold cfg V T in Hadv', Hstd, Hret.
  rewrite Hadv in Hadv'. injection Hadv' as Heq.
  rewrite <- Heq in Hstd, Hret.
  destruct (standardize_not_constant adv_ Hnc) as (Hfin & Hmean & Hsd).
  exists rollouts', (map (λ x, (x - np.mean adv_) / np.std adv_) adv_).
  split; [done|]. split; [by rewrite Hstd|].
  split; [|done].
  rewrite length_map, Heq.
  pose proof (advantage_length cfg (done rollouts) (rew rollouts) V Hlen) as Hl.
  fold T in Hl. apply Hl. lia.
Qed.

End compute_gae_claims.

(** The theorem at a rollout of two transitions, the second one terminal:
    rewards 1 and 2, value predictions 3, 4, 5, with [γ = 1/2], [λ = 1]. *)
Lemma compute_gae_backward_recursion_witness :
  ∃ adv_,
    gail_agent.gae_advantages (example.toy_config (1/2) 1 true false)
      [false; true] [1; 2] [3; 4; 5] = py.Ok adv_ ∧
    adv_ !! 1%nat = Some (2 + 1/2 * 5 * (1 - 1) - 4 + 1/2 * 1 * (1 - 1) * 0) ∧
    adv_ !! 0%nat = Some (1 + 1/2 * 4 * (1 - 0) - 3
                          + 1/2 * 1 * (1 - 0) * default 0 (adv_ !! 1%nat)).
Proof.
  destruct (@compute_gae_backward_recursion example.toy
              (example.toy_agent (example.toy_config (1/2) 1 true false) 0 0 [])
              (example.toy_rollouts [3; 4; 5] [false; true] [1; 2]))
    as (adv_ & r' & Hadv & _ & _ & Hlen & _ & Hrec & _).
  { simpl. lia. }
  { reflexivity. }
  exists adv_. split; [exact Hadv|]. split.
  - destruct (Hrec 1%nat true 2 4 5) as [-> _]; try reflexivity.
    rewrite lookup_ge_None_2 by (simpl in Hlen; simpl; lia). reflexivity.
  - destruct (Hrec 0%nat false 1 3 4) as [-> _]; reflexivity.
Defined.

(** The amended property at a rollout of two transitions with rewards 0 and
    the value prediction 3 throughout, with [γ = 1]. *)
Lemma compute_gae_constant_value_witness :
  ∃ rollouts',
    gail_agent._compute_gae
      (example.toy_agent (example.toy_config 1 (1/2) true false) 0 0 [])
      (example.toy_rollouts [3; 3; 3] [false; false] [0; 0]) = py.Ok rollouts' ∧
    Forall (λ x, x = 3) (gail_agent.ret rollouts').
Proof.
  destruct (@compute_gae_constant_value example.toy
              (example.toy_agent (example.toy_config 1 (1/2) true false) 0 0 [])
              (example.toy_rollouts [3; 3; 3] [false; false] [0; 0]) 3)
    as (adv_ & r' & _ & Hrun & _ & _ & _ & Hret & _).
  { repeat constructor. }
  { simpl. lia. }
  { repeat constructor. }
  { reflexivity. }
  { left. reflexivity. }
  exists r'. split; [exact Hrun|exact Hret].
Defined.

(** C2, as stated, fails: with [γ = 1/2], [λ = 1], two transitions with
    rewards 0, no terminal step and the value prediction 1 throughout, the
    return stored for the last transition is [1/2], not 1. *)
Lemma compute_gae_constant_value_counterexample :
  ¬ spec.constant_value_property
      (example.toy_agent (example.toy_config (1/2) 1 true false) 0 0 [])
      (example.toy_rollouts [1; 1; 1] [false; false] [0; 0]) 1.
Proof.
  intros Hclaim.
  destruct Hclaim as (r' & Hrun & _ & Hret).
  { repeat constructor. }
  { reflexivity. }
  { repeat constructor. }
  { reflexivity. }
  destruct (@compute_gae_returns example.toy
              (example.toy_agent (example.toy_config (1/2) 1 true false) 0 0 [])
              (example.toy_rollouts [1; 1; 1] [false; false] [0; 0]))
    as (_ & r'' & Hrun' & _ & Hret').
  { simpl. lia. }
  { reflexivity. }
  rewrite Hrun in Hrun'. injection Hrun' as <-.
  rewrite Hret' in Hret. simpl in Hret.
  apply Forall_cons in Hret as [_ Hret].
  apply Forall_cons in Hret as [Hret _].
  lra.
Qed.

(** The theorem at a rollout of two transitions with rewards 0, no terminal
    step and the value prediction 1 throughout, with [γ = 1/2], [λ = 1]: the
    advantages before the normalisation are [-3/4] and [-1/2]. *)
Lemma compute_gae_standardizes_witness :
  ∃ rollouts' (a' : np.ndarray),
    gail_agent._compute_gae
      (example.toy_agent (example.toy_config (1/2) 1 true false) 0 0 [])
      (example.toy_rollouts [1; 1; 1] [false; false] [0; 0]) = py.Ok rollouts' ∧
    gail_agent.adv rollouts' = map np.finite a' ∧
    np.mean a' = 0 ∧ np.std a' = 1.
Proof.
  destruct (@compute_gae_standardizes example.toy
              (example.toy_agent (example.toy_config (1/2) 1 true false) 0 0 [])
              (example.toy_rollouts [1; 1; 1] [false; false] [0; 0])
              [0 + 1/2 * 1 * (1 - 0) - 1
               + 1/2 * 1 * (1 - 0)
                 * (0 + 1/2 * 1 * (1 - 0) - 1 + 1/2 * 1 * (1 - 0) * 0);
               0 + 1/2 * 1 * (1 - 0) - 1 + 1/2 * 1 * (1 - 0) * 0])
    as (r' & a' & Hrun & Hadv & _ & Hmean & Hstd & _).
  { simpl. lia. }
  { reflexivity. }
  { reflexivity. }
  { eexists _, _. split; [apply list_elem_of_here|].
    split; [apply list_elem_of_further, list_elem_of_here|]. lra. }
  exists r', a'. repeat split; assumption.
Defined.

(** ** The sigmoid and the vanilla reward *)

Section sigmoid_facts.
Import gail_agent.

Lemma sigmoid_spec x : torch.sigmoid x * (1 + exp (- x)) = 1.
Proof. unfold torch.sigmoid. pose proof (exp_pos (- x)). field. lra. Qed.

Lemma sigmoid_bounds x : 0 < torch.sigmoid x < 1.
Proof.
  pose proof (exp_pos (- x)) as He. pose proof (sigmoid_spec x) as Hs.
  assert (0 < torch.sigmoid x).
  { unfold torch.sigmoid. apply Rdiv_lt_0_compat; lra. }
  split; [done|]. nra.
Qed.

Lemma sigmoid_increasing x y : x < y → torch.sigmoid x < torch.sigmoid y.
Proof.
  intros Hxy. unfold torch.sigmoid.
  pose proof (exp_pos (- x)). pose proof (exp_pos (- y)).
  assert (exp (- y) < exp (- x)) by (apply exp_increasing; lra).
  apply Rmult_lt_compat_l; [lra|].
  apply Rinv_lt_contravar; [|lra]. apply Rmult_lt_0_compat; lra.
Qed.

(** Far to the right the sigmoid is within [exp (-x)] of 1. *)
Lemma sigmoid_near_one x : 1 - torch.sigmoid x < exp (- x).
Proof.
  pose proof (exp_pos (- x)). pose proof (sigmoid_spec x).
  pose proof (sigmoid_bounds x). nra.
Qed.

(** Far to the left the sigmoid is below [exp x]. *)
Lemma sigmoid_near_zero x : torch.sigmoid x < exp x.
Proof.
  pose proof (exp_pos (- x)). pose proof (exp_pos x).
  pose proof (sigmoid_spec x) as Hs. pose proof (sigmoid_bounds x).
  assert (exp x * exp (- x) = 1) as He.
  { rewrite <- exp_plus, Rplus_opp_r. apply exp_0. }
  apply Rmult_lt_reg_r with (1 + exp (- x)); [lra|]. rewrite Hs. nra.
Qed.

Lemma eps_bounds : 0 < eps < 1 / 2.
Proof. unfold eps. lra. Qed.

(** The vanilla reward of a logit. *)
Lemma vanilla_reward_unfold x :
  reward_of true (torch.sigmoid x) = - ln (1 - torch.sigmoid x + eps).
Proof. reflexivity. Qed.

Lemma vanilla_reward_bounds x :
  - ln (1 + eps) < reward_of true (torch.sigmoid x) < - ln eps.
Proof.
  rewrite vanilla_reward_unfold.
  pose proof (sigmoid_bounds x). pose proof eps_bounds.
  assert (ln eps < ln (1 - torch.sigmoid x + eps))
    by (apply ln_increasing; lra).
  assert (ln (1 - torch.sigmoid x + eps) < ln (1 + eps))
    by (apply ln_increasing; lra).
  lra.
Qed.

(** An expert-like logit is rewarded: from logit 0 on the reward is
    positive. *)
Lemma vanilla_reward_positive x :
  0 <= x → 0 < reward_of true (torch.sigmoid x).
Proof.
  intros Hx. rewrite vanilla_reward_unfold.
  pose proof (sigmoid_bounds x). pose proof eps_bounds.
  pose proof (sigmoid_spec x) as Hs.
  assert (exp (- x) <= 1).
  { rewrite <- exp_0. destruct Hx as [Hx| <-].
    - left. apply exp_increasing. lra.
    - rewrite Ropp_0. lra. }
  assert (1 / 2 <= torch.sigmoid x) by nra.
  assert (ln (1 - torch.sigmoid x + eps) < ln 1)
    by (apply ln_increasing; lra).
  rewrite ln_1 in *. lra.
Qed.

Lemma vanilla_reward_limit_right δ :
  0 < δ → ∃ M, ∀ x, M < x → - ln eps - δ < reward_of true (torch.sigmoid x).
Proof.
  intros Hδ. pose proof eps_bounds as Heps.
  assert (1 < exp δ) by (rewrite <- exp_0; by apply exp_increasing).
  set (c := eps * (exp δ - 1)).
  assert (0 < c) by (apply Rmult_lt_0_compat; lra).
  exists (- ln c). intros x Hx. rewrite vanilla_reward_unfold.
  pose proof (sigmoid_bounds x). pose proof (sigmoid_near_one x).
  assert (exp (- x) < c).
  { rewrite <- (exp_ln c) by done. apply exp_increasing. lra. }
  assert (ln (1 - torch.sigmoid x + eps) < ln (eps * exp δ)).
  { apply ln_increasing; [lra|]. unfold c in *. lra. }
  rewrite ln_mult, ln_exp in * by (lra || apply exp_pos). lra.
Qed.

Lemma vanilla_reward_limit_left δ :
  0 < δ →
  ∃ M, ∀ x, x < M → reward_of true (torch.sigmoid x) < - ln (1 + eps) + δ.
Proof.
  intros Hδ. pose proof eps_bounds as Heps.
  assert (exp (- δ) < 1) by (rewrite <- exp_0; apply exp_increasing; lra).
  pose proof (exp_pos (- δ)).
  set (c := (1 + eps) * (1 - exp (- δ))).
  assert (0 < c) by (apply Rmult_lt_0_compat; lra).
  exists (ln c). intros x Hx. rewrite vanilla_reward_unfold.
  pose proof (sigmoid_bounds x). pose proof (sigmoid_near_zero x).
  assert (exp x < c).
  { rewrite <- (exp_ln c) by done. by apply exp_increasing. }
  assert (ln ((1 + eps) * exp (- δ)) < ln (1 - torch.sigmoid x + eps)).
  { apply ln_increasing; [apply Rmult_lt_0_compat; lra|]. unfold c in *. lra. }
  rewrite ln_mult, ln_exp in * by (lra || apply exp_pos). lra.
Qed.

End sigmoid_facts.

(** ** Claims about [predict_reward] *)

Section predict_reward_claims.
Import py gail_agent.
Context `{Collaborators}.
Implicit Types (self : GAILAgent) (ob : Obs) (ac : option Acs).

(** The discriminator output [predict_reward] works with. *)
Lemma predict_reward_unfold self ob ac :
  predict_reward self ob ac =
    or_raise ValueError
      (torch.item
         (map (λ logit, reward_of (gail_vanilla_reward (_config self))
                          (torch.sigmoid logit))
              (logits_of self ob ac))).
Proof. unfold predict_reward, logits_of. by rewrite map_map. Qed.

Lemma predict_reward_of_logit self ob ac (logit : R) :
  logits_of self ob ac = [logit] →
  predict_reward self ob ac =
    Ok (reward_of (gail_vanilla_reward (_config self)) (torch.sigmoid logit)).
Proof. intros Hl. by rewrite predict_reward_unfold, Hl. Qed.

(** C4.  [predict_reward] computes [s = sigmoid(logit)] from the logit the
    discriminator gives for the normalised observation (and the action), and
    returns [-log(1 - s + ε)] under the vanilla-reward flag and
    [log(s + ε) - log(1 - s + ε)] otherwise, with [ε = 1e-20]; under
    state-only discrimination the action is ignored. *)
Theorem predict_reward_formula self ob ac (logit : R) :
  let cfg := _config self in
  discriminator_forward (_discriminator self) (normalize (_ob_norm self) ob)
    (if gail_no_action cfg then None else ac) = [logit] →
  let s := 1 / (1 + exp (- logit)) in
  let ε := 1e-20 in
  predict_reward self ob ac =
    Ok (if gail_vanilla_reward cfg
        then - ln (1 - s + ε)
        else ln (s + ε) - ln (1 - s + ε)) ∧
  (gail_no_action cfg = true →
   ∀ ac', predict_reward self ob ac' = predict_reward self ob ac).
Proof.
  intros cfg Hl s ε. split.
  - rewrite (predict_reward_of_logit self ob ac logit Hl). done.
  - intros Hno ac'. unfold predict_reward. fold cfg. by rewrite Hno.
Qed.

(** C10.  [predict_reward] returns a single number exactly when the
    discriminator output for the given observation and action has exactly one
    element; on an output of more than one element (a batch of transitions)
    it raises and returns no vector of rewards. *)
Theorem predict_reward_single_element self ob ac :
  let out := logits_of self ob ac in
  (∀ r, predict_reward self ob ac = Ok r → length out = 1%nat) ∧
  (length out = 1%nat → ∃ r, predict_reward self ob ac = Ok r) ∧
  ((1 < length out)%nat → predict_reward self ob ac = Raise ValueError).
Proof.
  intros out. rewrite predict_reward_unfold. fold out.
  destruct out as [|x [|y out]]; simpl; repeat split;
    intros; try done; try lia; by eexists.
Qed.

(** C3, as amended.  Under the vanilla reward configuration the value
    [predict_reward] returns for a logit lies between [-ln (1 + ε)] and
    [-ln ε = 20·ln 10]: as the logit tends to +∞ (expert-like) it tends to
    [-ln ε], which is positive and is a bound that only the [ε] term sets; as
    the logit tends to -∞ (policy-like) it tends to [-ln (1 + ε)], just below
    0, and not to -∞. *)
Theorem vanilla_reward_limits :
  let reward x := reward_of true (torch.sigmoid x) in
  (∀ self ob ac x,
     gail_vanilla_reward (_config self) = true →
     logits_of self ob ac = [x] →
     predict_reward self ob ac = Ok (reward x)) ∧
  (∀ x, - ln (1 + eps) <= reward x <= - ln eps) ∧
  (∀ δ, 0 < δ → ∃ M, ∀ x, M < x → - ln eps - δ < reward x) ∧
  (∀ δ, 0 < δ → ∃ M, ∀ x, x < M → reward x < - ln (1 + eps) + δ) ∧
  - ln eps = 20 * ln 10 ∧
  - ln (1 + eps) < 0 < - ln eps.
Proof.
  intros reward. split; [|split; [|split; [|split; [|split]]]].
  - intros self ob ac x Hv Hl.
    rewrite (predict_reward_of_logit self ob ac x Hl), Hv. done.
  - intros x. pose proof (vanilla_reward_bounds x). unfold reward. lra.
  - apply vanilla_reward_limit_right.
  - apply vanilla_reward_limit_left.
  - replace eps with (/ 10 ^ 20) by (unfold eps; lra).
    rewrite ln_Rinv, ln_pow by lra. simpl. lra.
  - pose proof eps_bounds.
    assert (ln 1 < ln (1 + eps)) by (apply ln_increasing; lra).
    pose proof (vanilla_reward_positive 0 ltac:(lra)).
    pose proof (vanilla_reward_bounds 0).
    rewrite ln_1 in *. lra.
Qed.

End predict_reward_claims.

(** C4 at the small agent, whose discriminator returns the observation:
    the logit 0, with the vanilla reward. *)
Lemma predict_reward_formula_witness :
  gail_agent.predict_reward
    (example.toy_agent (example.toy_config 1 1 true false) 0 0 []) [0] None
  = py.Ok (- ln (1 - 1 / (1 + exp (- 0)) + 1e-20)).
Proof.
  destruct (@predict_reward_formula example.toy
              (example.toy_agent (example.toy_config 1 1 true false) 0 0 [])
              [0] None 0) as [Hvalue _].
  { reflexivity. }
  exact Hvalue.
Defined.

(** C10 at the small agent: an observation that makes the discriminator
    return two logits. *)
Lemma predict_reward_single_element_witness :
  gail_agent.predict_reward
    (example.toy_agent (example.toy_config 1 1 true false) 0 0 []) [0; 1] None
  = py.Raise py.ValueError.
Proof.
  destruct (@predict_reward_single_element example.toy
              (example.toy_agent (example.toy_config 1 1 true false) 0 0 [])
              [0; 1] None) as (_ & _ & Hbatch).
  apply Hbatch. simpl. lia.
Defined.

(** C3, as stated, fails: from logit 0 on the vanilla reward is positive, so
    it does not approach 0 from below to the right; and it never falls to
    [-ln (1 + ε)], so it is bounded below to the left. *)
Lemma vanilla_reward_sign_counterexample : ¬ spec.vanilla_reward_sign_property.
Proof.
  intros [Hright _].
  destruct (Hright 1 ltac:(lra)) as [M HM].
  destruct (HM (Rmax M 0 + 1)) as [_ Hneg].
  { pose proof (Rmax_l M 0). lra. }
  pose proof (vanilla_reward_positive (Rmax M 0 + 1)) as Hpos.
  pose proof (Rmax_r M 0). lra.
Qed.

(** The other half of the stated property fails too. *)
Lemma vanilla_reward_bounded_below :
  ¬ (∀ B, ln gail_agent.eps < B →
       ∃ M, ∀ x, x < M →
         gail_agent.reward_of true (torch.sigmoid x) < B).
Proof.
  intros Hleft. pose proof eps_bounds.
  destruct (Hleft (- ln (1 + gail_agent.eps))) as [M HM].
  { assert (ln (gail_agent.eps * (1 + gail_agent.eps)) < ln 1)
      by (apply ln_increasing; nra).
    rewrite ln_mult, ln_1 in * by lra. lra. }
  specialize (HM (M - 1) ltac:(lra)).
  pose proof (vanilla_reward_bounds (M - 1)). lra.
Qed.

(** ** Ordered dictionaries, stacking and sums of tensors *)

Section tensor_facts.
Import py.
Implicit Types (t a b c : torch.Tensor) (ts : list torch.Tensor).

Lemma map_fmap {A B} (f : A → B) (l : list A) : map f l = f <$> l.
Proof. reflexivity. Qed.

Lemma setitem_fresh {V} (d : OrderedDict V) k v :
  k ∉ d.*1 → setitem d k v = d ++ [(k, v)].
Proof.
  induction d as [|[k' v'] d IH]; intros Hk; [done|].
  simpl in *. apply not_elem_of_cons in Hk as [Hne Hk].
  destruct (decide (k' = k)); [done|]. by rewrite IH.
Qed.

Lemma from_items_app {V} (d items : OrderedDict V) :
  NoDup (d ++ items).*1 →
  foldl (λ d kv, setitem d kv.1 kv.2) d items = d ++ items.
Proof.
  revert d. induction items as [|[k v] items IH]; intros d Hnd.
  - by rewrite app_nil_r.
  - simpl. rewrite setitem_fresh.
    + rewrite IH; rewrite <- (assoc_L (++)); done.
    + rewrite fmap_app in Hnd. apply NoDup_app in Hnd as (_ & Hnd & _).
      intros Hk. apply (Hnd k Hk). simpl. left.
Qed.

(** Building an ordered dictionary from items with distinct keys keeps
    them as they are. *)
Lemma from_items_is_dict {V} (items : OrderedDict V) :
  is_dict items → from_items items = items.
Proof. intros Hnd. unfold from_items. by rewrite from_items_app. Qed.

Lemma sum_over_keys_length n ts :
  Forall (λ t, length t = n) ts → length (spec.sum_over_keys n ts) = n.
Proof.
  induction 1 as [|t ts Ht _ IH]; simpl.
  - by rewrite length_replicate.
  - rewrite length_zip_with, IH, Ht. lia.
Qed.

(** Element [i] of the sum over the keys is the sum of the elements [i]. *)
Lemma sum_over_keys_lookup n ts i :
  Forall (λ t, length t = n) ts → (i < n)%nat →
  spec.sum_over_keys n ts !! i = Some (np.sum (omap (λ t, t !! i) ts)).
Proof.
  intros Hts Hi. induction Hts as [|t ts Ht _ IH]; simpl.
  - by rewrite lookup_replicate_2.
  - rewrite lookup_zip_with, IH.
    destruct (lookup_lt_is_Some_2 t i) as [x Hx]; [lia|].
    by rewrite Hx.
Qed.

(** Stacking the tensors and summing each row is the sum over the keys. *)
Lemma stack_sum_last n ts :
  ts ≠ [] → Forall (λ t, length t = n) ts →
  torch.sum_last <$> torch.stack ts = Some (spec.sum_over_keys n ts).
Proof.
  intros Hne Hts. destruct ts as [|t ts]; [done|]. clear Hne.
  unfold torch.stack.
  assert (length t = n) as Ht by (by apply Forall_cons in Hts as [? _]).
  assert (forallb (λ t', bool_decide (length t' = length t)) (t :: ts) = true)
    as ->.
  { apply forallb_forall. intros t' Hin. apply bool_decide_eq_true.
    rewrite Forall_forall in Hts. rewrite Ht. apply Hts.
    by apply list_elem_of_In. }
  cbn [fmap option_fmap option_map]. f_equal.
  unfold torch.sum_last. rewrite map_fmap.
  apply list_eq. intros i.
  rewrite list_lookup_fmap, list_lookup_imap.
  destruct (decide (i < n)%nat) as [Hi|Hi].
  - rewrite (sum_over_keys_lookup n (t :: ts) i Hts Hi).
    destruct (lookup_lt_is_Some_2 t i) as [x Hx]; [lia|].
    by rewrite Hx.
  - rewrite (lookup_ge_None_2 t) by lia.
    rewrite lookup_ge_None_2; [done|].
    rewrite (sum_over_keys_length n (t :: ts) Hts). lia.
Qed.

Lemma zip_with_Rplus_assoc a b c :
  zip_with Rplus (zip_with Rplus a b) c = zip_with Rplus a (zip_with Rplus b c).
Proof.
  revert b c. induction a as [|x a IH]; intros [|y b] [|z c]; simpl; try done.
  rewrite IH. f_equal. lra.
Qed.

Lemma zip_with_Rplus_zeros a n :
  length a = n → zip_with Rplus a (replicate n 0) = a.
Proof.
  intros <-. induction a as [|x a IH]; simpl; [done|].
  rewrite IH. f_equal. lra.
Qed.

Lemma binary_same_length (f : R → R → R) a b :
  length a = length b → torch.binary f a b = Some (zip_with f a b).
Proof.
  intros Hl. unfold torch.binary, torch.broadcast_tensors.
  by destruct (decide (length a = length b)).
Qed.

(** Python's [sum], from a tensor on: the tensor plus the sum over the
    keys. *)
Lemma sum_from_tensor n a ts :
  length a = n → Forall (λ t, length t = n) ts →
  sum_from (tensor a) ts =
    Ok (tensor (zip_with Rplus a (spec.sum_over_keys n ts))).
Proof.
  intros Ha Hts. revert a Ha.
  induction Hts as [|t ts Ht _ IH]; intros a Ha; simpl.
  - by rewrite zip_with_Rplus_zeros.
  - rewrite binary_same_length by lia. simpl.
    rewrite IH by (rewrite length_zip_with; lia).
    by rewrite zip_with_Rplus_assoc.
Qed.

Lemma py_sum_tensors n ts :
  ts ≠ [] → Forall (λ t, length t = n) ts →
  py.sum ts = Ok (tensor (spec.sum_over_keys n ts)).
Proof.
  intros Hne Hts. destruct ts as [|t ts]; [done|].
  apply Forall_cons in Hts as [Ht Hts].
  unfold py.sum. simpl.
  replace (map (Rplus 0) t) with t.
  - by apply sum_from_tensor.
  - clear. induction t as [|x t IH]; simpl; [done|].
    rewrite <- IH. f_equal. lra.
Qed.

Lemma sequence_Forall2 {A B} (f : A → Result B) (l : list A) (k : list B) :
  Forall2 (λ x y, f x = Ok y) l k → sequence (map f l) = Ok k.
Proof.
  induction 1 as [|x y l k Hxy _ IH]; simpl; [done|]. by rewrite Hxy, IH.
Qed.

End tensor_facts.

(** ** Claims about the distributions *)

Section distribution_claims.
Import py distributions.

(** C7.  For every mean and positive standard deviation (of the shape of the
    mean) a [TanhNormal] is constructed and its [mode()] is the tanh of the
    mean clamped to [-9, 9]; it is the tanh of the mean when the mean lies in
    [-9, 9]. *)
Theorem TanhNormal_mode_clamped (mean std : torch.Tensor) (event_dim : nat) :
  length std = length mean →
  Forall (λ s, 0 < s) std →
  (event_dim ≤ 1)%nat →
  ∃ d,
    TanhNormal.__init__ mean std event_dim = Ok d ∧
    TanhNormal.mode d = map (λ m, tanh (Rmin (Rmax m (-9)) 9)) mean ∧
    (Forall (λ m, -9 <= m <= 9) mean → TanhNormal.mode d = map tanh mean).
Proof.
  intros Hlen Hpos Hdim.
  unfold TanhNormal.__init__, TanhNormal_.__init__,
    torch_distributions.Normal.__init__, torch.broadcast_tensors.
  rewrite length_map.
  destruct (decide (length mean = length std)) as [_|]; [|done]. simpl.
  assert (forallb (λ x, bool_decide (0 < x)) std = true) as ->.
  { apply forallb_forall. intros s Hs. apply bool_decide_eq_true.
    rewrite Forall_forall in Hpos. by apply Hpos, list_elem_of_In. }
  simpl. unfold torch_distributions.Independent.__init__.
  destruct (decide (event_dim ≤ 1)%nat); [|done].
  eexists. split; [done|].
  unfold TanhNormal.mode, TanhNormal.mean, TanhNormal_.mean. simpl.
  rewrite map_map. split; [done|].
  intros Hrange. apply map_ext_in. intros m Hm.
  rewrite Forall_forall in Hrange.
  destruct (Hrange m) as [Hlo Hhi]; [by apply list_elem_of_In|].
  unfold torch.clamp. by rewrite Rmax_left, Rmin_left.
Qed.

(** C8.  The entropy of a [Categorical] is 10 times the entropy of the base
    categorical distribution with the same logits. *)
Theorem Categorical_entropy_scaled (logits : torch.Tensor) :
  Categorical.entropy (Categorical.__init__ logits) =
    10 * torch_distributions.Categorical.entropy
           (torch_distributions.Categorical.__init__ logits).
Proof. unfold Categorical.entropy, Categorical.__init__. lra. Qed.

Context {Value : Type}.
Implicit Types (self : MixedDistribution.t Value) (x : gmap string Value).

(** The log-probabilities of the values under the sub-distributions. *)
Lemma log_prob_items self x (lps : list torch.Tensor) :
  Forall2 (λ kd lp, ∃ v, x !! kd.1 = Some v
                         ∧ MixedDistribution.dist_log_prob kd.2 v = Ok lp)
    (MixedDistribution.base_dists self) lps →
  ∃ items,
    sequence
      (map (λ kd, v ← or_raise KeyError (x !! kd.1);
                  lp ← MixedDistribution.dist_log_prob kd.2 v;
                  Ok (kd.1, lp))
           (MixedDistribution.base_dists self)) = Ok items ∧
    items.*1 = (MixedDistribution.base_dists self).*1 ∧ items.*2 = lps.
Proof.
  induction 1 as [|kd lp dists lps (v & Hv & Hlp) _ (items & Hi & Hk & Hl)].
  - by exists [].
  - exists ((kd.1, lp) :: items). split; [|split].
    + simpl. rewrite Hv. simpl. rewrite Hlp. simpl. by rewrite Hi.
    + rewrite !fmap_cons. by rewrite Hk.
    + rewrite fmap_cons. by rewrite Hl.
Qed.

(** C9.  For a [MixedDistribution] over named sub-distributions (at least
    one, under distinct names) and a mapping with a value for each name,
    [log_prob] is the sum over the names of the sub-distributions'
    log-probabilities of the values, and [entropy()] the sum over the names of
    their entropies, the tensors that are summed having one shape. *)
Theorem MixedDistribution_sums self x (n : nat) :
  is_dict (MixedDistribution.base_dists self) →
  MixedDistribution.base_dists self ≠ [] →
  (∀ lps,
     Forall2 (λ kd lp, ∃ v, x !! kd.1 = Some v
                            ∧ MixedDistribution.dist_log_prob kd.2 v = Ok lp)
       (MixedDistribution.base_dists self) lps →
     Forall (λ t, length t = n) lps →
     MixedDistribution.log_prob self x = Ok (spec.sum_over_keys n lps)) ∧
  (∀ es,
     Forall2 (λ kd e, MixedDistribution.dist_entropy kd.2 = Ok e)
       (MixedDistribution.base_dists self) es →
     Forall (λ t, length t = n) es →
     MixedDistribution.entropy self = Ok (tensor (spec.sum_over_keys n es))).
Proof.
  intros Hdict Hne. split.
  - intros lps Hlps Hshape.
    destruct (log_prob_items self x lps Hlps) as (items & Hseq & Hkeys & Hvals).
    unfold MixedDistribution.log_prob. rewrite Hseq. simpl.
    rewrite from_items_is_dict by (unfold is_dict; by rewrite Hkeys).
    unfold values. rewrite Hvals.
    assert (lps ≠ []) as Hne'.
    { intros ->. apply Forall2_nil_inv_r in Hlps. done. }
    pose proof (stack_sum_last n lps Hne' Hshape) as Hstack.
    destruct (torch.stack lps) as [rows|]; [|done].
    simpl in *. by injection Hstack as ->.
  - intros es Hes Hshape.
    unfold MixedDistribution.entropy, values.
    rewrite map_fmap, <- list_fmap_compose, <- map_fmap.
    rewrite (sequence_Forall2 _ _ es).
    + simpl. apply py_sum_tensors; [|done].
      intros ->. apply Forall2_nil_inv_r in Hes. done.
    + eapply Forall2_impl; [exact Hes|]. done.
Qed.

End distribution_claims.

(** C7 at a mean with entries inside and outside [-9, 9]. *)
Lemma TanhNormal_mode_clamped_witness :
  ∃ d,
    distributions.TanhNormal.__init__ [0; 10; -20] [1; 2; 1/2] 0 = py.Ok d ∧
    distributions.TanhNormal.mode d =
      [tanh (Rmin (Rmax 0 (-9)) 9); tanh (Rmin (Rmax 10 (-9)) 9);
       tanh (Rmin (Rmax (-20) (-9)) 9)].
Proof.
  destruct (TanhNormal_mode_clamped [0; 10; -20] [1; 2; 1/2] 0)
    as (d & Hinit & Hmode & _).
  { reflexivity. }
  { repeat constructor; lra. }
  { lia. }
  exists d. split; [exact Hinit|exact Hmode].
Defined.

(** C9 at the mixed distribution over [a] and [b]. *)
Lemma MixedDistribution_sums_witness :
  distributions.MixedDistribution.log_prob example.toy_mixed
    example.toy_values
  = py.Ok (spec.sum_over_keys 2 [[1; 1 + 1]; [2 * 2; 0]]) ∧
  distributions.MixedDistribution.entropy example.toy_mixed
  = py.Ok (py.tensor (spec.sum_over_keys 2 [[1; 2]; [3; 4]])).
Proof.
  destruct (MixedDistribution_sums example.toy_mixed example.toy_values 2)
    as [Hlp Hent].
  { unfold py.is_dict. simpl. apply (bool_decide_unpack _). reflexivity. }
  { discriminate. }
  split.
  - apply Hlp.
    + constructor; [exists 1; split; reflexivity|].
      constructor; [exists 2; split; reflexivity|]. constructor.
    + repeat constructor.
  - apply Hent.
    + repeat constructor.
    + repeat constructor.
Defined.

(** ** The training round *)

Section train_facts.
Import py gail_agent.
Context `{Collaborators}.
Implicit Types (w : World) (θ : Actor) (e : Event).

Lemma kept_refl θ w : kept θ w w.
Proof. intros Hθ. split; [done|]. exists []. by rewrite app_nil_r. Qed.

Lemma kept_trans θ w1 w2 w3 : kept θ w1 w2 → kept θ w2 w3 → kept θ w1 w3.
Proof.
  intros H12 H23 Hθ.
  destruct (H12 Hθ) as (Hθ2 & evs & Hev & Hok).
  destruct (H23 Hθ2) as (Hθ3 & evs' & Hev' & Hok').
  split; [done|]. exists (evs ++ evs').
  rewrite Hev', Hev, (assoc_L (++)). split; [done|]. by apply Forall_app.
Qed.

Lemma keeps_ret θ {A} (a : A) : keeps θ (mret a).
Proof. intros w. apply kept_refl. Qed.

Lemma keeps_lift θ {A} (r : Result A) : keeps θ (lift r).
Proof. intros w. apply kept_refl. Qed.

Lemma keeps_get θ : keeps θ get.
Proof. intros w. apply kept_refl. Qed.

Lemma keeps_emit θ e : respects θ e → keeps θ (emit e).
Proof.
  intros He w Hθ. split; [done|]. exists [e]. split; [done|].
  by apply Forall_singleton.
Qed.

Lemma keeps_modify θ (f : GAILAgent → GAILAgent) :
  (∀ s, _old_actor (f s) = _old_actor s) → keeps θ (modify f).
Proof.
  intros Hf w Hθ. simpl. rewrite Hf. split; [done|].
  exists []. by rewrite app_nil_r.
Qed.

Lemma keeps_bind θ {A B} (m : M A) (f : A → M B) :
  keeps θ m → (∀ a, keeps θ (f a)) → keeps θ (m ≫= f).
Proof.
  intros Hm Hf w. unfold mbind, M_bind. specialize (Hm w).
  destruct (m w) as [[a|e] w1]; [|done].
  eapply kept_trans; [exact Hm|]. apply Hf.
Qed.

(** After reading the agent, what was read has the old actor [θ]. *)
Lemma keeps_get_bind θ {B} (f : GAILAgent → M B) :
  (∀ s, _old_actor s = θ → keeps θ (f s)) → keeps θ (get ≫= f).
Proof.
  intros Hf w Hθ. unfold mbind, M_bind, get. simpl. by apply Hf.
Qed.

Lemma keeps_for_range θ {A} (n : nat) (body : A → M A) (a : A) :
  (∀ a, keeps θ (body a)) → keeps θ (for_range n body a).
Proof.
  intros Hbody. revert a. induction n as [|n IH]; intros a; simpl.
  - apply keeps_ret.
  - apply keeps_bind; [apply Hbody|apply IH].
Qed.

(** Running a sequence: the first method returns, the rest carries on. *)
Lemma bind_run {A B} (m : M A) (f : A → M B) w a w1 :
  m w = (Ok a, w1) → (m ≫= f) w = f a w1.
Proof. intros Hm. unfold mbind, M_bind. by rewrite Hm. Qed.

Lemma respects_started θ : respects θ policy_update_started.
Proof. split; [done|]. intros θ' [=]. Qed.

Lemma respects_discriminator θ : respects θ discriminator_update_started.
Proof. split; [done|]. intros θ' [=]. Qed.

Lemma respects_set_trace θ : respects θ set_trace_called.
Proof. split; [done|]. intros θ' [=]. Qed.

Lemma respects_read θ s : _old_actor s = θ → respects θ (old_actor_read (_old_actor s)).
Proof. intros Hs. split; [done|]. intros θ' [= <-]. done. Qed.

(** One step through a method, for the goals [keeps θ m]. *)
Ltac keeps_step :=
  cbv zeta;
  lazymatch goal with
  | |- keeps _ (mret _) => apply keeps_ret
  | |- keeps _ (lift _) => apply keeps_lift
  | |- keeps _ (emit policy_update_started) =>
      apply keeps_emit, respects_started
  | |- keeps _ (emit discriminator_update_started) =>
      apply keeps_emit, respects_discriminator
  | |- keeps _ (emit set_trace_called) => apply keeps_emit, respects_set_trace
  | |- keeps _ (emit (old_actor_read _)) =>
      apply keeps_emit, respects_read; assumption
  | |- keeps _ (modify _) => apply keeps_modify; intros; reflexivity
  | |- keeps _ (get ≫= _) => apply keeps_get_bind; intros ? ?
  | |- keeps _ (for_range _ _ _) => apply keeps_for_range; intros ?
  | |- keeps _ (_ ≫= _) => apply keeps_bind; [|intros ?]
  | |- keeps _ (match ?x with _ => _ end) => destruct x
  end.

(** A policy update keeps the old actor, and reads no other. *)
Lemma update_policy_keeps θ transitions : keeps θ (_update_policy transitions).
Proof. unfold _update_policy. repeat keeps_step. Qed.

Lemma update_discriminator_keeps θ policy_data expert_data :
  keeps θ (_update_discriminator policy_data expert_data).
Proof. unfold _update_discriminator. repeat keeps_step. Qed.

Lemma sample_buffer_keeps θ n : keeps θ (sample_buffer n).
Proof. unfold sample_buffer. repeat keeps_step. Qed.

Lemma next_expert_data_keeps θ : keeps θ next_expert_data.
Proof. unfold next_expert_data. repeat keeps_step. Qed.

(** The round, from the sync of the old actor on. *)
Lemma train_from_sync w :
  let θ := _copy_target_network (_old_actor (self w)) (_actor (self w)) in
  ∃ (rest : M InfoDict) s,
    keeps θ rest ∧ _old_actor s = θ ∧
    train w = rest {| self := s; events := events w ++ [old_actor_synced] |}.
Proof.
  intros θ. unfold train.
  lazymatch goal with
  | |- context [modify ?f1 ≫= (λ _, emit ?e ≫= (λ _, modify ?f2 ≫= (λ _, ?k)))] =>
      exists k, (f2 (f1 (self w)))
  end.
  split; [|split; reflexivity].
  repeat keeps_step;
    auto using update_policy_keeps, update_discriminator_keeps,
      sample_buffer_keeps, next_expert_data_keeps.
Qed.

(** What a policy update returns and does to the agent depends on the old
    actor only through the log-probabilities it gives to the batch. *)
Lemma update_policy_reads_log_prob transitions w θ' :
  let o := normalize (_ob_norm (self w)) (ob transitions) in
  let a_z := ac_before_activation transitions in
  (act θ' o a_z).1 = (act (_old_actor (self w)) o a_z).1 →
  let w' := {| self := set_old_actor θ' (self w); events := events w |} in
  (_update_policy transitions w').1 = (_update_policy transitions w).1 ∧
  self (_update_policy transitions w').2
  = set_old_actor θ' (self (_update_policy transitions w).2).
Proof.
  intros o a_z Hlp w'. unfold _update_policy, w'.
  unfold mbind, M_bind, emit, get, modify, lift, mret, M_ret. simpl.
  fold o a_z. rewrite Hlp.
  repeat (case_match; simpl in *; simplify_eq; try done).
Qed.

(** C6.  Within one call of [train] the old actor is synced from the current
    actor exactly once, first of all: the log of the round starts with the
    sync and holds no other, so every batch update comes after it; every
    forward pass through the old actor in the round reads the synced snapshot,
    which is also what the old actor holds when the round ends, normally or
    not.  No policy update modifies the old actor, and a policy update depends
    on the old actor only through the log-probabilities it gives to the batch
    (the denominator of the importance ratio). *)
Theorem train_old_actor_frozen w :
  let θ := _copy_target_network (_old_actor (self w)) (_actor (self w)) in
  let w' := (train w).2 in
  (∃ evs,
     events w' = events w ++ old_actor_synced :: evs ∧
     (old_actor_synced ∉ evs) ∧
     (∀ θ', old_actor_read θ' ∈ evs → θ' = θ)) ∧
  _old_actor (self w') = θ ∧
  (∀ transitions w1,
     _old_actor (self (_update_policy transitions w1).2)
     = _old_actor (self w1)) ∧
  (∀ transitions w1 θ',
     let o := normalize (_ob_norm (self w1)) (ob transitions) in
     let a_z := ac_before_activation transitions in
     (act θ' o a_z).1 = (act (_old_actor (self w1)) o a_z).1 →
     let w1' := {| self := set_old_actor θ' (self w1); events := events w1 |} in
     (_update_policy transitions w1').1 = (_update_policy transitions w1).1 ∧
     self (_update_policy transitions w1').2
     = set_old_actor θ' (self (_update_policy transitions w1).2)).
Proof.
  intros θ w'.
  destruct (train_from_sync w) as (rest & s & Hkeeps & Hs & Hrun).
  fold θ in Hkeeps, Hs.
  destruct (Hkeeps {| self := s; events := events w ++ [old_actor_synced] |} Hs)
    as (Hold & evs & Hevs & Hok).
  rewrite <- Hrun in Hold, Hevs. fold w' in Hold, Hevs.
  split; [|split; [done|split]].
  - exists evs. rewrite Hevs. simpl. rewrite <- (assoc_L (++)).
    split; [done|]. rewrite Forall_forall in Hok. split.
    + intros Hin. by destruct (Hok _ Hin) as [Hne _].
    + intros θ' Hin. destruct (Hok _ Hin) as [_ Hread]. by apply Hread.
  - intros transitions w1.
    by destruct (update_policy_keeps (_old_actor (self w1)) transitions w1).
  - intros transitions w1 θ'. apply update_policy_reads_log_prob.
Qed.

End train_facts.

(** ** A round of the small agent *)

Section toy_round.
Import py gail_agent example.
#[local] Existing Instance toy.

Abbreviation cfg := (toy_config 1 1 true false).

(** A policy update of the small agent reads the old actor 5 and adds one to
    the actor. *)
Lemma toy_update_policy (a : R) (evs : list Event) :
  ∃ info,
    _update_policy toy_transitions
      {| self := toy_agent cfg a 5 [toy_transitions]; events := evs |}
    = (Ok info,
       {| self := toy_agent cfg (a + 1) 5 [toy_transitions];
          events := evs ++ [policy_update_started; old_actor_read 5] |}).
Proof.
  unfold _update_policy.
  unfold mbind, M_bind, modify, emit, get, lift, mret, M_ret. simpl.
  destruct (decide (5 < -100)); [lra|]. simpl.
  eexists. rewrite <- (assoc_L (++)). reflexivity.
Qed.

Lemma toy_update_discriminator (a : R) (evs : list Event) :
  ∃ info,
    _update_discriminator toy_transitions [0]
      {| self := toy_agent cfg a 5 [toy_transitions]; events := evs |}
    = (Ok info,
       {| self := toy_agent cfg a 5 [toy_transitions];
          events := evs ++ [discriminator_update_started] |}).
Proof.
  assert (Bernoulli [1; 0] = Ok [1; 0]) as Hvalid.
  { unfold Bernoulli. simpl. by rewrite !bool_decide_eq_true_2 by lra. }
  unfold _update_discriminator.
  unfold mbind, M_bind, modify, emit, get, lift, mret, M_ret. simpl.
  rewrite Hvalid. eexists. reflexivity.
Qed.

(** One iteration of the first loop of [train], and one of the second. *)
Lemma toy_policy_iteration (a : R) (evs : list Event) (train_info : Info) :
  ∃ train_info',
    (policy_data ← sample_buffer 1;
     _train_info ← _update_policy policy_data;
     mret (Info_add train_info _train_info))
      {| self := toy_agent cfg a 5 [toy_transitions]; events := evs |}
    = (Ok train_info',
       {| self := toy_agent cfg (a + 1) 5 [toy_transitions];
          events := evs ++ [policy_update_started; old_actor_read 5] |}).
Proof.
  destruct (toy_update_policy a evs) as [info Hinfo].
  eexists. erewrite bind_run by reflexivity.
  erewrite bind_run by exact Hinfo. reflexivity.
Qed.

Lemma toy_discriminator_iteration (a : R) (evs : list Event)
    (train_info : Info) :
  ∃ train_info',
    (policy_data ← sample_buffer 1;
     expert_data ← next_expert_data;
     _train_info ← _update_discriminator policy_data expert_data;
     mret (Info_add train_info _train_info))
      {| self := toy_agent cfg a 5 [toy_transitions]; events := evs |}
    = (Ok train_info',
       {| self := toy_agent cfg a 5 [toy_transitions];
          events := evs ++ [discriminator_update_started] |}).
Proof.
  destruct (toy_update_discriminator a evs) as [info Hinfo].
  eexists. erewrite bind_run by reflexivity.
  erewrite bind_run by reflexivity.
  erewrite bind_run by exact Hinfo. reflexivity.
Qed.

(** With two policy updates and one discriminator update in the round, the
    log is the sync, then the two policy updates, each reading the snapshot 5
    while the actor moves on to 6 and 7, then the discriminator update. *)
Lemma train_toy_round :
  let w' := (train toy_world).2 in
  events w' =
    [old_actor_synced;
     policy_update_started; old_actor_read 5;
     policy_update_started; old_actor_read 5;
     discriminator_update_started] ∧
  _old_actor (self w') = 5 ∧
  _actor (self w') = 5 + 1 + 1.
Proof.
  destruct (toy_policy_iteration 5 [@old_actor_synced toy] Info_new) as [i1 H1].
  destruct (toy_policy_iteration (5 + 1)
              [@old_actor_synced toy; policy_update_started; @old_actor_read toy 5] i1)
    as [i2 H2].
  destruct (toy_discriminator_iteration (5 + 1 + 1)
              [@old_actor_synced toy; policy_update_started; @old_actor_read toy 5;
               policy_update_started; @old_actor_read toy 5] i2)
    as [i3 H3].
  unfold train, toy_world.
  do 5 (erewrite bind_run by reflexivity).
  erewrite (bind_run (for_range _ _ _)).
  2:{ change (Z.to_nat _) with 2%nat. cbn [for_range].
      erewrite bind_run by exact H1. erewrite bind_run by exact H2.
      reflexivity. }
  erewrite bind_run by reflexivity.
  erewrite (bind_run (for_range _ _ _)).
  2:{ change (Z.to_nat _) with 1%nat. cbn [for_range].
      erewrite bind_run by exact H3. reflexivity. }
  erewrite bind_run by reflexivity.
  erewrite bind_run by reflexivity.
  done.
Qed.

End toy_round.

(** C6 at the round of the small agent: the old actor ends as the actor the
    round started with. *)
Lemma train_old_actor_frozen_witness :
  gail_agent._old_actor
    (gail_agent.self (@gail_agent.train example.toy example.toy_world).2) = 5.
Proof.
  destruct (@train_old_actor_frozen example.toy example.toy_world)
    as (_ & Hold & _).
  exact Hold.
Defined.

(** C3 at the small agent and the logit 3. *)
Lemma vanilla_reward_limits_witness :
  gail_agent.predict_reward
    (example.toy_agent (example.toy_config 1 1 true false) 0 0 []) [3] None
  = py.Ok (gail_agent.reward_of true (torch.sigmoid 3)).
Proof.
  destruct (@vanilla_reward_limits example.toy) as (Hreward & _).
  apply Hreward; reflexivity.
Defined.

(** * Further properties *)

(** ** More about [_compute_gae] *)

Section compute_gae_more.
Import py gail_agent.

(** Up to a terminal step the advantages depend on nothing that follows
    it. *)
Lemma advantage_prefix (cfg : Config) t :
  ∀ done1 done2 rew1 rew2 V1 V2,
    done1 !! t = Some true →
    take (S t) done1 = take (S t) done2 →
    take (S t) rew1 = take (S t) rew2 →
    take (S t) V1 = take (S t) V2 →
    (length done1 ≤ length rew1)%nat → length V1 = S (length done1) →
    (length done2 ≤ length rew2)%nat → length V2 = S (length done2) →
    take (S t)
      (spec.advantage (rl_discount_factor cfg) (gae_lambda cfg) done1 rew1 V1)
    = take (S t)
        (spec.advantage (rl_discount_factor cfg) (gae_lambda cfg) done2 rew2 V2).
Proof.
  induction t as [|t IH];
    intros [|d1 done1] [|d2 done2] [|r1 rew1] [|r2 rew2]
           [|v1 [|v1' V1]] [|v2 [|v2' V2]] Hd Hdone Hrew HV Hl1 HV1 Hl2 HV2;
    simpl in Hd, Hdone, Hrew, HV, Hl1, HV1, Hl2, HV2; simplify_eq; try lia.
  - rewrite !advantage_cons. cbn [take]. f_equal. simpl. lra.
  - rewrite !advantage_cons.
    assert (take (S t)
              (spec.advantage (rl_discount_factor cfg) (gae_lambda cfg)
                 done1 rew1 (v2' :: V1))
            = take (S t)
                (spec.advantage (rl_discount_factor cfg) (gae_lambda cfg)
                   done2 rew2 (v2' :: V2))) as Hrest.
    { apply IH; simpl; try done; try lia. by f_equal. }
    cbn [take]. rewrite Hrest. f_equal.
    assert (hd 0 (spec.advantage (rl_discount_factor cfg) (gae_lambda cfg)
                    done1 rew1 (v2' :: V1))
            = hd 0 (spec.advantage (rl_discount_factor cfg) (gae_lambda cfg)
                      done2 rew2 (v2' :: V2))) as ->; [|done].
    destruct (spec.advantage _ _ done1 rew1 _) as [|a1 l1] eqn:E1,
             (spec.advantage _ _ done2 rew2 _) as [|a2 l2] eqn:E2;
      simplify_eq/=; done.
Qed.

(** With [λ = 1] and no terminal step, advantage plus value is the
    discounted return. *)
Lemma advantage_lambda_one (cfg : Config) (vT : R) :
  gae_lambda cfg = 1 →
  ∀ done rew V,
    Forall (λ d, d = false) done →
    (length done ≤ length rew)%nat → length V = S (length done) →
    V !! length done = Some vT →
    zip_with Rplus
      (spec.advantage (rl_discount_factor cfg) (gae_lambda cfg) done rew V)
      (take (length done) V)
    = reference.discounted_returns (rl_discount_factor cfg)
        (take (length done) rew) vT.
Proof.
  intros Hlam done. induction done as [|d done IH];
    intros [|r rew] [|v0 [|v1 V]] Hd Hr HV HvT;
    simpl in Hr, HV, HvT; simplify_eq; try lia; try done.
  apply Forall_cons in Hd as [-> Hd].
  rewrite advantage_cons.
  specialize (IH rew (v1 :: V) Hd ltac:(lia) ltac:(simpl; lia) HvT).
  cbn [length take zip_with reference.discounted_returns].
  rewrite <- IH. f_equal.
  simpl bool_to_R.
  destruct done as [|d' done].
  - simpl in *. simplify_eq. rewrite Hlam. lra.
  - destruct rew as [|r' rew]; [simpl in Hr; lia|].
    destruct V as [|v2 V]; [simpl in HV; lia|].
    rewrite advantage_cons. cbn [hd length take zip_with]. rewrite Hlam. lra.
Qed.

Lemma length_standardize (a : np.ndarray) :
  length (np.standardize a) = length a.
Proof. destruct a; [done|]. unfold np.standardize. by rewrite length_map. Qed.

(** The loop of [_compute_gae] raises [IndexError] at its first iteration
    when there are fewer rewards than done flags. *)
Lemma gae_advantages_short_rewards (cfg : Config) done rew V :
  (length rew < length done)%nat →
  gae_advantages cfg done rew V = Raise IndexError.
Proof.
  intros Hlen. unfold gae_advantages.
  destruct (length done) as [|T] eqn:HT; [lia|].
  rewrite seq_S, reverse_app. simpl.
  destruct (lookup_lt_is_Some_2 done T) as [d ->]; [lia|]. simpl.
  by rewrite (lookup_ge_None_2 rew T) by lia.
Qed.



Context `{Collaborators}.
Implicit Types (self : GAILAgent) (rollouts : Rollouts Obs Acs).

(** X1.  A terminal step is an episode boundary: there the return is the
    reward alone (the advantage is the reward minus the value), and the
    returns and the advantages before normalisation up to and including that
    step are the same for any two rollouts that agree up to it, whatever
    follows. *)
Theorem compute_gae_episode_boundary self rollouts1 rollouts2 (t : nat)
    (r v0 : R) :
  let cfg := _config self in
  let V1 := vpred_of self rollouts1 in
  let V2 := vpred_of self rollouts2 in
  (length (done rollouts1) ≤ length (rew rollouts1))%nat →
  length V1 = (length (done rollouts1) + 1)%nat →
  (length (done rollouts2) ≤ length (rew rollouts2))%nat →
  length V2 = (length (done rollouts2) + 1)%nat →
  done rollouts1 !! t = Some true →
  rew rollouts1 !! t = Some r →
  V1 !! t = Some v0 →
  take (S t) (done rollouts1) = take (S t) (done rollouts2) →
  take (S t) (rew rollouts1) = take (S t) (rew rollouts2) →
  take (S t) V1 = take (S t) V2 →
  ∃ adv1 adv2 rollouts1' rollouts2',
    gae_advantages cfg (done rollouts1) (rew rollouts1) V1 = Ok adv1 ∧
    gae_advantages cfg (done rollouts2) (rew rollouts2) V2 = Ok adv2 ∧
    _compute_gae self rollouts1 = Ok rollouts1' ∧
    _compute_gae self rollouts2 = Ok rollouts2' ∧
    adv1 !! t = Some (r - v0) ∧
    ret rollouts1' !! t = Some r ∧
    take (S t) adv1 = take (S t) adv2 ∧
    take (S t) (ret rollouts1') = take (S t) (ret rollouts2').
Proof.
  intros cfg V1 V2 Hr1 HV1 Hr2 HV2 Hd Hrw Hv0 Hdone Hrew HV.
  destruct (compute_gae_returns self rollouts1 Hr1 HV1)
    as (Ha1 & r1' & Hrun1 & _ & Hret1).
  destruct (compute_gae_returns self rollouts2 Hr2 HV2)
    as (Ha2 & r2' & Hrun2 & _ & Hret2).
  fold cfg V1 in Ha1, Hret1. fold cfg V2 in Ha2, Hret2.
  eexists _, _, r1', r2'. do 4 (split; [done|]).
  destruct (lookup_lt_is_Some_2 V1 (S t)) as [v1 Hv1].
  { apply lookup_lt_Some in Hd. lia. }
  pose proof (advantage_lookup cfg _ _ _ t true r v0 v1 Hd Hrw Hv0 Hv1) as Hat.
  assert (spec.advantage (rl_discount_factor cfg) (gae_lambda cfg)
            (done rollouts1) (rew rollouts1) V1 !! t = Some (r - v0)) as Hat'.
  { rewrite Hat. f_equal. simpl. lra. }
  pose proof (advantage_prefix cfg t _ _ _ _ _ _ Hd Hdone Hrew HV Hr1
                ltac:(lia) Hr2 ltac:(lia)) as Hpre.
  split; [done|]. split.
  - rewrite Hret1, lookup_zip_with, Hat'. simpl.
    rewrite lookup_take_lt by (apply lookup_lt_Some in Hd; lia).
    rewrite Hv0. simpl. f_equal. lra.
  - split; [done|].
    rewrite Hret1, Hret2, !zip_with_take, Hpre, !take_take.
    apply lookup_lt_Some in Hd.
    assert (S t ≤ length (done rollouts2))%nat.
    { apply (f_equal length) in Hdone. rewrite !length_take in Hdone. lia. }
    rewrite !Nat.min_l by lia. by rewrite HV.
Qed.

(** X2.  With [gae_lambda = 1] and no terminal step the stored returns are
    the discounted returns of the rewards, bootstrapped with the value
    prediction of the last observation: [ret[t] = rew[t] + γ·ret[t+1]], with
    [V[T]] after the last step. *)
Theorem compute_gae_lambda_one self rollouts (vT : R) :
  let cfg := _config self in
  let V := vpred_of self rollouts in
  let T := length (done rollouts) in
  gae_lambda cfg = 1 →
  Forall (λ d, d = false) (done rollouts) →
  (T ≤ length (rew rollouts))%nat →
  length V = (T + 1)%nat →
  V !! T = Some vT →
  ∃ rollouts',
    _compute_gae self rollouts = Ok rollouts' ∧
    ret rollouts' =
      reference.discounted_returns (rl_discount_factor cfg)
        (take T (rew rollouts)) vT.
Proof.
  intros cfg V T Hlam Hd Hr HV HvT.
  destruct (compute_gae_returns self rollouts Hr HV)
    as (_ & rollouts' & Hrun & _ & Hret).
  exists rollouts'. split; [done|]. rewrite Hret.
  apply advantage_lambda_one; try done. fold V T. lia.
Qed.

(** X3.  [_compute_gae] raises [AssertionError] when the critic does not
    return [T + 1] value predictions, and [IndexError] when it does and there
    are fewer than [T] rewards.  Whenever it returns, there were [T + 1] value
    predictions and at least [T] rewards, the observations, actions, done
    flags and rewards are as they were, and [T] advantages and [T] returns
    are stored. *)
Theorem compute_gae_outcomes self rollouts :
  let V := vpred_of self rollouts in
  let T := length (done rollouts) in
  (length V ≠ (T + 1)%nat → _compute_gae self rollouts = Raise AssertionError) ∧
  (length V = (T + 1)%nat → (length (rew rollouts) < T)%nat →
   _compute_gae self rollouts = Raise IndexError) ∧
  (∀ rollouts',
     _compute_gae self rollouts = Ok rollouts' →
     length V = (T + 1)%nat ∧ (T ≤ length (rew rollouts))%nat ∧
     ob rollouts' = ob rollouts ∧ ac rollouts' = ac rollouts ∧
     ac_before_activation rollouts' = ac_before_activation rollouts ∧
     done rollouts' = done rollouts ∧ rew rollouts' = rew rollouts ∧
     length (adv rollouts') = T ∧ length (ret rollouts') = T).
Proof.
  intros V T. split; [|split].
  - intros HV. unfold _compute_gae. fold (vpred_of self rollouts). fold V T.
    by destruct (decide (length V = (T + 1)%nat)).
  - intros HV Hr. unfold _compute_gae. fold (vpred_of self rollouts). fold V T.
    destruct (decide (length V = (T + 1)%nat)); [|done].
    by rewrite gae_advantages_short_rewards.
  - intros rollouts'. unfold _compute_gae.
    fold (vpred_of self rollouts). fold V T.
    destruct (decide (length V = (T + 1)%nat)) as [HV|]; [|done].
    destruct (decide (T ≤ length (rew rollouts))%nat) as [Hr|Hr].
    + assert (length V = S (length (done rollouts))) as HV'
        by (unfold T in *; lia).
      pose proof (gae_advantages_spec (_config self) _ _ V Hr HV') as Hadv.
      pose proof (advantage_length (_config self) _ _ V Hr HV') as Hlen.
      rewrite Hadv. simpl. intros [= <-]. simpl.
      do 7 (split; [done|]). split.
      * by rewrite length_standardize, Hlen.
      * rewrite length_zip_with, length_take, Hlen. fold T. lia.
    + rewrite gae_advantages_short_rewards by (fold T; lia). done.
Qed.

(** X4.  For a rollout of one transition the one advantage is its own mean,
    the standard deviation is 0, and [_compute_gae] stores an advantage that
    is not finite: the division by the standard deviation is not guarded. *)
Theorem compute_gae_constant_advantages self rollouts :
  let V := vpred_of self rollouts in
  length (done rollouts) = 1%nat →
  (1 ≤ length (rew rollouts))%nat →
  length V = 2%nat →
  ∃ rollouts',
    _compute_gae self rollouts = Ok rollouts' ∧
    adv rollouts' = [np.nonfinite].
Proof.
  intros V HT Hr HV.
  destruct (compute_gae_returns self rollouts)
    as (Hadv & rollouts' & Hrun & Hstd & _); [lia|by rewrite HT|].
  fold V in Hadv, Hstd.
  pose proof (advantage_length (_config self) (done rollouts) (rew rollouts) V)
    as Hlen.
  rewrite HT in Hlen. specialize (Hlen Hr HV).
  destruct (spec.advantage _ _ _ _ _) as [|c [|c' adv_]] eqn:Hspec;
    try (simpl in Hlen; lia).
  exists rollouts'. split; [done|].
  rewrite Hstd. apply (standardize_constant c 1).
Qed.


End compute_gae_more.

(** X1 at two rollouts of the small agent that agree on their first step,
    which is terminal. *)
Lemma compute_gae_episode_boundary_witness :
  ∃ rollouts1',
    gail_agent._compute_gae
      (example.toy_agent (example.toy_config (1/2) 1 true false) 0 0 [])
      (example.toy_rollouts [3; 4; 5] [true; false] [1; 2]) = py.Ok rollouts1' ∧
    gail_agent.ret rollouts1' !! 0%nat = Some 1.
Proof.
  destruct (@compute_gae_episode_boundary example.toy
              (example.toy_agent (example.toy_config (1/2) 1 true false) 0 0 [])
              (example.toy_rollouts [3; 4; 5] [true; false] [1; 2])
              (example.toy_rollouts [3; 4; 9; 7] [true; false; false] [1; 5; 6])
              0%nat 1 3)
    as (a1 & a2 & r1' & r2' & _ & _ & Hrun & _ & _ & Hret & _);
    try reflexivity; try (simpl; lia).
  exists r1'. split; [exact Hrun|exact Hret].
Defined.

(** X2 at two steps with rewards 1 and 2, [γ = 1/2], and the value
    prediction 4 for the last observation. *)
Lemma compute_gae_lambda_one_witness :
  ∃ rollouts',
    gail_agent._compute_gae
      (example.toy_agent (example.toy_config (1/2) 1 true false) 0 0 [])
      (example.toy_rollouts [0; 0; 4] [false; false] [1; 2]) = py.Ok rollouts' ∧
    gail_agent.ret rollouts' = [1 + 1/2 * (2 + 1/2 * 4); 2 + 1/2 * 4].
Proof.
  destruct (@compute_gae_lambda_one example.toy
              (example.toy_agent (example.toy_config (1/2) 1 true false) 0 0 [])
              (example.toy_rollouts [0; 0; 4] [false; false] [1; 2]) 4)
    as (r' & Hrun & Hret);
    try reflexivity; try (simpl; lia); try (repeat constructor).
  exists r'. split; [exact Hrun|exact Hret].
Defined.

(** X4 at a rollout of one transition. *)
Lemma compute_gae_constant_advantages_witness :
  ∃ rollouts',
    gail_agent._compute_gae
      (example.toy_agent (example.toy_config 1 1 true false) 0 0 [])
      (example.toy_rollouts [3; 4] [false] [1]) = py.Ok rollouts' ∧
    gail_agent.adv rollouts' = [np.nonfinite].
Proof.
  destruct (@compute_gae_constant_advantages example.toy
              (example.toy_agent (example.toy_config 1 1 true false) 0 0 [])
              (example.toy_rollouts [3; 4] [false] [1]))
    as (r' & Hrun & Hadv);
    try reflexivity; try (simpl; lia).
  exists r'. split; [exact Hrun|exact Hadv].
Defined.


(** ** More about [predict_reward]: the symmetric reward *)

Section symmetric_reward.
Import py gail_agent.

Lemma symmetric_reward_unfold x :
  reward_of false (torch.sigmoid x) =
    ln (torch.sigmoid x + eps) - ln (1 - torch.sigmoid x + eps).
Proof. reflexivity. Qed.

Lemma symmetric_reward_increasing x y :
  x < y → reward_of false (torch.sigmoid x) < reward_of false (torch.sigmoid y).
Proof.
  intros Hxy. rewrite !symmetric_reward_unfold.
  pose proof (sigmoid_increasing x y Hxy).
  pose proof (sigmoid_bounds x). pose proof (sigmoid_bounds y).
  pose proof eps_bounds.
  assert (ln (torch.sigmoid x + eps) < ln (torch.sigmoid y + eps))
    by (apply ln_increasing; lra).
  assert (ln (1 - torch.sigmoid y + eps) < ln (1 - torch.sigmoid x + eps))
    by (apply ln_increasing; lra).
  lra.
Qed.

Context `{Collaborators}.

(** X6.  Without the vanilla-reward flag the value [predict_reward] returns
    for a logit is 0 at logit 0, is not negative for a logit that is not
    negative and not positive for a logit that is not positive, does not
    decrease as the logit grows, and stays between [ln ε - ln (1 + ε)] and
    [ln (1 + ε) - ln ε]. *)
Theorem symmetric_reward_properties :
  let reward x := reward_of false (torch.sigmoid x) in
  (∀ self ob ac x,
     gail_vanilla_reward (_config self) = false →
     logits_of self ob ac = [x] →
     predict_reward self ob ac = Ok (reward x)) ∧
  reward 0 = 0 ∧
  (∀ x, 0 <= x → 0 <= reward x) ∧
  (∀ x, x <= 0 → reward x <= 0) ∧
  (∀ x y, x <= y → reward x <= reward y) ∧
  (∀ x, ln eps - ln (1 + eps) <= reward x <= ln (1 + eps) - ln eps).
Proof.
  intros reward.
  assert (reward 0 = 0) as H0.
  { unfold reward. rewrite symmetric_reward_unfold. unfold torch.sigmoid.
    rewrite Ropp_0, exp_0.
    replace (1 - 1 / (1 + 1) + eps) with (1 / (1 + 1) + eps) by lra. lra. }
  split; [|split; [|split; [|split; [|split]]]].
  - intros self ob ac x Hv Hl.
    rewrite (predict_reward_of_logit self ob ac x Hl), Hv. done.
  - done.
  - intros x [Hx| <-]; [|lra]. rewrite <- H0. left.
    by apply symmetric_reward_increasing.
  - intros x [Hx| ->]; [|lra]. rewrite <- H0. left.
    by apply symmetric_reward_increasing.
  - intros x y [Hlt| ->]; [|lra]. left. by apply symmetric_reward_increasing.
  - intros x. unfold reward. rewrite symmetric_reward_unfold.
    pose proof (sigmoid_bounds x). pose proof eps_bounds.
    assert (ln eps < ln (torch.sigmoid x + eps)) by (apply ln_increasing; lra).
    assert (ln (torch.sigmoid x + eps) < ln (1 + eps))
      by (apply ln_increasing; lra).
    assert (ln eps < ln (1 - torch.sigmoid x + eps))
      by (apply ln_increasing; lra).
    assert (ln (1 - torch.sigmoid x + eps) < ln (1 + eps))
      by (apply ln_increasing; lra).
    lra.
Qed.

End symmetric_reward.

(** ** More about the updates *)

Section update_more.
Import py gail_agent.

Lemma finite_values_finite (a : torch.Tensor) :
  np.finite_values (map np.finite a) = Some a.
Proof. induction a as [|x a IH]; [done|]. simpl. by rewrite IH. Qed.

(** The clipped term of one transition. *)
Lemma clipped_term (c r A : R) :
  0 <= c →
  Rmin (r * A) (torch.clamp (1.0 - c) (1.0 + c) r * A) =
    if decide (0 <= A) then Rmin r (1 + c) * A else Rmax r (1 - c) * A.
Proof.
  intros Hc. unfold torch.clamp.
  destruct (decide (0 <= A)) as [HA|HA];
    unfold Rmin, Rmax; repeat destruct (Rle_dec _ _); nra.
Qed.

Lemma importance_ratio_same (log_pi : torch.Tensor) :
  importance_ratio log_pi log_pi = map (λ _, 1) log_pi.
Proof.
  unfold importance_ratio. induction log_pi as [|x l IH]; [done|].
  simpl. rewrite IH. f_equal. rewrite Rminus_diag. apply exp_0.
Qed.

(** X7.  The surrogate loss of a batch with finite advantages is the PPO
    clipped objective: for a clip range [c ≥ 0] the term of a transition with
    ratio [r] and advantage [A] is [min(r, 1 + c)·A] when [A ≥ 0] and
    [max(r, 1 - c)·A] when [A < 0], and the loss is minus the mean of the
    terms. *)
Theorem surrogate_loss_clipped (cfg : Config) (ratio adv : torch.Tensor) :
  0 <= ppo_clip cfg →
  surrogate_loss cfg ratio (map np.finite adv) =
    np.finite
      (- torch.mean
           (zip_with
              (λ r A, if decide (0 <= A)
                      then Rmin r (1 + ppo_clip cfg) * A
                      else Rmax r (1 - ppo_clip cfg) * A)
              ratio adv)).
Proof.
  intros Hc. unfold surrogate_loss. rewrite finite_values_finite.
  do 3 f_equal.
  revert adv. induction ratio as [|r ratio IH]; intros [|A adv]; try done.
  cbn [map zip_with]. rewrite IH. f_equal. by apply clipped_term.
Qed.

(** X8.  When the actor gives the batch the log-probabilities the old actor
    gives it (as right after the sync, when the two have the same parameters)
    every importance ratio is 1 and, for a clip range [c ≥ 0], the surrogate
    loss is minus the mean advantage. *)
Theorem surrogate_loss_at_sync (cfg : Config) (log_pi adv : torch.Tensor) :
  0 <= ppo_clip cfg →
  length log_pi = length adv →
  importance_ratio log_pi log_pi = replicate (length log_pi) 1 ∧
  surrogate_loss cfg (importance_ratio log_pi log_pi) (map np.finite adv) =
    np.finite (- torch.mean adv).
Proof.
  intros Hc Hlen. rewrite importance_ratio_same. split.
  - clear. induction log_pi as [|x l IH]; [done|]. simpl. by rewrite IH.
  - unfold surrogate_loss. rewrite finite_values_finite. do 3 f_equal.
    revert adv Hlen. induction log_pi as [|x l IH]; intros [|A adv] Hlen;
      simplify_eq/=; [done|].
    rewrite IH by done. f_equal.
    rewrite clipped_term by done.
    destruct (decide (0 <= A)); unfold Rmin, Rmax;
      destruct (Rle_dec _ _); nra.
Qed.

End update_more.

(** X7 at two transitions, one with a large ratio and a positive advantage,
    one with a small ratio and a negative advantage: both are clipped. *)
Lemma surrogate_loss_clipped_witness :
  gail_agent.surrogate_loss (example.toy_config 1 1 true false) [2; 1/2]
    [np.finite 1; np.finite (-1)]
  = np.finite
      (- torch.mean
           (zip_with
              (λ r A, if decide (0 <= A)
                      then Rmin r (1 + 0.2) * A
                      else Rmax r (1 - 0.2) * A)
              [2; 1/2] [1; -1])).
Proof.
  apply (surrogate_loss_clipped (example.toy_config 1 1 true false)
           [2; 1/2] [1; -1]).
  simpl. lra.
Defined.

(** X8 at a batch of two transitions. *)
Lemma surrogate_loss_at_sync_witness :
  gail_agent.surrogate_loss (example.toy_config 1 1 true false)
    (gail_agent.importance_ratio [-1; -2] [-1; -2])
    [np.finite 3; np.finite (-5)]
  = np.finite (- torch.mean [3; -5]).
Proof.
  destruct (surrogate_loss_at_sync (example.toy_config 1 1 true false)
              [-1; -2] [3; -5]) as [_ Hloss].
  { simpl. lra. }
  { reflexivity. }
  exact Hloss.
Defined.

Section update_outcomes.
Import py gail_agent.
Context `{Collaborators}.
Implicit Types (w : World) (transitions : Rollouts Obs Acs).

Ltac run_method :=
  unfold mbind, M_bind, modify, emit, get, lift, mret, M_ret, reshape;
  simpl.

(** X9.  A policy update raises [RuntimeError] with the agent untouched
    when the returns or the advantages of the batch are not one per
    transition, and when the old actor gives no log-probability (an empty
    batch).  When it returns, it has replaced the actor and the critic and
    their optimisers by the results of one optimisation step each, on the
    actor loss and on the value loss, and it has logged its start, the read of
    the old actor and then halts in the debugger only: at least one when the
    least old log-probability is below -100 or an advantage is not finite. *)
Theorem update_policy_outcomes transitions w :
  let s := self w in
  let cfg := _config s in
  let o := normalize (_ob_norm s) (ob transitions) in
  let a_z := ac_before_activation transitions in
  let bs := length (done transitions) in
  let old_log_pi := (act (_old_actor s) o a_z).1 in
  let result := (_update_policy transitions w).1 in
  let w' := (_update_policy transitions w).2 in
  (length (ret transitions) ≠ bs ∨ length (adv transitions) ≠ bs →
   result = Raise RuntimeError ∧ self w' = s ∧
   events w' = events w ++ [policy_update_started]) ∧
  (length (ret transitions) = bs → length (adv transitions) = bs →
   old_log_pi = [] →
   result = Raise RuntimeError ∧ self w' = s ∧
   events w' =
     events w ++ [policy_update_started; old_actor_read (_old_actor s)]) ∧
  (∀ info, result = Ok info →
   ∃ m halts,
     torch.min old_log_pi = Some m ∧
     events w' =
       events w ++ [policy_update_started; old_actor_read (_old_actor s)]
         ++ halts ∧
     Forall (λ e, e = set_trace_called) halts ∧
     (m < -100 ∨ np.finite_values (adv transitions) = None → halts ≠ []) ∧
     (_actor (self w'), _actor_optim (self w')) =
       actor_optim_step (_actor_optim s)
         (λ θ, actor_loss_of cfg old_log_pi (adv transitions) (act θ o a_z))
         (_actor s) ∧
     (_critic (self w'), _critic_optim (self w')) =
       critic_optim_step (_critic_optim s)
         (λ φ, value_loss_of cfg (ret transitions) (critic_forward φ o))
         (_critic s)).
Proof.
  intros s cfg o a_z bs old_log_pi result w'.
  subst result w'. unfold _update_policy. run_method.
  fold s. fold cfg o a_z bs. fold old_log_pi.
  split; [|split].
  - intros Hlen.
    destruct (decide (length (ret transitions) = bs));
      [destruct (decide (length (adv transitions) = bs))|];
      simpl; try done; by destruct Hlen.
  - intros Hret Hadv Hempty.
    destruct (decide (length (ret transitions) = bs)); [|done].
    destruct (decide (length (adv transitions) = bs)); [|done]. simpl.
    destruct (act (_actor s) o a_z) as [log_pi ent]. simpl.
    rewrite Hempty. simpl. by rewrite <- (assoc_L (++)).
  - intros info.
    destruct (decide (length (ret transitions) = bs)); [|done].
    destruct (decide (length (adv transitions) = bs)); [|done]. simpl.
    destruct (act (_actor s) o a_z) as [log_pi ent] eqn:Hact. simpl.
    destruct (torch.min old_log_pi) as [m|] eqn:Hmin; [|done]. simpl.
    destruct (actor_optim_step _ _ _) as [actor' aoptim'] eqn:Hastep.
    destruct (critic_optim_step _ _ _) as [critic' coptim'] eqn:Hcstep.
    intros _. exists m.
    destruct (decide (m < -100)) as [Hm|Hm],
      (np.finite_values (adv transitions)) as [adv_|] eqn:Hfin; simpl.
    + exists [set_trace_called]. split; [done|].
      split; [by rewrite <- !(assoc_L (++))|].
      split; [by repeat constructor|]. done.
    + exists [set_trace_called; set_trace_called]. split; [done|].
      split; [by rewrite <- !(assoc_L (++))|].
      split; [by repeat constructor|]. done.
    + exists []. split; [done|].
      split; [by rewrite <- !(assoc_L (++))|].
      split; [constructor|]. split; [|done]. by intros [?|?].
    + exists [set_trace_called]. split; [done|].
      split; [by rewrite <- !(assoc_L (++))|].
      split; [by repeat constructor|]. done.
Qed.

Lemma Bernoulli_valid (probs : torch.Tensor) :
  Forall (λ p, 0 <= p <= 1) probs → Bernoulli probs = Ok probs.
Proof.
  intros Hp. unfold Bernoulli.
  assert (forallb (λ p, bool_decide (0 <= p <= 1)) probs = true) as ->; [|done].
  apply forallb_forall. intros p Hin. apply bool_decide_eq_true.
  rewrite Forall_forall in Hp. by apply Hp, list_elem_of_In.
Qed.

Lemma Bernoulli_invalid (probs : torch.Tensor) :
  ¬ Forall (λ p, 0 <= p <= 1) probs → Bernoulli probs = Raise ValueError.
Proof.
  intros Hp. unfold Bernoulli.
  destruct (forallb _ probs) eqn:Hall; [|done].
  destruct Hp. apply Forall_forall. intros p Hin.
  rewrite forallb_forall in Hall.
  specialize (Hall p (proj1 (list_elem_of_In _ _) Hin)).
  by apply bool_decide_eq_true in Hall.
Qed.

(** X10.  Each update touches its own networks only: a policy update leaves
    the configuration, the observation normaliser, the old actor, the
    discriminator and its optimiser, the expert data and the buffer as they
    are, and a discriminator update everything but the discriminator and its
    optimiser.  A discriminator update raises [ValueError] and leaves the
    whole agent as it is when a logit of the policy or the expert batch lies
    outside [0, 1], as the logits are handed to [Bernoulli] as
    probabilities; it returns only when every logit lies in [0, 1], and has
    then replaced the discriminator and its optimiser by the result of one
    optimisation step on the loss. *)
Theorem updates_frame transitions (expert_data : ExpertData) w :
  let s := self w in
  let cfg := _config s in
  let sp := self (_update_policy transitions w).2 in
  let result := (_update_discriminator transitions expert_data w).1 in
  let wd := (_update_discriminator transitions expert_data w).2 in
  let sd := self wd in
  let p_o := normalize (_ob_norm s) (ob transitions) in
  let p_ac := if gail_no_action cfg then None else Some (ac transitions) in
  let e_o := normalize (_ob_norm s) (expert_ob expert_data) in
  let e_ac :=
    if gail_no_action cfg then None else Some (expert_ac expert_data) in
  let logits :=
    discriminator_forward (_discriminator s) p_o p_ac
    ++ discriminator_forward (_discriminator s) e_o e_ac in
  (_config sp = _config s ∧ _ob_norm sp = _ob_norm s ∧
   _old_actor sp = _old_actor s ∧ _discriminator sp = _discriminator s ∧
   _discriminator_optim sp = _discriminator_optim s ∧
   _data_loader sp = _data_loader s ∧ _data_iter sp = _data_iter s ∧
   _buffer sp = _buffer s) ∧
  (_config sd = _config s ∧ _ob_norm sd = _ob_norm s ∧
   _actor sd = _actor s ∧ _old_actor sd = _old_actor s ∧
   _critic sd = _critic s ∧ _actor_optim sd = _actor_optim s ∧
   _critic_optim sd = _critic_optim s ∧
   _data_loader sd = _data_loader s ∧ _data_iter sd = _data_iter s ∧
   _buffer sd = _buffer s) ∧
  events wd = events w ++ [discriminator_update_started] ∧
  (¬ Forall (λ x, 0 <= x <= 1) logits →
   result = Raise ValueError ∧ sd = s) ∧
  (∀ info, result = Ok info →
   Forall (λ x, 0 <= x <= 1) logits ∧
   (_discriminator sd, _discriminator_optim sd) =
     discriminator_optim_step (_discriminator_optim s)
       (λ d, gail_loss (gail_losses cfg (discriminator_forward d p_o p_ac)
                                        (discriminator_forward d e_o e_ac)))
       (_discriminator s)).
Proof.
  intros s cfg sp result wd sd p_o p_ac e_o e_ac logits.
  subst sp result sd wd. split; [|split; [|split; [|split]]].
  - unfold _update_policy. run_method.
    repeat (case_match; simpl in *; simplify_eq; try done);
      repeat split; done.
  - unfold _update_discriminator. run_method.
    repeat (case_match; simpl in *; simplify_eq; try done);
      repeat split; done.
  - unfold _update_discriminator. run_method.
    repeat (case_match; simpl in *; simplify_eq; try done).
  - intros Hinvalid. unfold _update_discriminator. run_method.
    fold s. fold cfg. fold p_o p_ac e_o e_ac. fold logits.
    rewrite (Bernoulli_invalid logits Hinvalid). simpl. by destruct s.
  - intros info. unfold _update_discriminator. run_method.
    fold s. fold cfg. fold p_o p_ac e_o e_ac. fold logits.
    destruct (decide (Forall (λ x, 0 <= x <= 1) logits)) as [Hvalid|Hinvalid].
    + rewrite (Bernoulli_valid logits Hvalid). simpl.
      destruct (discriminator_optim_step _ _ _) as [d' o'] eqn:Hstep.
      simpl. intros _. done.
    + by rewrite (Bernoulli_invalid logits Hinvalid).
Qed.

End update_outcomes.

(** ** The loss of the discriminator *)

Section discriminator_loss.
Import py gail_agent.

Lemma ln_sigmoid x : ln (torch.sigmoid x) = - ln (1 + exp (- x)).
Proof.
  unfold torch.sigmoid. pose proof (exp_pos (- x)).
  unfold Rdiv. rewrite Rmult_1_l. apply ln_Rinv. lra.
Qed.

Lemma ln_one_minus_sigmoid x :
  ln (1 - torch.sigmoid x) = ln (torch.sigmoid x) - x.
Proof.
  pose proof (sigmoid_spec x). pose proof (sigmoid_bounds x).
  pose proof (exp_pos (- x)).
  replace (1 - torch.sigmoid x) with (torch.sigmoid x * exp (- x)) by lra.
  rewrite ln_mult, ln_exp by lra. lra.
Qed.

Lemma zip_with_replicate_target (f : R → R → R) (l : list R) (y : R) :
  zip_with f l (replicate (length l) y) = map (λ x, f x y) l.
Proof. induction l as [|x l IH]; [done|]. simpl. by rewrite IH. Qed.

Lemma float32_eps_bounds : 0 < torch.float32_eps < 1 / 2.
Proof.
  unfold torch.float32_eps.
  assert (0 < / 2 ^ 23) by (apply Rinv_0_lt_compat; lra).
  assert (/ 2 ^ 23 < / 2) by (apply Rinv_lt_contravar; lra).
  lra.
Qed.

(** The entropy of [Bernoulli(probs=p)] as the library computes it. *)
Lemma bernoulli_entropy_clamped (p : R) :
  let ps := torch.clamp torch.float32_eps (1 - torch.float32_eps) p in
  bernoulli_entropy p = - p * ln ps - (1 - p) * ln (1 - ps).
Proof.
  intros ps. unfold bernoulli_entropy, probs_to_logits, bce_with_logits.
  cbv zeta. fold ps.
  pose proof float32_eps_bounds as Heps.
  assert (torch.float32_eps <= ps <= 1 - torch.float32_eps) as Hps.
  { unfold ps, torch.clamp, Rmin, Rmax. repeat destruct (Rle_dec _ _); lra. }
  replace (- (ln ps - ln (1 - ps))) with (ln (1 - ps) + - ln ps) by lra.
  rewrite exp_plus, exp_Ropp, !exp_ln by lra.
  replace (1 + (1 - ps) * / ps) with (/ ps) by (field; lra).
  rewrite ln_Rinv by lra. lra.
Qed.

(** X11.  The loss of the discriminator is the cross-entropy that labels
    policy pairs 0 and expert pairs 1, minus a weighted entropy term: with
    [D = sigmoid(logit)], the policy term is the mean of [-ln (1 - D)] and
    the expert term the mean of [-ln D].  The entropy term is not the entropy
    of [D]: the logits are handed to [Bernoulli] as probabilities, so it is
    the mean over all the pairs of [-x·ln x' - (1 - x)·ln (1 - x')] of the
    logit [x] itself, with [x'] the logit clamped to [eps, 1 - eps] (the
    [eps] of float32), which is the binary entropy of the logit where the
    logit lies in [eps, 1 - eps]. *)
Theorem gail_losses_cross_entropy (cfg : Config)
    (p_logit e_logit : torch.Tensor) :
  let l := gail_losses cfg p_logit e_logit in
  let D := torch.sigmoid in
  let clamped := torch.clamp torch.float32_eps (1 - torch.float32_eps) in
  p_loss l = torch.mean (map (λ x, - ln (1 - D x)) p_logit) ∧
  e_loss l = torch.mean (map (λ x, - ln (D x)) e_logit) ∧
  entropy l =
    torch.mean (map (λ x, - x * ln (clamped x) - (1 - x) * ln (1 - clamped x))
                    (p_logit ++ e_logit)) ∧
  (Forall (λ x, torch.float32_eps <= x <= 1 - torch.float32_eps)
     (p_logit ++ e_logit) →
   entropy l =
     torch.mean (map (λ x, - x * ln x - (1 - x) * ln (1 - x))
                     (p_logit ++ e_logit))) ∧
  gail_loss l = p_loss l + e_loss l - gail_entropy_loss_coeff cfg * entropy l.
Proof.
  intros l D clamped. unfold l, gail_losses, BCEWithLogitsLoss. simpl.
  rewrite !zip_with_replicate_target.
  split; [|split; [|split; [|split]]].
  - f_equal. apply map_ext. intros x. unfold bce_with_logits, D.
    rewrite ln_one_minus_sigmoid, ln_sigmoid. lra.
  - f_equal. apply map_ext. intros x. unfold bce_with_logits, D.
    rewrite ln_sigmoid. lra.
  - f_equal. apply map_ext. intros x. apply bernoulli_entropy_clamped.
  - intros Hin. f_equal. apply map_ext_in. intros x Hx.
    rewrite bernoulli_entropy_clamped. cbv zeta.
    rewrite Forall_forall in Hin.
    specialize (Hin x (proj2 (list_elem_of_In _ _) Hx)).
    assert (torch.clamp torch.float32_eps (1 - torch.float32_eps) x = x)
      as ->; [|done].
    unfold torch.clamp, Rmin, Rmax. repeat destruct (Rle_dec _ _); lra.
  - lra.
Qed.

End discriminator_loss.

(** ** More about [train] *)

Section train_more.
Import py gail_agent round_log.
Context `{Collaborators}.
Implicit Types (w : World).

Lemma bind_ok_inv {A B} (m : M A) (f : A → M B) w b w' :
  (m ≫= f) w = (Ok b, w') →
  ∃ a w1, m w = (Ok a, w1) ∧ f a w1 = (Ok b, w').
Proof.
  unfold mbind, M_bind. destruct (m w) as [[a|e] w1]; [|done]. by eexists _, _.
Qed.

Lemma bind_raise {A B} (m : M A) (f : A → M B) w e w1 :
  m w = (Raise e, w1) → (m ≫= f) w = (Raise e, w1).
Proof. intros Hm. unfold mbind, M_bind. by rewrite Hm. Qed.

Lemma count_app p (evs1 evs2 : list Event) :
  count p (evs1 ++ evs2) = (count p evs1 + count p evs2)%nat.
Proof. induction evs1 as [|e evs1 IH]; simpl; [done|]. rewrite IH. lia. Qed.

Lemma grows_refl w : grows 0 0 w w.
Proof. split; [done|]. exists []. by rewrite app_nil_r. Qed.

Lemma grows_trans kp1 kd1 kp2 kd2 w1 w2 w3 :
  grows kp1 kd1 w1 w2 → grows kp2 kd2 w2 w3 →
  grows (kp1 + kp2) (kd1 + kd2) w1 w3.
Proof.
  intros (Hc1 & evs1 & He1 & Hp1 & Hd1) (Hc2 & evs2 & He2 & Hp2 & Hd2).
  split; [congruence|]. exists (evs1 ++ evs2).
  rewrite He2, He1, (assoc_L (++)), !count_app. by subst.
Qed.

Lemma sample_buffer_grows n w data w' :
  sample_buffer n w = (Ok data, w') → grows 0 0 w w'.
Proof.
  unfold sample_buffer, mbind, M_bind, get, lift, modify, mret, M_ret. simpl.
  destruct (buffer_sample _ _) as [[d b]|e]; simpl; intros [= <- <-].
  split; [done|]. exists []. by rewrite app_nil_r.
Qed.

Lemma next_expert_data_grows w data w' :
  next_expert_data w = (Ok data, w') → grows 0 0 w w'.
Proof.
  unfold next_expert_data, mbind, M_bind, get, lift, modify, mret, M_ret.
  simpl. intros Hrun.
  repeat (case_match; simpl in *; simplify_eq);
    (split; [done|]); exists []; by rewrite app_nil_r.
Qed.

Lemma update_policy_grows transitions w info w' :
  _update_policy transitions w = (Ok info, w') → grows 1 0 w w'.
Proof.
  unfold _update_policy, mbind, M_bind, get, lift, modify, emit, mret, M_ret,
    reshape.
  simpl. intros Hrun.
  repeat (case_match; simpl in *; simplify_eq);
    (split; [done|]); eexists; rewrite <- !(assoc_L (++));
    (split; [reflexivity|done]).
Qed.

Lemma update_discriminator_grows transitions (expert_data : ExpertData) w
    info w' :
  _update_discriminator transitions expert_data w = (Ok info, w') →
  grows 0 1 w w'.
Proof.
  unfold _update_discriminator, mbind, M_bind, get, lift, modify, emit, mret,
    M_ret.
  simpl. intros Hrun.
  repeat (case_match; simpl in *; simplify_eq);
    (split; [done|]); eexists; (split; [reflexivity|done]).
Qed.

(** A loop whose iterations each add [kp] and [kd] updates adds [n] times as
    many. *)
Lemma for_range_grows {A} kp kd (n : nat) (body : A → M A) :
  (∀ a w a' w', body a w = (Ok a', w') → grows kp kd w w') →
  ∀ a w a' w',
    for_range n body a w = (Ok a', w') → grows (n * kp) (n * kd) w w'.
Proof.
  intros Hbody. induction n as [|n IH]; intros a w a' w' Hrun; simpl in Hrun.
  - injection Hrun as <- <-. apply grows_refl.
  - apply bind_ok_inv in Hrun as (a1 & w1 & H1 & Hrest).
    simpl. eapply grows_trans; [by eapply Hbody|by eapply IH].
Qed.

(** X12.  With a batch size of 0 [train] raises [ZeroDivisionError], but
    only after it has stepped the three schedulers and synced the old actor:
    these stay done, no update has run and the buffer is not cleared. *)
Theorem train_zero_batch_size w :
  let s := self w in
  batch_size (_config s) = 0%Z →
  (train w).1 = Raise ZeroDivisionError ∧
  events (train w).2 = events w ++ [old_actor_synced] ∧
  self (train w).2 =
    set_old_actor (_copy_target_network (_old_actor s) (_actor s))
      (set_optims (scheduler_step (_actor_optim s))
         (scheduler_step (_critic_optim s))
         (scheduler_step (_discriminator_optim s)) s).
Proof.
  intros s Hbs. subst s. unfold train.
  do 4 (erewrite bind_run by reflexivity).
  erewrite bind_raise.
  2:{ unfold lift, floordiv. simpl. rewrite Hbs.
      destruct (decide (0 = 0)%Z); [reflexivity|done]. }
  done.
Qed.

(** X13.  When [train] returns, the round has run exactly
    [ppo_epoch * rollout_length // batch_size] policy updates and then
    exactly [rollout_length // batch_size // discriminator_update_freq]
    discriminator updates, all after the sync and none interleaved, the
    divisors are not 0, and the buffer is left cleared. *)
Theorem train_returns w info w' :
  train w = (Ok info, w') →
  let cfg := _config (self w) in
  batch_size cfg ≠ 0%Z ∧ discriminator_update_freq cfg ≠ 0%Z ∧
  _config (self w') = cfg ∧
  (∃ buffer, _buffer (self w') = buffer_clear buffer) ∧
  ∃ evs1 evs2,
    events w' = events w ++ [old_actor_synced] ++ evs1 ++ evs2 ∧
    count is_policy_update evs1 =
      Z.to_nat (ppo_epoch cfg * rollout_length cfg / batch_size cfg) ∧
    count is_discriminator_update evs1 = 0%nat ∧
    count is_policy_update evs2 = 0%nat ∧
    count is_discriminator_update evs2 =
      Z.to_nat (rollout_length cfg / batch_size cfg
                / discriminator_update_freq cfg).
Proof.
  intros Hrun cfg. unfold train in Hrun.
  do 4 (erewrite bind_run in Hrun by reflexivity).
  apply bind_ok_inv in Hrun as (n1 & w1 & Hn1 & Hrun).
  apply bind_ok_inv in Hrun as (i1 & w2 & Hloop1 & Hrun).
  apply bind_ok_inv in Hrun as (n2 & w3 & Hn2 & Hrun).
  apply bind_ok_inv in Hrun as (i2 & w4 & Hloop2 & Hrun).
  do 2 (erewrite bind_run in Hrun by reflexivity).
  unfold mret, M_ret in Hrun. injection Hrun as _ <-.
  unfold lift, floordiv in Hn1, Hn2. simpl in Hn1, Hn2. fold cfg in Hn1, Hn2.
  destruct (decide (batch_size cfg = 0%Z)) as [|Hbs]; [done|].
  injection Hn1 as <- <-. simpl in Hn2.
  destruct (decide (discriminator_update_freq cfg = 0%Z)) as [|Hfreq];
    [done|].
  injection Hn2 as <- <-.
  apply (for_range_grows 1 0) in Hloop1.
  2:{ intros a v a' v' Hbody.
      apply bind_ok_inv in Hbody as (d & v1 & Hs & Hbody).
      apply bind_ok_inv in Hbody as (i & v2 & Hu & Hbody).
      injection Hbody as _ <-.
      apply sample_buffer_grows in Hs. apply update_policy_grows in Hu.
      apply (grows_trans 0 0 1 0 _ _ _ Hs Hu). }
  apply (for_range_grows 0 1) in Hloop2.
  2:{ intros a v a' v' Hbody.
      apply bind_ok_inv in Hbody as (d & v1 & Hs & Hbody).
      apply bind_ok_inv in Hbody as (e & v2 & He & Hbody).
      apply bind_ok_inv in Hbody as (i & v3 & Hu & Hbody).
      injection Hbody as _ <-.
      apply sample_buffer_grows in Hs. apply next_expert_data_grows in He.
      apply update_discriminator_grows in Hu.
      apply (grows_trans 0 0 0 1 _ _ _ Hs).
      apply (grows_trans 0 0 0 1 _ _ _ He Hu). }
  destruct Hloop1 as (Hc1 & evs1 & He1 & Hp1 & Hd1).
  destruct Hloop2 as (Hc2 & evs2 & He2 & Hp2 & Hd2).
  simpl in *.
  do 2 (split; [done|]). split; [unfold cfg; congruence|].
  split; [by eexists|].
  exists evs1, evs2. rewrite He2, He1, <- !(assoc_L (++)).
  split; [done|]. rewrite Hp1, Hd1, Hp2, Hd2. lia.
Qed.

End train_more.

(** X12 at the small agent with the batch size set to 0. *)
Lemma train_zero_batch_size_witness :
  (@gail_agent.train example.toy
     {| gail_agent.self :=
          example.toy_agent
            {| gail_agent.gail_no_action := false;
               gail_agent.gail_vanilla_reward := true;
               gail_agent.rl_discount_factor := 1;
               gail_agent.gae_lambda := 1;
               gail_agent.batch_size := 0;
               gail_agent.ppo_epoch := 2;
               gail_agent.rollout_length := 1;
               gail_agent.discriminator_update_freq := 1;
               gail_agent.entropy_loss_coeff := 0;
               gail_agent.ppo_clip := 0.2;
               gail_agent.value_loss_coeff := 1;
               gail_agent.gail_entropy_loss_coeff := 0 |}
            5 0 [example.toy_transitions];
        gail_agent.events := [] |}).1
  = py.Raise py.ZeroDivisionError.
Proof.
  eapply (@train_zero_batch_size example.toy). reflexivity.
Defined.

Section toy_round_returns.
Import py gail_agent example.
#[local] Existing Instance toy.

(** The round of the small agent returns. *)
Lemma train_toy_returns : ∃ info w', train toy_world = (Ok info, w').
Proof.
  destruct (toy_policy_iteration 5 [@old_actor_synced toy] Info_new)
    as [i1 H1].
  destruct (toy_policy_iteration (5 + 1)
              [@old_actor_synced toy; policy_update_started;
               @old_actor_read toy 5] i1)
    as [i2 H2].
  destruct (toy_discriminator_iteration (5 + 1 + 1)
              [@old_actor_synced toy; policy_update_started;
               @old_actor_read toy 5;
               policy_update_started; @old_actor_read toy 5] i2)
    as [i3 H3].
  unfold train, toy_world.
  do 5 (erewrite bind_run by reflexivity).
  erewrite (bind_run (for_range _ _ _)).
  2:{ change (Z.to_nat _) with 2%nat. cbn [for_range].
      erewrite bind_run by exact H1. erewrite bind_run by exact H2.
      reflexivity. }
  erewrite bind_run by reflexivity.
  erewrite (bind_run (for_range _ _ _)).
  2:{ change (Z.to_nat _) with 1%nat. cbn [for_range].
      erewrite bind_run by exact H3. reflexivity. }
  erewrite bind_run by reflexivity.
  erewrite bind_run by reflexivity.
  by eexists _, _.
Qed.

End toy_round_returns.

(** X13 at the round of the small agent. *)
Lemma train_returns_witness :
  ∃ info w',
    @gail_agent.train example.toy example.toy_world = (py.Ok info, w') ∧
    ∃ evs1 evs2,
      gail_agent.events w' = [gail_agent.old_actor_synced] ++ evs1 ++ evs2 ∧
      round_log.count round_log.is_policy_update evs1 = 2%nat ∧
      round_log.count round_log.is_discriminator_update evs2 = 1%nat.
Proof.
  destruct train_toy_returns as (info & w' & Hrun).
  destruct (@train_returns example.toy example.toy_world info w' Hrun)
    as (_ & _ & _ & _ & evs1 & evs2 & Hev & Hp1 & _ & _ & Hd2).
  exists info, w'. split; [exact Hrun|].
  exists evs1, evs2. split; [exact Hev|]. split; [exact Hp1|exact Hd2].
Defined.

(** ** Storing episodes and checkpoints *)

Section storage_facts.
Import py gail_agent gail_agent_storage.
Context `{Storage}.
Implicit Types (w : World) (ckpt : gmap string StateDict).

Ltac run_method :=
  unfold mbind, M_bind, modify, emit, get, lift, mret, M_ret, getitem;
  simpl.

(** X14.  A checkpoint round trip: when the networks, the optimisers and
    the normaliser load what their own [state_dict] returns, loading
    [state_dict()] of a saved agent into any agent returns and gives it the
    actor, the critic, the discriminator, the three optimisers and the
    observation normaliser of the saved agent; its configuration, its old
    actor, its expert data and its buffer are not part of the checkpoint and
    stay as they were. *)
Theorem load_state_dict_round_trip (saved : GAILAgent) w :
  (∀ x y, actor_load_state_dict x (actor_state_dict y) true = Ok y) →
  (∀ x y, critic_load_state_dict x (critic_state_dict y) = Ok y) →
  (∀ x y, discriminator_load_state_dict x (discriminator_state_dict y) = Ok y) →
  (∀ x y, optim_load_state_dict x (optim_state_dict y) = Ok y) →
  (∀ x y, ob_norm_load_state_dict x (ob_norm_state_dict y) = Ok y) →
  load_state_dict (state_dict saved) w =
    (Ok (),
     {| self :=
          {| _config := _config (self w);
             _ob_norm := _ob_norm saved;
             _actor := _actor saved;
             _old_actor := _old_actor (self w);
             _critic := _critic saved;
             _discriminator := _discriminator saved;
             _actor_optim := _actor_optim saved;
             _critic_optim := _critic_optim saved;
             _discriminator_optim := _discriminator_optim saved;
             _data_loader := _data_loader (self w);
             _data_iter := _data_iter (self w);
             _buffer := _buffer (self w) |};
        events := events w |}).
Proof.
  intros Ha Hc Hd Ho Hn. unfold load_state_dict.
  assert (state_dict saved !! "critic_state_dict"
          = Some (critic_state_dict (_critic saved))) as Hk1 by reflexivity.
  assert (state_dict saved !! "actor_state_dict"
          = Some (actor_state_dict (_actor saved))) as Hk2 by reflexivity.
  assert (state_dict saved !! "discriminator_state_dict"
          = Some (discriminator_state_dict (_discriminator saved))) as Hk3
    by reflexivity.
  assert (state_dict saved !! "ob_norm_state_dict"
          = Some (ob_norm_state_dict (_ob_norm saved))) as Hk4 by reflexivity.
  assert (state_dict saved !! "actor_optim_state_dict"
          = Some (optim_state_dict (_actor_optim saved))) as Hk5
    by reflexivity.
  assert (state_dict saved !! "critic_optim_state_dict"
          = Some (optim_state_dict (_critic_optim saved))) as Hk6
    by reflexivity.
  assert (state_dict saved !! "discriminator_optim_state_dict"
          = Some (optim_state_dict (_discriminator_optim saved))) as Hk7
    by reflexivity.
  generalize dependent (state_dict saved). intros ckpt Hk1 Hk2 Hk3 Hk4 Hk5 Hk6 Hk7.
  rewrite Hk1. run_method.
  rewrite Hk2. simpl. rewrite Ha. simpl.
  rewrite Hk1. simpl. rewrite Hc. simpl.
  rewrite Hk3. simpl. rewrite Hd. simpl.
  rewrite Hk4. simpl. rewrite Hn. simpl.
  rewrite Hk5. simpl. rewrite Ho. simpl.
  rewrite Hk6. simpl. rewrite Ho. simpl.
  rewrite Hk7. simpl. rewrite Ho. simpl.
  destruct w as [s evs]. done.
Qed.

(** X15.  A checkpoint without a critic state (one from behaviour-cloning
    pretraining) is loaded in part: the actor, non-strictly, and the
    observation normaliser are replaced, and the critic, the discriminator,
    the optimisers and everything else stay as they were, whatever else the
    checkpoint holds. *)
Theorem load_state_dict_actor_only ckpt w (actor_state norm_state : StateDict)
    (actor' : Actor) (ob_norm' : ObNorm) :
  ckpt !! "critic_state_dict" = None →
  ckpt !! "actor_state_dict" = Some actor_state →
  ckpt !! "ob_norm_state_dict" = Some norm_state →
  actor_load_state_dict (_actor (self w)) actor_state false = Ok actor' →
  ob_norm_load_state_dict (_ob_norm (self w)) norm_state = Ok ob_norm' →
  load_state_dict ckpt w =
    (Ok (),
     {| self := set_ob_norm ob_norm' (set_actor actor' (self w));
        events := events w |}).
Proof.
  intros Hc Ha Hn Hla Hln. unfold load_state_dict. rewrite Hc. run_method.
  rewrite Ha. simpl. rewrite Hla. simpl. rewrite Hn. simpl. rewrite Hln. done.
Qed.

(** X16.  Loading is not atomic.  Without an actor state in the checkpoint
    [load_state_dict] raises [KeyError] and changes nothing; with the states
    of the actor, the critic, the discriminator and the normaliser but without
    the state of the actor's optimiser it raises [KeyError] after it has
    replaced the three networks and the normaliser, which stay replaced. *)
Theorem load_state_dict_key_errors ckpt w :
  (ckpt !! "actor_state_dict" = None →
   load_state_dict ckpt w = (Raise KeyError, w)) ∧
  (∀ sa sc sd sn actor' critic' discriminator' ob_norm',
     ckpt !! "actor_state_dict" = Some sa →
     ckpt !! "critic_state_dict" = Some sc →
     ckpt !! "discriminator_state_dict" = Some sd →
     ckpt !! "ob_norm_state_dict" = Some sn →
     ckpt !! "actor_optim_state_dict" = None →
     actor_load_state_dict (_actor (self w)) sa true = Ok actor' →
     critic_load_state_dict (_critic (self w)) sc = Ok critic' →
     discriminator_load_state_dict (_discriminator (self w)) sd
       = Ok discriminator' →
     ob_norm_load_state_dict (_ob_norm (self w)) sn = Ok ob_norm' →
     load_state_dict ckpt w =
       (Raise KeyError,
        {| self :=
             set_ob_norm ob_norm'
               (set_discriminator discriminator'
                  (set_critic critic' (set_actor actor' (self w))));
           events := events w |})).
Proof.
  split.
  - intros Ha. unfold load_state_dict.
    destruct (ckpt !! "critic_state_dict"); run_method; by rewrite Ha.
  - intros sa sc sd sn actor' critic' discriminator' ob_norm'
      Ha Hc Hd Hn Ho Hla Hlc Hld Hln.
    unfold load_state_dict. rewrite Hc. run_method.
    rewrite Ha. simpl. rewrite Hla. simpl.
    rewrite Hc. simpl. rewrite Hlc. simpl.
    rewrite Hd. simpl. rewrite Hld. simpl.
    rewrite Hn. simpl. rewrite Hln. simpl.
    rewrite Ho. done.
Qed.

(** X17.  [store_episode] stores nothing when [_compute_gae] raises, and
    the exception is the one of [_compute_gae].  When it returns, what it
    handed to the buffer is the rollout with its observations, actions, done
    flags and rewards as given and with as many advantages and as many returns
    as done flags; nothing of the agent but the buffer has changed. *)
Theorem store_episode_outcomes (rollouts : Rollouts Obs Acs) w :
  (∀ e, _compute_gae (self w) rollouts = Raise e →
        store_episode rollouts w = (Raise e, w)) ∧
  (∀ w', store_episode rollouts w = (Ok (), w') →
     ∃ rollouts',
       _compute_gae (self w) rollouts = Ok rollouts' ∧
       buffer_store_episode (_buffer (self w)) rollouts'
         = Ok (_buffer (self w')) ∧
       self w' =
         set_data (_data_loader (self w)) (_data_iter (self w))
           (_buffer (self w')) (self w) ∧
       events w' = events w ∧
       ob rollouts' = ob rollouts ∧ ac rollouts' = ac rollouts ∧
       done rollouts' = done rollouts ∧ rew rollouts' = rew rollouts ∧
       length (adv rollouts') = length (done rollouts) ∧
       length (ret rollouts') = length (done rollouts)).
Proof.
  split.
  - intros e He. unfold store_episode. run_method. by rewrite He.
  - intros w'. unfold store_episode. run_method.
    destruct (_compute_gae (self w) rollouts) as [rollouts'|e] eqn:Hgae;
      [|done]. simpl.
    destruct (buffer_store_episode _ _) as [buffer|e] eqn:Hstore; [|done].
    simpl. intros [= <-]. exists rollouts'. simpl.
    do 4 (split; [done|]).
    unfold _compute_gae in Hgae.
    destruct (decide _) as [HV|]; [|done].
    destruct (gae_advantages _ _ _ _) as [adv_|e] eqn:Hadv; [|done].
    simpl in Hgae. injection Hgae as <-. simpl. do 4 (split; [done|]).
    destruct (decide (length (done rollouts) ≤ length (rew rollouts))%nat)
      as [Hr|Hr].
    + rewrite gae_advantages_spec in Hadv by (done || lia).
      injection Hadv as <-.
      rewrite length_standardize, length_zip_with, length_take,
        advantage_length by (done || lia).
      lia.
    + rewrite gae_advantages_short_rewards in Hadv by lia. done.
Qed.

End storage_facts.

(** X14 at the storage of the small agent: the agent with actor 7 is saved
    and loaded into the agent with actor 5 and old actor 0. *)
Lemma load_state_dict_round_trip_witness :
  gail_agent._actor
    (gail_agent.self
       (@gail_agent_storage.load_state_dict example.toy
          example_storage.toy_storage
          (@gail_agent_storage.state_dict example.toy
             example_storage.toy_storage
             (example.toy_agent (example.toy_config 1 1 true false) 7 7 []))
          example.toy_world).2) = 7.
Proof.
  rewrite (@load_state_dict_round_trip example.toy example_storage.toy_storage
             (example.toy_agent (example.toy_config 1 1 true false) 7 7 [])
             example.toy_world).
  - reflexivity.
  - reflexivity.
  - intros [] []. reflexivity.
  - intros [] []. reflexivity.
  - intros [] []. reflexivity.
  - intros [] []. reflexivity.
Defined.

(** X15 at a checkpoint that holds an actor state and a normaliser state
    only. *)
Lemma load_state_dict_actor_only_witness :
  @gail_agent_storage.load_state_dict example.toy example_storage.toy_storage
    {[ "actor_state_dict" := 9; "ob_norm_state_dict" := 0 ]}
    example.toy_world
  = (py.Ok (),
     {| gail_agent.self :=
          @gail_agent_storage.set_ob_norm example.toy ()
            (@gail_agent.set_actor example.toy 9
               (gail_agent.self example.toy_world));
        gail_agent.events := [] |}).
Proof.
  apply (@load_state_dict_actor_only example.toy example_storage.toy_storage
           {[ "actor_state_dict" := 9; "ob_norm_state_dict" := 0 ]}
           example.toy_world 9 0 9 ());
    reflexivity.
Defined.

(** ** The tanh of the action distributions *)

Section tanh_facts.
Import py distributions.

Lemma tanh_exp x : tanh x = 1 - 2 / (exp (2 * x) + 1).
Proof.
  unfold tanh, sinh, cosh.
  replace (2 * x) with (x + x) by lra. rewrite exp_plus, exp_Ropp.
  pose proof (exp_pos x). field. split; nra.
Qed.

Lemma tanh_bounds x : -1 < tanh x < 1.
Proof.
  rewrite tanh_exp. pose proof (exp_pos (2 * x)) as Hu.
  set (u := exp (2 * x)) in *.
  assert (0 < / (u + 1)) as Hi by (apply Rinv_0_lt_compat; lra).
  assert (/ (u + 1) * (u + 1) = 1) as Hiu by (field; lra).
  unfold Rdiv. nra.
Qed.

Lemma tanh_increasing x y : x < y → tanh x < tanh y.
Proof.
  intros Hxy. rewrite !tanh_exp.
  pose proof (exp_pos (2 * x)) as Hu.
  assert (exp (2 * x) < exp (2 * y)) as Huv by (apply exp_increasing; lra).
  assert (/ (exp (2 * y) + 1) < / (exp (2 * x) + 1)) as Hinv.
  { apply Rinv_lt_contravar; nra. }
  unfold Rdiv. lra.
Qed.

Lemma tanh_le x y : x <= y → tanh x <= tanh y.
Proof.
  intros [Hlt| ->]; [|lra]. left. by apply tanh_increasing.
Qed.

Lemma tanh_atanh y : -1 < y < 1 → tanh (torch.atanh y) = y.
Proof.
  intros Hy. rewrite tanh_exp. unfold torch.atanh.
  replace (2 * (1 / 2 * ln ((1 + y) / (1 - y)))) with (ln ((1 + y) / (1 - y)))
    by lra.
  rewrite exp_ln by (apply Rdiv_lt_0_compat; lra).
  field. lra.
Qed.

Lemma atanh_increasing a b :
  -1 < a → a < b → b < 1 → torch.atanh a < torch.atanh b.
Proof.
  intros Ha Hab Hb. unfold torch.atanh.
  assert (ln ((1 + a) / (1 - a)) < ln ((1 + b) / (1 - b))); [|lra].
  apply ln_increasing; [apply Rdiv_lt_0_compat; lra|].
  assert ((1 + b) / (1 - b) - (1 + a) / (1 - a)
          = 2 * (b - a) / ((1 - a) * (1 - b))) as Hd by (field; lra).
  assert (0 < 2 * (b - a) / ((1 - a) * (1 - b))); [|lra].
  apply Rdiv_lt_0_compat; nra.
Qed.

Lemma atanh_le a b :
  -1 < a → a <= b → b < 1 → torch.atanh a <= torch.atanh b.
Proof.
  intros Ha [Hlt| ->] Hb; [|lra]. left. by apply atanh_increasing.
Qed.

Lemma atanh_opp y : -1 < y < 1 → torch.atanh (- y) = - torch.atanh y.
Proof.
  intros Hy. unfold torch.atanh.
  replace ((1 + - y) / (1 - - y)) with (/ ((1 + y) / (1 - y))) by (field; lra).
  rewrite ln_Rinv by (apply Rdiv_lt_0_compat; lra). lra.
Qed.

Lemma clamp_range lo hi x : lo <= hi → lo <= torch.clamp lo hi x <= hi.
Proof.
  intros Hlh. unfold torch.clamp, Rmin, Rmax.
  repeat destruct (Rle_dec _ _); lra.
Qed.

Lemma clamp_inside lo hi x : lo <= x <= hi → torch.clamp lo hi x = x.
Proof.
  intros Hx. unfold torch.clamp, Rmin, Rmax.
  repeat destruct (Rle_dec _ _); lra.
Qed.

Lemma clamp_idempotent lo hi x :
  lo <= hi → torch.clamp lo hi (torch.clamp lo hi x) = torch.clamp lo hi x.
Proof. intros Hlh. by apply clamp_inside, clamp_range. Qed.

Lemma exp_double a b c :
  0 <= b → b <= exp a → c <= b * b → c <= exp (2 * a).
Proof.
  intros Hb Hba Hc. replace (2 * a) with (a + a) by lra. rewrite exp_plus. nra.
Qed.

Lemma clamp_narrower lo hi lo' hi' x :
  lo' <= lo → lo <= hi → hi <= hi' →
  torch.clamp lo hi (torch.clamp lo' hi' x) = torch.clamp lo hi x.
Proof.
  intros Hlo Hlh Hhi. unfold torch.clamp, Rmin, Rmax.
  repeat destruct (Rle_dec _ _); lra.
Qed.

(** [e^18] exceeds [2^25], which is [(1 + c) / (1 - c) + 1] for the bound
    [c = 1 - 2^-24] of the clamp. *)
Lemma exp_18_lower : 33554432 < exp 18.
Proof.
  pose proof (exp_ineq1_le (1 / 64)) as H64.
  assert (1.0314 <= exp (2 * (1 / 64))) as H32
    by (apply (exp_double _ (65 / 64)); lra).
  replace (2 * (1 / 64)) with (1 / 32) in H32 by lra.
  assert (1.0637 <= exp (2 * (1 / 32))) as H16
    by (apply (exp_double _ 1.0314); lra).
  replace (2 * (1 / 32)) with (1 / 16) in H16 by lra.
  assert (1.1314 <= exp (2 * (1 / 16))) as H8
    by (apply (exp_double _ 1.0637); lra).
  replace (2 * (1 / 16)) with (1 / 8) in H8 by lra.
  assert (1.28 <= exp (2 * (1 / 8))) as H4
    by (apply (exp_double _ 1.1314); lra).
  replace (2 * (1 / 8)) with (1 / 4) in H4 by lra.
  assert (1.638 <= exp (2 * (1 / 4))) as H2
    by (apply (exp_double _ 1.28); lra).
  replace (2 * (1 / 4)) with (1 / 2) in H2 by lra.
  assert (2.683 <= exp (2 * (1 / 2))) as H1
    by (apply (exp_double _ 1.638); lra).
  replace (2 * (1 / 2)) with 1 in H1 by lra.
  assert (7.198 <= exp (2 * 1)) as He2 by (apply (exp_double _ 2.683); lra).
  replace (2 * 1) with 2 in He2 by lra.
  assert (51.81 <= exp (2 * 2)) as He4 by (apply (exp_double _ 7.198); lra).
  replace (2 * 2) with 4 in He4 by lra.
  assert (2684 <= exp (2 * 4)) as He8 by (apply (exp_double _ 51.81); lra).
  replace (2 * 4) with 8 in He8 by lra.
  assert (7203000 <= exp (2 * 8)) as He16 by (apply (exp_double _ 2684); lra).
  replace (2 * 8) with 16 in He16 by lra.
  replace 18 with (16 + 2) by lra. rewrite exp_plus.
  pose proof (Rmult_le_compat 7203000 (exp 16) 7.198 (exp 2)). lra.
Qed.

End tanh_facts.

Section tanh_distributions.
Import py distributions.
Implicit Types (mean std value : torch.Tensor).

(** [1 - 2^-24] is the float32 nearest to [0.99999997]: the float32 numbers
    between 1/2 and 1 are [2^-24] apart, and of the two around the literal,
    [1 - 2^-24] and 1, the first is nearer. *)
Lemma float32_below_one_nearest :
  torch.float32_below_one < 0.99999997 < 1
  ∧ 0.99999997 - torch.float32_below_one < 1 - 0.99999997.
Proof.
  unfold torch.float32_below_one.
  replace (2 ^ 24) with 16777216 by (simpl; lra).
  assert (0.0000000596 < / 16777216 < 0.0000000597) as Hinv.
  { split.
    - apply Rmult_lt_reg_r with 16777216; [lra|].
      rewrite Rinv_l by lra. lra.
    - apply Rmult_lt_reg_r with 16777216; [lra|].
      rewrite Rinv_l by lra. lra. }
  lra.
Qed.

Lemma float32_below_one_bounds : 0 < torch.float32_below_one < 1.
Proof. pose proof float32_below_one_nearest. lra. Qed.

Lemma atanh_bound_lt_9 : torch.atanh torch.float32_below_one < 9.
Proof.
  unfold torch.atanh, torch.float32_below_one.
  assert (ln ((1 + (1 - / 2 ^ 24)) / (1 - (1 - / 2 ^ 24))) < 18); [|lra].
  replace ((1 + (1 - / 2 ^ 24)) / (1 - (1 - / 2 ^ 24)))
    with (2 * 2 ^ 24 - 1) by (field; lra).
  rewrite <- (ln_exp 18).
  pose proof exp_18_lower.
  replace (2 ^ 24) with 16777216 by (simpl; lra).
  apply ln_increasing; lra.
Qed.

Lemma inverse_range y :
  - torch.atanh torch.float32_below_one <= TanhTransform._inverse y
    <= torch.atanh torch.float32_below_one.
Proof.
  unfold TanhTransform._inverse. cbv zeta.
  pose proof float32_below_one_bounds as Hc.
  pose proof (clamp_range (- torch.float32_below_one) torch.float32_below_one
                y ltac:(lra)) as Hy.
  set (y' := torch.clamp _ _ y) in *.
  pose proof (atanh_le (- torch.float32_below_one) y'
                ltac:(lra) ltac:(lra) ltac:(lra)) as Hlo.
  pose proof (atanh_le y' torch.float32_below_one
                ltac:(lra) ltac:(lra) ltac:(lra)) as Hhi.
  rewrite atanh_opp in Hlo by lra. lra.
Qed.

Lemma inverse_range_10 y : -10 < TanhTransform._inverse y < 10.
Proof. pose proof (inverse_range y). pose proof atanh_bound_lt_9. lra. Qed.

(** X18.  [TanhTransform._inverse] undoes the tanh on the clamped range,
    whose bound is [c = 1 - 2^-24], the float32 that [0.99999997] is: the
    tanh of the inverse of [y] is [y] clamped to [-c, c], so [y] itself for
    [y] in [-c, c]; and the inverse of every [y], also of 1, -1 and beyond,
    lies between [-atanh c] and [atanh c], which is below 9 (the inverse of
    [tanh 9] is [atanh c], not 9). *)
Theorem TanhTransform_inverse_round_trip (y : R) :
  let c := torch.float32_below_one in
  tanh (TanhTransform._inverse y) = torch.clamp (- c) c y
  ∧ (- c <= y <= c → tanh (TanhTransform._inverse y) = y)
  ∧ - torch.atanh c <= TanhTransform._inverse y <= torch.atanh c
  ∧ torch.atanh c < 9
  ∧ TanhTransform._inverse (tanh 9) = torch.atanh c.
Proof.
  intros c. pose proof float32_below_one_bounds as Hc. fold c in Hc.
  assert (tanh (TanhTransform._inverse y) = torch.clamp (- c) c y) as Hround.
  { unfold TanhTransform._inverse. cbv zeta. fold c.
    pose proof (clamp_range (- c) c y ltac:(lra)).
    apply tanh_atanh. lra. }
  split; [done|split; [|split; [|split]]].
  - intros Hy. rewrite Hround. by apply clamp_inside.
  - apply inverse_range.
  - apply atanh_bound_lt_9.
  - assert (c < tanh 9) as Hlt.
    { rewrite <- (tanh_atanh c) by lra.
      apply tanh_increasing, atanh_bound_lt_9. }
    unfold TanhTransform._inverse. cbv zeta. fold c. f_equal.
    pose proof (tanh_bounds 9).
    unfold torch.clamp, Rmin, Rmax. repeat destruct (Rle_dec _ _); lra.
Qed.

Lemma broadcast_tensors_Forall (P : R → Prop) (a b a' b' : torch.Tensor) :
  torch.broadcast_tensors a b = Some (a', b') →
  (Forall P a → Forall P a') ∧ (Forall P b → Forall P b').
Proof.
  unfold torch.broadcast_tensors. intros Hb.
  destruct (decide (length a = length b)).
  { by injection Hb as <- <-. }
  destruct a as [|x [|x' a]], b as [|y [|y' b]]; simplify_eq/=.
  all: split; intros HP; try done.
  all: apply Forall_cons in HP as [Hx _].
  all: repeat constructor; try done.
  all: by apply Forall_replicate.
Qed.

(** X19.  The [mode()] of every [TanhNormal] that was constructed lies
    between [tanh (-9)] and [tanh 9] in each element, so strictly inside
    (-1, 1), whatever the mean. *)
Theorem TanhNormal_mode_bounded mean std (event_dim : nat) (d : TanhNormal.t) :
  TanhNormal.__init__ mean std event_dim = Ok d →
  Forall (λ y, tanh (-9) <= y <= tanh 9 ∧ -1 < y < 1) (TanhNormal.mode d).
Proof.
  unfold TanhNormal.__init__, TanhNormal_.__init__,
    torch_distributions.Normal.__init__. intros Hd.
  destruct (torch.broadcast_tensors _ std) as [[l s]|] eqn:Hb; [|done].
  simpl in Hd.
  destruct (forallb _ s); [|done]. simpl in Hd.
  unfold torch_distributions.Independent.__init__ in Hd.
  destruct (decide (event_dim ≤ 1)%nat); [|done]. injection Hd as <-.
  unfold TanhNormal.mode, TanhNormal.mean, TanhNormal_.mean. simpl.
  apply (broadcast_tensors_Forall (λ m, -9 <= m <= 9)) in Hb as [Hl _].
  rewrite map_fmap. apply Forall_fmap.
  eapply Forall_impl; [apply Hl|].
  - rewrite map_fmap. apply Forall_fmap, Forall_true. intros m. simpl.
    apply clamp_range. lra.
  - intros m [Hlo Hhi]. simpl.
    pose proof (tanh_bounds m). split; [|done].
    split; by apply tanh_le.
Qed.

(** X20.  What a [TanhIdentity] returns, from [mode], [sample] or [rsample],
    lies between -1 and 1 in each element. *)
Theorem TanhIdentity_in_range (self : TanhIdentity.t) :
  Forall (λ y, -1 <= y <= 1) (TanhIdentity.mode self)
  ∧ Forall (λ y, -1 <= y <= 1) (TanhIdentity.sample self)
  ∧ Forall (λ y, -1 <= y <= 1) (TanhIdentity.rsample self).
Proof.
  assert (Forall (λ y, -1 <= y <= 1) (map tanh (TanhIdentity.mean self))).
  { rewrite map_fmap. apply Forall_fmap, Forall_true. intros m. simpl.
    pose proof (tanh_bounds m). lra. }
  done.
Qed.

End tanh_distributions.

(** X19 at the mean [0; 10], of which 10 is clamped to 9. *)
Lemma TanhNormal_mode_bounded_witness :
  Forall (λ y, tanh (-9) <= y <= tanh 9 ∧ -1 < y < 1)
    (distributions.TanhNormal.mode
       {| torch_distributions.Independent.base_dist :=
            {| distributions.TanhNormal_.base_dist :=
                 {| torch_distributions.Normal.loc :=
                      map (torch.clamp (-9) 9) [0; 10];
                    torch_distributions.Normal.scale := [1; 2] |} |};
          torch_distributions.Independent.reinterpreted_batch_ndims := 0 |}).
Proof.
  apply (TanhNormal_mode_bounded [0; 10] [1; 2] 0).
  unfold distributions.TanhNormal.__init__, distributions.TanhNormal_.__init__,
    torch_distributions.Normal.__init__. simpl.
  rewrite !bool_decide_eq_true_2 by lra. reflexivity.
Defined.

Section tanh_log_prob.
Import py distributions.

(** The logarithm of the Jacobian of the tanh, where the softplus is on its
    logarithmic branch. *)
Lemma log_abs_det_jacobian_tanh (x y : R) :
  -10 < x < 10 →
  TanhTransform.log_abs_det_jacobian x y = ln (1 - tanh x ^ 2).
Proof.
  intros Hx.
  unfold TanhTransform.log_abs_det_jacobian,
    torch_distributions.TanhTransform.log_abs_det_jacobian, torch.softplus.
  destruct (decide (20 < -2 * x)) as [Hbig|_]; [lra|].
  rewrite tanh_exp.
  replace (-2 * x) with (- (2 * x)) by lra. rewrite exp_Ropp.
  pose proof (exp_pos (2 * x)) as Hu.
  assert (ln (exp (2 * x)) = 2 * x) as Hlnu by apply ln_exp.
  set (u := exp (2 * x)) in *.
  assert (0 < / u) as Hiu by (by apply Rinv_0_lt_compat).
  assert (0 < / (u + 1)) as Hiu1 by (apply Rinv_0_lt_compat; lra).
  replace (1 - (1 - 2 / (u + 1)) ^ 2)
    with (2 * 2 * u * (/ (u + 1) * / (u + 1))) by (field; lra).
  replace (1 + / u) with ((u + 1) * / u) by (field; lra).
  rewrite !ln_mult; try lra; try nra.
  rewrite !ln_Rinv by lra. lra.
Qed.

(** X21.  [TanhNormal_.log_prob] on a value of the shape of the parameters
    is, in each element, the log-density of the tanh of the normal variable at
    the value clamped to [-c, c], with [c = 1 - 2^-24] the float32 that
    [0.99999997] is: the normal log-density at the atanh of the clamped
    value, less [ln (1 - y²)].  So a value at or beyond [c] or [-c] has the
    log-probability of the bound, and the clamped value itself has the same
    log-probability. *)
Theorem TanhNormal__log_prob_density (self : TanhNormal_.t) (value : torch.Tensor) :
  let loc := torch_distributions.Normal.loc (TanhNormal_.base_dist self) in
  let scale := torch_distributions.Normal.scale (TanhNormal_.base_dist self) in
  let clamp :=
    torch.clamp (- torch.float32_below_one) torch.float32_below_one in
  length scale = length loc →
  length value = length loc →
  TanhNormal_.log_prob self value =
    Ok (zip_with
          (λ v ls, reference.tanh_normal_log_density ls.1 ls.2 (clamp v))
          value (zip loc scale))
  ∧ TanhNormal_.log_prob self (map clamp value) = TanhNormal_.log_prob self value.
Proof.
  destruct self as [[loc scale]]. simpl. intros Hs Hv.
  pose proof float32_below_one_nearest as Hnear.
  pose proof float32_below_one_bounds as Hc.
  set (c := torch.float32_below_one) in *.
  assert (∀ value, length value = length loc →
            TanhNormal_.log_prob
              {| TanhNormal_.base_dist :=
                   {| torch_distributions.Normal.loc := loc;
                      torch_distributions.Normal.scale := scale |} |} value =
            Ok (zip_with
                  (λ v ls, reference.tanh_normal_log_density ls.1 ls.2
                             (torch.clamp (- c) c v))
                  value (zip loc scale))) as Hlp.
  { clear value Hv. intros value Hv.
    unfold TanhNormal_.log_prob, torch_distributions.Normal.log_prob.
    cbv zeta. simpl.
    unfold torch.broadcast_tensors at 1. rewrite length_map.
    destruct (decide (length value = length loc)) as [_|]; [|done]. simpl.
    rewrite binary_same_length
      by (repeat (rewrite length_map || rewrite length_zip_with); lia).
    simpl.
    rewrite binary_same_length
      by (repeat (rewrite length_map || rewrite length_zip_with); lia).
    simpl.
    rewrite binary_same_length
      by (repeat (rewrite length_map || rewrite length_zip_with); lia).
    simpl.
    rewrite binary_same_length
      by (repeat (rewrite length_map || rewrite length_zip_with); lia).
    simpl. f_equal.
    revert loc scale Hs Hv.
    induction value as [|v value IH]; intros [|l loc] [|s scale] Hs Hv;
      simplify_eq/=; [done|].
    f_equal; [|by apply IH].
    unfold reference.tanh_normal_log_density.
    rewrite (log_abs_det_jacobian_tanh _ _ (inverse_range_10 _)).
    pose proof (clamp_range (- c) c v ltac:(lra)) as Hcv.
    unfold TanhTransform._inverse. cbv zeta. fold c.
    rewrite (clamp_narrower (- c) c (-0.99999997) 0.99999997) by lra.
    rewrite tanh_atanh by lra. unfold Rdiv. cbn [pow]. ring. }
  split; [by apply Hlp|].
  rewrite !Hlp by (by rewrite ?length_map). f_equal.
  clear Hlp. revert loc scale Hs Hv.
  induction value as [|v value IH]; intros [|l loc] [|s scale] Hs Hv;
    simplify_eq/=; [done|].
  f_equal; [|by apply IH].
  rewrite clamp_idempotent by lra. done.
Qed.

End tanh_log_prob.

(** X21 at a standard normal base and a value beyond 1. *)
Lemma TanhNormal__log_prob_density_witness :
  distributions.TanhNormal_.log_prob
    {| distributions.TanhNormal_.base_dist :=
         {| torch_distributions.Normal.loc := [0];
            torch_distributions.Normal.scale := [1] |} |} [2]
  = py.Ok [reference.tanh_normal_log_density 0 1
             (torch.clamp (- torch.float32_below_one)
                torch.float32_below_one 2)].
Proof.
  destruct (TanhNormal__log_prob_density
              {| distributions.TanhNormal_.base_dist :=
                   {| torch_distributions.Normal.loc := [0];
                      torch_distributions.Normal.scale := [1] |} |} [2]
              eq_refl eq_refl) as [Hlp _].
  exact Hlp.
Defined.

(** ** The most likely category and the most likely draw *)

Section argmax_facts.
Import py distributions.
Implicit Types (t pre : torch.Tensor).

Lemma argmax_from_spec pre best_i best t :
  pre !! best_i = Some best →
  (∀ j x, pre !! j = Some x → x <= best) →
  (∀ j x, (j < best_i)%nat → pre !! j = Some x → x < best) →
  reference.first_greatest (pre ++ t)
    (torch.argmax_from best_i best (length pre) t).
Proof.
  revert pre best_i best.
  induction t as [|x t IH]; intros pre best_i best Hbest Hle Hlt; simpl.
  - rewrite app_nil_r. by exists best.
  - replace (S (length pre)) with (length (pre ++ [x]))
      by (rewrite length_app; simpl; lia).
    rewrite (cons_middle x pre t), (assoc_L (++)).
    destruct (decide (best < x)) as [Hx|Hx]; apply IH.
    + by rewrite lookup_app_r, Nat.sub_diag by lia.
    + intros j y Hj. apply lookup_app_Some in Hj as [Hj|[_ Hj]].
      * specialize (Hle j y Hj). lra.
      * apply list_lookup_singleton_Some in Hj as [_ <-]. lra.
    + intros j y Hji Hj. rewrite lookup_app_l in Hj by done.
      specialize (Hle j y Hj). lra.
    + rewrite lookup_app_l; [done|]. by eapply lookup_lt_Some.
    + intros j y Hj. apply lookup_app_Some in Hj as [Hj|[_ Hj]].
      * by apply (Hle j y).
      * apply list_lookup_singleton_Some in Hj as [_ <-]. lra.
    + intros j y Hji Hj. apply (Hlt j y Hji).
      rewrite lookup_app_l in Hj; [done|].
      apply lookup_lt_Some in Hbest. lia.
Qed.

Lemma argmax_spec t :
  t ≠ [] → ∃ i, torch.argmax t = Some i ∧ reference.first_greatest t i.
Proof.
  destruct t as [|x t]; [done|]. intros _. eexists. split; [done|].
  apply (argmax_from_spec [x] 0 x t).
  - done.
  - intros [|j] y Hj; simplify_eq/=. lra.
  - intros j y Hj. lia.
Qed.

(** A strictly increasing map of the elements does not move the argmax. *)
Lemma argmax_from_map (f : R → R) best_i best i t :
  (∀ x y, x < y → f x < f y) →
  torch.argmax_from best_i (f best) i (map f t) =
  torch.argmax_from best_i best i t.
Proof.
  intros Hf. revert best_i best i.
  induction t as [|x t IH]; intros best_i best i; simpl; [done|].
  destruct (decide (best < x)) as [Hx|Hx],
    (decide (f best < f x)) as [Hfx|Hfx]; try apply IH.
  - destruct Hfx. by apply Hf.
  - destruct (Rle_lt_or_eq_dec x best ltac:(lra)) as [Hlt| ->]; [|lra].
    specialize (Hf x best Hlt). lra.
Qed.

Lemma argmax_map (f : R → R) t :
  (∀ x y, x < y → f x < f y) → torch.argmax (map f t) = torch.argmax t.
Proof.
  intros Hf. destruct t as [|x t]; [done|]. simpl.
  by rewrite argmax_from_map.
Qed.

Lemma sum_exp_pos t : t ≠ [] → 0 < np.sum (map exp t).
Proof.
  destruct t as [|x t]; [done|]. intros _. simpl.
  pose proof (exp_pos x).
  assert (0 <= np.sum (map exp t)); [|lra].
  apply np_sum_nonneg. rewrite map_fmap. apply Forall_fmap, Forall_true.
  intros y. simpl. left. apply exp_pos.
Qed.

(** X22.  [Categorical.mode] is the first category with the greatest logit:
    for logits over at least one category it returns an index whose logit no
    logit exceeds and which every earlier logit is strictly below. *)
Theorem Categorical_mode_first_greatest (logits : torch.Tensor) :
  logits ≠ [] →
  ∃ i, Categorical.mode (Categorical.__init__ logits) = Some i
       ∧ reference.first_greatest logits i.
Proof.
  intros Hne.
  destruct (argmax_spec logits Hne) as (i & Hi & Hfirst).
  exists i. split; [|done]. rewrite <- Hi.
  unfold Categorical.mode, Categorical.__init__,
    torch_distributions.Categorical.probs,
    torch_distributions.Categorical.__init__. simpl.
  set (lse := torch_distributions.Categorical.logsumexp logits).
  set (S := np.sum _).
  assert (0 < S) as HS.
  { apply sum_exp_pos. by destruct logits. }
  rewrite map_map. apply argmax_map. intros x y Hxy.
  assert (exp (x - lse) < exp (y - lse)) by (apply exp_increasing; lra).
  assert (0 < / S) by (by apply Rinv_0_lt_compat).
  unfold Rdiv. nra.
Qed.

(** X23.  [SampleDist.mode] over a base distribution with batch dimensions
    returns one of the draws, one whose summed log-probability no draw
    exceeds, and the earliest such draw.  Over a base distribution without
    batch dimensions it returns the first draw, whatever the
    log-probabilities of the draws: the sum over no dimension reduces over
    the draws. *)
Theorem SampleDist_mode_most_likely {Sample : Type}
    (self : SampleDist.t Sample) (samples : list Sample) :
  samples ≠ [] →
  (∀ log_prob,
     SampleDist.base_dist_log_prob self = SampleDist.batched log_prob →
     let score s := np.sum (log_prob s) in
     ∃ i s, SampleDist.mode self samples = Some s
            ∧ samples !! i = Some s
            ∧ (∀ s', s' ∈ samples → score s' <= score s)
            ∧ (∀ j s', (j < i)%nat → samples !! j = Some s' →
                 score s' < score s))
  ∧ (∀ log_prob,
       SampleDist.base_dist_log_prob self = SampleDist.unbatched log_prob →
       ∃ s rest, samples = s :: rest ∧ SampleDist.mode self samples = Some s).
Proof.
  intros Hne. split.
  - intros log_prob Hbase score. unfold SampleDist.mode. rewrite Hbase.
    cbv zeta. rewrite map_map. fold score.
    destruct (argmax_spec (map score samples)) as (i & Hi & m & Hm & Hle & Hlt).
    { by destruct samples. }
    rewrite Hi. simpl.
    rewrite map_fmap, list_lookup_fmap in Hm.
    destruct (samples !! i) as [s|] eqn:Hs; [|done].
    simpl in Hm. injection Hm as <-.
    exists i, s. repeat split; [done| |].
    + intros s' Hin. apply list_elem_of_lookup in Hin as [j Hj].
      apply (Hle j). by rewrite map_fmap, list_lookup_fmap, Hj.
    + intros j s' Hji Hj. apply (Hlt j); [done|].
      by rewrite map_fmap, list_lookup_fmap, Hj.
  - intros log_prob Hbase. unfold SampleDist.mode. rewrite Hbase.
    destruct samples as [|s rest]; [done|]. by exists s, rest.
Qed.

End argmax_facts.

(** X22 at four logits of which the second and the third are the greatest. *)
Lemma Categorical_mode_first_greatest_witness :
  ∃ i, distributions.Categorical.mode
         (distributions.Categorical.__init__ [1; 3; 3; 2]) = Some i
       ∧ reference.first_greatest [1; 3; 3; 2] i.
Proof. apply (Categorical_mode_first_greatest [1; 3; 3; 2]). discriminate. Defined.

(** X23 at three draws, scored by themselves: with batch dimensions the
    draw 3 is the mode, without them the first draw, 1. *)
Lemma SampleDist_mode_most_likely_witness :
  (∃ i s,
     distributions.SampleDist.mode
       {| distributions.SampleDist.base_dist_log_prob :=
            distributions.SampleDist.batched (λ s : R, [s; 1]) |}
       [1; 3; 2] = Some s
     ∧ [1; 3; 2] !! i = Some s
     ∧ (∀ s', s' ∈ [1; 3; 2] → np.sum [s'; 1] <= np.sum [s; 1])
     ∧ (∀ j s', (j < i)%nat → [1; 3; 2] !! j = Some s' →
          np.sum [s'; 1] < np.sum [s; 1]))
  ∧ distributions.SampleDist.mode
      {| distributions.SampleDist.base_dist_log_prob :=
           distributions.SampleDist.unbatched (λ s : R, s) |}
      [1; 3; 2] = Some 1.
Proof.
  split.
  - refine (proj1 (SampleDist_mode_most_likely
                     {| distributions.SampleDist.base_dist_log_prob :=
                          distributions.SampleDist.batched (λ s : R, [s; 1]) |}
                     [1; 3; 2] _) _ eq_refl).
    discriminate.
  - destruct (proj2 (SampleDist_mode_most_likely
                       {| distributions.SampleDist.base_dist_log_prob :=
                            distributions.SampleDist.unbatched (λ s : R, s) |}
                       [1; 3; 2] ltac:(discriminate)) _ eq_refl)
      as (s & rest & Heq & Hmode).
    injection Heq as <- <-. exact Hmode.
Defined.

(** ** Mixed distributions at the edges *)

Section mixed_edges.
Import py distributions.
Context {Value : Type}.
Implicit Types (self : MixedDistribution.t Value) (x : gmap string Value).

Lemma sequence_ext {A B} (f g : A → Result B) (l : list A) :
  (∀ a, a ∈ l → f a = g a) → sequence (map f l) = sequence (map g l).
Proof.
  induction l as [|a l IH]; intros Hfg; simpl; [done|].
  rewrite (Hfg a) by left.
  rewrite IH; [done|]. intros b Hb. apply Hfg. by right.
Qed.

Lemma sequence_raises {A B} (f : A → Result B) (l : list A) a e :
  a ∈ l → f a = Raise e → ∃ e', sequence (map f l) = Raise e'.
Proof.
  intros Hin Ha. induction l as [|b l IH]; [by apply elem_of_nil in Hin|].
  simpl. destruct (f b) as [y|e'] eqn:Hb; [|by exists e'].
  apply elem_of_cons in Hin as [->|Hin]; [congruence|].
  destruct (IH Hin) as [e' ->]. by exists e'.
Qed.

Lemma sequence_raises_only {A B} (f : A → Result B) (l : list A) a e :
  a ∈ l → f a = Raise e →
  (∀ b e', b ∈ l → f b = Raise e' → e' = e) →
  sequence (map f l) = Raise e.
Proof.
  intros Hin Ha Honly.
  destruct (sequence_raises f l a e Hin Ha) as [e' He']. rewrite He'.
  f_equal. clear a Hin Ha.
  induction l as [|b l IH]; [done|]. simpl in He'.
  destruct (f b) as [y|e''] eqn:Hb.
  - simpl in He'. destruct (sequence (map f l)) as [ys|e3] eqn:Hseq; [done|].
    simpl in He'. injection He' as ->.
    apply IH; [|done]. intros c e3 Hc. apply Honly. by right.
  - simpl in He'. injection He' as ->. apply (Honly b); [left|done].
Qed.

(** X24.  A [MixedDistribution] over no sub-distribution: [mode()] is the
    empty dictionary and [entropy()] the integer 0 of Python's [sum], while
    [log_prob] raises, as [torch.stack] gets no tensor. *)
Theorem MixedDistribution_empty self x :
  MixedDistribution.base_dists self = [] →
  MixedDistribution.mode self = Ok []
  ∧ MixedDistribution.entropy self = Ok (number 0)
  ∧ MixedDistribution.log_prob self x = Raise RuntimeError.
Proof.
  intros Hnil.
  unfold MixedDistribution.mode, MixedDistribution.entropy,
    MixedDistribution.log_prob.
  by rewrite Hnil.
Qed.

(** X25.  [log_prob] reads the mapping at the names of the
    sub-distributions only: two mappings that agree on these names get the
    same result, whatever else they hold. *)
Theorem MixedDistribution_log_prob_reads_keys self x x' :
  (∀ k, k ∈ (MixedDistribution.base_dists self).*1 → x !! k = x' !! k) →
  MixedDistribution.log_prob self x = MixedDistribution.log_prob self x'.
Proof.
  intros Hagree. unfold MixedDistribution.log_prob.
  erewrite sequence_ext; [done|].
  intros [k d] Hin. simpl. rewrite Hagree; [done|].
  apply list_elem_of_fmap. by exists (k, d).
Qed.

(** X26.  A mapping without a value for the name of a sub-distribution makes
    [log_prob] raise; the exception is [KeyError] when no sub-distribution's
    own [log_prob] raises. *)
Theorem MixedDistribution_log_prob_missing_key self x (k : string) :
  k ∈ (MixedDistribution.base_dists self).*1 →
  x !! k = None →
  (∃ e, MixedDistribution.log_prob self x = Raise e)
  ∧ ((∀ kd v, kd ∈ MixedDistribution.base_dists self →
        ∃ lp, MixedDistribution.dist_log_prob kd.2 v = Ok lp) →
     MixedDistribution.log_prob self x = Raise KeyError).
Proof.
  intros Hk Hx. apply list_elem_of_fmap in Hk as ([k' d] & -> & Hin).
  simpl in Hx. unfold MixedDistribution.log_prob. split.
  - edestruct (sequence_raises
                 (λ kd : string * MixedDistribution.Distribution Value,
                    v ← or_raise KeyError (x !! kd.1);
                    lp ← MixedDistribution.dist_log_prob kd.2 v;
                    Ok (kd.1, lp))
                 (MixedDistribution.base_dists self) (k', d) KeyError)
      as [e He]; [done|by simpl; rewrite Hx|].
    rewrite He. by exists e.
  - intros Hok.
    rewrite (sequence_raises_only _ _ (k', d) KeyError); [done|done| |].
    + simpl. by rewrite Hx.
    + intros [k2 d2] e Hin2. simpl.
      destruct (x !! k2) as [v|]; simpl; [|by intros [= <-]].
      destruct (Hok (k2, d2) v Hin2) as [lp Hlp]. simpl in Hlp.
      by rewrite Hlp.
Qed.

(** X27.  [mode()] of a [MixedDistribution] over distinct names is the
    dictionary of the modes of the sub-distributions, under their names and
    in their order. *)
Theorem MixedDistribution_mode_keys self (modes : list Value) :
  is_dict (MixedDistribution.base_dists self) →
  Forall2 (λ kd v, MixedDistribution.dist_mode kd.2 = Ok v)
    (MixedDistribution.base_dists self) modes →
  MixedDistribution.mode self =
    Ok (zip (MixedDistribution.base_dists self).*1 modes).
Proof.
  intros Hdict Hmodes. unfold MixedDistribution.mode.
  rewrite (sequence_Forall2 _ _
             (zip (MixedDistribution.base_dists self).*1 modes)).
  - simpl. f_equal. apply from_items_is_dict. unfold is_dict.
    rewrite fst_zip; [done|].
    apply Forall2_length in Hmodes. rewrite length_fmap. lia.
  - clear Hdict. induction Hmodes as [|[k d] v dists modes Hv _ IH]; simpl.
    + constructor.
    + constructor; [|done]. simpl in *. by rewrite Hv.
Qed.

End mixed_edges.

(** X24 at the empty mixed distribution and the empty mapping. *)
Lemma MixedDistribution_empty_witness :
  distributions.MixedDistribution.mode
    {| distributions.MixedDistribution.base_dists := [] |}
  = py.Ok ([] : py.OrderedDict R)
  ∧ distributions.MixedDistribution.entropy
      ({| distributions.MixedDistribution.base_dists := [] |}
       : distributions.MixedDistribution.t R)
    = py.Ok (py.number 0)
  ∧ distributions.MixedDistribution.log_prob
      ({| distributions.MixedDistribution.base_dists := [] |}
       : distributions.MixedDistribution.t R) ∅
    = py.Raise py.RuntimeError.
Proof.
  apply (MixedDistribution_empty
           ({| distributions.MixedDistribution.base_dists := [] |}
            : distributions.MixedDistribution.t R) ∅).
  reflexivity.
Defined.

(** X25 at the mixed distribution over [a] and [b] and a mapping that holds
    a third name besides. *)
Lemma MixedDistribution_log_prob_reads_keys_witness :
  distributions.MixedDistribution.log_prob example.toy_mixed
    (<["c" := 7]> example.toy_values)
  = distributions.MixedDistribution.log_prob example.toy_mixed
      example.toy_values.
Proof.
  apply (MixedDistribution_log_prob_reads_keys example.toy_mixed
           (<["c" := 7]> example.toy_values) example.toy_values).
  intros k Hk. apply lookup_insert_ne.
  intros <-. revert Hk. simpl. rewrite !elem_of_cons, elem_of_nil.
  intros [?|[?|[]]]; discriminate.
Defined.

(** X26 at the mixed distribution over [a] and [b] and a mapping without
    [b]. *)
Lemma MixedDistribution_log_prob_missing_key_witness :
  distributions.MixedDistribution.log_prob example.toy_mixed {[ "a" := 1 ]}
  = py.Raise py.KeyError.
Proof.
  destruct (MixedDistribution_log_prob_missing_key example.toy_mixed
              {[ "a" := 1 ]} "b") as [_ Hkey].
  - simpl. rewrite !elem_of_cons. right. by left.
  - reflexivity.
  - apply Hkey. intros kd v. simpl. rewrite !elem_of_cons, elem_of_nil.
    intros [->|[->|[]]]; simpl; eauto.
Defined.

(** X27 at the mixed distribution over [a] and [b]. *)
Lemma MixedDistribution_mode_keys_witness :
  distributions.MixedDistribution.mode example.toy_mixed
  = py.Ok [("a", 0); ("b", 1)].
Proof.
  apply (MixedDistribution_mode_keys example.toy_mixed [0; 1]).
  - unfold py.is_dict. simpl. apply (bool_decide_unpack _). reflexivity.
  - repeat constructor.
Defined.

(** ** The divergence of the base normal distributions *)

Section normal_kl_facts.
Import py distributions.
Implicit Types (mean std : torch.Tensor) (p : Object).

Lemma forallb_positive (t : torch.Tensor) :
  forallb (λ x, bool_decide (0 < x)) t = true ↔ Forall (λ x, 0 < x) t.
Proof.
  rewrite forallb_forall, Forall_forall. split; intros Ht x Hx.
  - apply list_elem_of_In in Hx. specialize (Ht x Hx).
    by apply bool_decide_eq_true in Ht.
  - apply bool_decide_eq_true. apply Ht. by apply list_elem_of_In.
Qed.

Lemma torch_Normal_init (loc scale : torch.Tensor) :
  length scale = length loc → Forall (λ x, 0 < x) scale →
  torch_distributions.Normal.__init__ loc scale =
    Ok {| torch_distributions.Normal.loc := loc;
          torch_distributions.Normal.scale := scale |}.
Proof.
  intros Hl Hpos.
  unfold torch_distributions.Normal.__init__, torch.broadcast_tensors.
  destruct (decide (length loc = length scale)); [|lia]. simpl.
  apply forallb_positive in Hpos. by rewrite Hpos.
Qed.

Lemma torch_Normal_init_inv (loc scale : torch.Tensor) d :
  length scale = length loc →
  torch_distributions.Normal.__init__ loc scale = Ok d →
  d = {| torch_distributions.Normal.loc := loc;
         torch_distributions.Normal.scale := scale |}
  ∧ Forall (λ x, 0 < x) scale.
Proof.
  intros Hl.
  unfold torch_distributions.Normal.__init__, torch.broadcast_tensors.
  destruct (decide (length loc = length scale)); [|lia]. simpl.
  destruct (forallb _ scale) eqn:Hpos; [|done].
  intros [= <-]. split; [done|]. by apply forallb_positive.
Qed.

Lemma Forall_ones {A} (l : list A) : Forall (λ x, 0 < x) (map (λ _, 1) l).
Proof.
  rewrite map_fmap. apply Forall_fmap, Forall_true. intros x. simpl. lra.
Qed.

(** X28.  [normal_kl] with its default target ([q=None]) never returns: the
    target it builds is a [Normal] of this file, whose [base_dist] is a
    [torch.distributions.Normal], which has no attribute [base_dist].  For a
    [TanhNormal] and for a [Normal] of this file the call raises
    AttributeError. *)
Theorem normal_kl_default_target_raises p (dt : TanhNormal.t) (dn : Normal.t) :
  (∀ r, normal_kl p q_None ≠ Returned r)
  ∧ ((torch_distributions.Independent.reinterpreted_batch_ndims dt ≤ 1)%nat →
     normal_kl (of_TanhNormal dt) q_None = Raised AttributeError)
  ∧ ((torch_distributions.Independent.reinterpreted_batch_ndims dn ≤ 1)%nat →
     normal_kl (of_Normal dn) q_None = Raised AttributeError).
Proof.
  split; [|split].
  - intros r. unfold normal_kl.
    destruct (Normal.__init__ _ _ _) as [q|e]; [|done]. simpl.
    destruct (base_dist p) as [pb|e]; [|done]. simpl.
    destruct (base_dist pb) as [pbb|e]; [|done]. simpl.
    destruct (new_Independent pbb _) as [p_base|e]; done.
  - intros Hn. destruct dt as [[[loc scale]] n]. simpl in Hn.
    unfold normal_kl, Normal.__init__.
    rewrite torch_Normal_init
      by (rewrite ?length_map; done || apply Forall_ones).
    simpl. unfold torch_distributions.Independent.__init__.
    rewrite Nat.add_0_r.
    destruct (decide (n ≤ 1)%nat); [|lia]. simpl.
    unfold new_Independent. simpl.
    destruct (decide (n ≤ 1)%nat); [|lia]. done.
  - intros Hn. destruct dn as [[loc scale] n]. simpl in Hn.
    unfold normal_kl, Normal.__init__.
    rewrite torch_Normal_init
      by (rewrite ?length_map; done || apply Forall_ones).
    simpl. unfold torch_distributions.Independent.__init__.
    rewrite Nat.add_0_r.
    destruct (decide (n ≤ 1)%nat); [|lia]. done.
Qed.

Lemma ln_le_minus_1 z : 0 < z → ln z <= z - 1.
Proof.
  intros Hz. pose proof (exp_ineq1_le (ln z)) as H.
  rewrite exp_ln in H by done. lra.
Qed.

Lemma unit_normal_kl_nonneg μ σ : 0 < σ → 0 <= reference.unit_normal_kl μ σ.
Proof.
  intros Hσ. unfold reference.unit_normal_kl.
  pose proof (ln_le_minus_1 (σ ^ 2) ltac:(nra)).
  pose proof (pow2_ge_0 μ). lra.
Qed.

Lemma clamp_zero : torch.clamp (-9) 9 0 = 0.
Proof. apply clamp_inside. lra. Qed.

Lemma kl_normal_unit (loc scale : torch.Tensor) :
  length scale = length loc →
  torch_distributions.kl._kl_normal_normal
    {| torch_distributions.Normal.loc := loc;
       torch_distributions.Normal.scale := scale |}
    {| torch_distributions.Normal.loc :=
         map (torch.clamp (-9) 9) (map (λ _, 0) (map tanh loc));
       torch_distributions.Normal.scale := map (λ _, 1) (map tanh loc) |}
  = Some (zip_with reference.unit_normal_kl loc scale).
Proof.
  intros Hl. unfold torch_distributions.kl._kl_normal_normal. simpl.
  rewrite binary_same_length
    by (repeat (rewrite length_map || rewrite length_zip_with); lia).
  simpl.
  rewrite binary_same_length
    by (repeat (rewrite length_map || rewrite length_zip_with); lia).
  simpl.
  rewrite binary_same_length
    by (repeat (rewrite length_map || rewrite length_zip_with); lia).
  simpl.
  rewrite binary_same_length
    by (repeat (rewrite length_map || rewrite length_zip_with); lia).
  simpl.
  rewrite binary_same_length
    by (repeat (rewrite length_map || rewrite length_zip_with); lia).
  simpl. f_equal.
  revert scale Hl. induction loc as [|m loc IH]; intros [|s scale] Hl;
    simplify_eq/=; [done|].
  f_equal; [|by apply IH].
  rewrite clamp_zero. unfold reference.unit_normal_kl, Rdiv.
  rewrite Rinv_1, !Rmult_1_r.
  replace (m - 0) with m by lra. replace (s * s) with (s ^ 2) by (simpl; lra).
  simpl. lra.
Qed.

(** X29.  [normal_kl] of a [TanhNormal] with the target ["tanh"] is the
    divergence of its base normal distribution, whose mean is the mean
    clamped to [-9, 9], from the standard normal distribution, in each
    element, summed over the elements when [event_dim] is 1; no element of it
    is negative. *)
Theorem normal_kl_tanh_target mean std (event_dim : nat) (d : TanhNormal.t) :
  length std = length mean →
  TanhNormal.__init__ mean std event_dim = Ok d →
  let kl := zip_with reference.unit_normal_kl
              (map (torch.clamp (-9) 9) mean) std in
  normal_kl (of_TanhNormal d) q_tanh
    = Returned (torch.sum_rightmost kl event_dim)
  ∧ Forall (λ v, 0 <= v) kl.
Proof.
  intros Hl Hd kl.
  unfold TanhNormal.__init__, TanhNormal_.__init__ in Hd.
  destruct (torch_distributions.Normal.__init__ _ std) as [base|e] eqn:Hbase;
    [|done].
  apply torch_Normal_init_inv in Hbase as [-> Hpos];
    [|by rewrite length_map].
  simpl in Hd. unfold torch_distributions.Independent.__init__ in Hd.
  destruct (decide (event_dim ≤ 1)%nat) as [He|]; [|done].
  injection Hd as <-. split.
  - unfold normal_kl, of_TanhNormal at 1. simpl.
    unfold TanhNormal.__init__, TanhNormal_.__init__, TanhNormal_.mean. simpl.
    rewrite torch_Normal_init
      by (rewrite ?length_map; done || apply Forall_ones).
    simpl. unfold torch_distributions.Independent.__init__.
    rewrite Nat.add_0_r.
    destruct (decide (event_dim ≤ 1)%nat); [|lia]. simpl.
    unfold new_Independent. simpl. rewrite Nat.add_0_r.
    destruct (decide (event_dim ≤ 1)%nat); [|lia]. simpl.
    destruct (decide (event_dim = event_dim)); [|done].
    rewrite kl_normal_unit by (by rewrite length_map). done.
  - subst kl. clear He. revert std Hl Hpos.
    induction mean as [|m mean IH]; intros [|s std] Hl Hpos;
      simplify_eq/=; constructor.
    + apply unit_normal_kl_nonneg. by apply Forall_cons in Hpos as [? _].
    + apply IH; [done|]. by apply Forall_cons in Hpos as [_ ?].
Qed.

End normal_kl_facts.

(** X29 at the mean [0; 10] and the standard deviation [1; 2], with the two
    elements as one event. *)
Lemma normal_kl_tanh_target_witness :
  distributions.normal_kl
    (distributions.of_TanhNormal
       {| torch_distributions.Independent.base_dist :=
            {| distributions.TanhNormal_.base_dist :=
                 {| torch_distributions.Normal.loc :=
                      map (torch.clamp (-9) 9) [0; 10];
                    torch_distributions.Normal.scale := [1; 2] |} |};
          torch_distributions.Independent.reinterpreted_batch_ndims := 1 |})
    distributions.q_tanh
  = py.Returned
      [np.sum (zip_with reference.unit_normal_kl
                 (map (torch.clamp (-9) 9) [0; 10]) [1; 2])].
Proof.
  refine (proj1 (normal_kl_tanh_target [0; 10] [1; 2] 1 _ eq_refl _)).
  unfold distributions.TanhNormal.__init__, distributions.TanhNormal_.__init__,
    torch_distributions.Normal.__init__. simpl.
  rewrite !bool_decide_eq_true_2 by lra. reflexivity.
Defined.
